(** * UniqueSortingAlgorithms: smoothsort, binary quicksort and
      Cartesian tree sort

    A shallow embedding of [smoothsort.h], [binaryquicksort.h] and
    [cartesiantreesort.h].

    Iterators are modelled as integer offsets from the start of the
    underlying sequence (a [list]); dereferencing an iterator that lies
    outside the sequence, or indexing the Leonardo table outside its 46
    entries, is undefined behaviour in the source and [None] here.  Every
    loop of the source is a [Fixpoint] over a bound on its number of
    iterations; running out of that bound is [None] as well, so that a
    result [Some _] always stands for a terminating, well-defined run.

    The nodes of a Cartesian tree live in a store, the list of the nodes
    allocated so far; a pointer is an index into it and [NULL] is
    [None].  The priority queue of [CartesianTreeSort] is the list of
    the pointers it holds; where the queue is free to choose which node
    it hands back, the model returns every outcome. *)

From Stdlib Require Import ZArith Lia.
From stdpp Require Import base decidable option numbers list sorting.

Local Open Scope Z_scope.

(** ** Machine integers and the bitset *)

(** [size_t]: the table below is the one "that can fit into 32 bits". *)
Definition size_t_bits : Z := 32.
Definition to_size_t (z : Z) : Z := z mod 2 ^ size_t_bits.

Definition kNumLeonardoNumbers : Z := 46.

Definition kLeonardoNumbers : list Z :=
  [ 1; 1; 3; 5; 9; 15; 25; 41; 67; 109; 177; 287; 465; 753;
    1219; 1973; 3193; 5167; 8361; 13529; 21891; 35421; 57313; 92735;
    150049; 242785; 392835; 635621; 1028457; 1664079; 2692537;
    4356617; 7049155; 11405773; 18454929; 29860703; 48315633; 78176337;
    126491971; 204668309; 331160281; 535828591; 866988873; 1402817465;
    2269806339; 3672623805 ].

(** [kLeonardoNumbers[k]] for a [size_t] index [k]. *)
Definition leonardo_at (k : Z) : option Z :=
  if decide (0 <= k) then kLeonardoNumbers !! Z.to_nat k else None.

(** [std::bitset<kNumLeonardoNumbers>] as the integer of its bits. *)
Definition bs_test (b i : Z) : bool := Z.testbit b i.
Definition bs_set (b i : Z) (v : bool) : Z :=
  if v then Z.setbit b i else Z.clearbit b i.
Definition bs_shr (b n : Z) : Z := Z.shiftr b n.
Definition bs_shl (b n : Z) : Z :=
  if decide (kNumLeonardoNumbers <= n) then 0
  else Z.shiftl b n mod 2 ^ kNumLeonardoNumbers.
Definition bs_any (b : Z) : bool := negb (b =? 0).

Record HeapShape : Type := mkShape {
  trees : Z;
  smallestTreeSize : Z
}.

(** The two statements [shape.trees >>= 1; ++shape.smallestTreeSize]. *)
Definition shape_shift (shape : HeapShape) : HeapShape :=
  {| trees := bs_shr (trees shape) 1;
     smallestTreeSize := to_size_t (smallestTreeSize shape + 1) |}.

(** ** Smoothsort *)

Section Smoothsort.
Context {A : Type} (comp : A -> A -> bool).
Implicit Types (a : list A) (shape : HeapShape).

(** [*itr] *)
Definition deref a (itr : Z) : option A :=
  if decide (0 <= itr) then a !! Z.to_nat itr else None.

(** [std::iter_swap(i, j)] *)
Definition iter_swap a (i j : Z) : option (list A) :=
  x ← deref a i;
  y ← deref a j;
  Some (<[Z.to_nat j := x]> (<[Z.to_nat i := y]> a)).

Definition SecondChild (root : Z) : Z := root - 1.

Definition FirstChild (root size : Z) : option Z :=
  l ← leonardo_at (to_size_t (size - 2));
  Some (SecondChild root - l).

Definition LargerChild a (root size : Z) : option Z :=
  first ← FirstChild root size;
  let second := SecondChild root in
  vf ← deref a first;
  vs ← deref a second;
  Some (if comp vf vs then second else first).

(** The [while (size > 1)] loop of [RebalanceSingleHeap]. *)
Fixpoint rebalance_loop (fuel : nat) a (root size : Z) : option (list A) :=
  if decide (size > 1) then
    match fuel with
    | O => None
    | S fuel' =>
        first ← FirstChild root size;
        let second := SecondChild root in
        vf ← deref a first;
        vs ← deref a second;
        let '(largerChild, childSize) :=
          if comp vf vs then (second, to_size_t (size - 2))
          else (first, to_size_t (size - 1)) in
        vr ← deref a root;
        vl ← deref a largerChild;
        if negb (comp vr vl) then Some a
        else
          a' ← iter_swap a root largerChild;
          rebalance_loop fuel' a' largerChild childSize
    end
  else Some a.

(** The order drops at every iteration, so [size] iterations suffice. *)
Definition RebalanceSingleHeap a (root size : Z) : option (list A) :=
  rebalance_loop (Z.to_nat size) a root size.

(** The [do ... while (!shape.trees[0])] scan of [LeonardoHeapRectify].
    Once all [kNumLeonardoNumbers] bits are shifted out the bitset is
    empty for good and the source loops forever. *)
Fixpoint next_tree (fuel : nat) shape : option HeapShape :=
  match fuel with
  | O => None
  | S fuel' =>
      let shape' := shape_shift shape in
      if negb (bs_test (trees shape') 0) then next_tree fuel' shape'
      else Some shape'
  end.

(** The position whose value [LeonardoHeapRectify] compares with the
    previous root: the root, or its larger child if that is greater. *)
Definition rectify_toCompare a (itr : Z) shape : option Z :=
  if decide (smallestTreeSize shape > 1) then
    largeChild ← LargerChild a itr (smallestTreeSize shape);
    vt ← deref a itr;
    vl ← deref a largeChild;
    Some (if comp vt vl then largeChild else itr)
  else Some itr.

(** The [while (true)] loop of [LeonardoHeapRectify], followed by the
    final [RebalanceSingleHeap(itr, lastHeapSize, comp)]. *)
Fixpoint rectify_loop (fuel : nat) a (begin itr : Z) shape
    : option (list A) :=
  match fuel with
  | O => None
  | S fuel' =>
      let lastHeapSize := smallestTreeSize shape in
      l ← leonardo_at lastHeapSize;
      if decide (to_size_t (itr - begin) = to_size_t (l - 1)) then
        RebalanceSingleHeap a itr lastHeapSize
      else
        toCompare ← rectify_toCompare a itr shape;
        let priorHeap := itr - l in
        vt ← deref a toCompare;
        vp ← deref a priorHeap;
        if negb (comp vt vp) then RebalanceSingleHeap a itr lastHeapSize
        else
          a' ← iter_swap a itr priorHeap;
          shape' ← next_tree (Z.to_nat kNumLeonardoNumbers) shape;
          rectify_loop fuel' a' begin priorHeap shape'
  end.

(** [itr] strictly decreases and must stay dereferenceable, which bounds
    the number of iterations by the distance from [begin]. *)
Definition LeonardoHeapRectify a (begin end_ : Z) shape : option (list A) :=
  rectify_loop (S (Z.to_nat (end_ - begin))) a begin (end_ - 1) shape.

(** The four-way shape update of [LeonardoHeapAdd]. *)
Definition shape_add shape : HeapShape :=
  if negb (bs_test (trees shape) 0) then
    {| trees := bs_set (trees shape) 0 true; smallestTreeSize := 1 |}
  else if bs_test (trees shape) 1 && bs_test (trees shape) 0 then
    {| trees := bs_set (bs_shr (trees shape) 2) 0 true;
       smallestTreeSize := to_size_t (smallestTreeSize shape + 2) |}
  else if decide (smallestTreeSize shape = 1) then
    {| trees := bs_set (bs_shl (trees shape) 1) 0 true;
       smallestTreeSize := 0 |}
  else
    {| trees :=
         bs_set (bs_shl (trees shape)
                        (to_size_t (smallestTreeSize shape - 1))) 0 true;
       smallestTreeSize := 1 |}.

(** The [switch] computing [isLast] in [LeonardoHeapAdd]. *)
Definition add_isLast (end_ heapEnd : Z) shape : option bool :=
  if decide (smallestTreeSize shape = 0) then
    Some (bool_decide (end_ + 1 = heapEnd))
  else if decide (smallestTreeSize shape = 1) then
    Some (bool_decide (end_ + 1 = heapEnd)
          || (bool_decide (end_ + 2 = heapEnd)
              && negb (bs_test (trees shape) 1)))
  else
    l ← leonardo_at (to_size_t (smallestTreeSize shape - 1));
    Some (bool_decide (to_size_t (heapEnd - (end_ + 1)) < to_size_t (l + 1))).

Definition LeonardoHeapAdd a (begin end_ heapEnd : Z) shape
    : option (list A * HeapShape) :=
  let shape' := shape_add shape in
  isLast ← add_isLast end_ heapEnd shape';
  a' ← (if negb isLast
        then RebalanceSingleHeap a end_ (smallestTreeSize shape')
        else LeonardoHeapRectify a begin (end_ + 1) shape');
  Some (a', shape').

(** The [do ... while (shape.trees.any() && !shape.trees[0])] scan of
    [LeonardoHeapRemove]; it stops at the latest when the bitset is
    empty, after at most [kNumLeonardoNumbers] shifts. *)
Fixpoint remove_scan (fuel : nat) shape : option HeapShape :=
  match fuel with
  | O => None
  | S fuel' =>
      let shape' := shape_shift shape in
      if bs_any (trees shape') && negb (bs_test (trees shape') 0)
      then remove_scan fuel' shape'
      else Some shape'
  end.

(** The shape after breaking the last heap open: [(W1, n)] becomes
    [(W011, n - 2)]. *)
Definition shape_split shape : HeapShape :=
  {| trees :=
       bs_set (bs_set (bs_shl (bs_set (trees shape) 0 false) 2) 0 true)
              1 true;
     smallestTreeSize := to_size_t (smallestTreeSize shape - 2) |}.

Definition LeonardoHeapRemove a (begin end_ : Z) shape
    : option (list A * HeapShape) :=
  if decide (smallestTreeSize shape <= 1) then
    shape' ← remove_scan (S (Z.to_nat kNumLeonardoNumbers)) shape;
    Some (a, shape')
  else
    let heapOrder := smallestTreeSize shape in
    let shape' := shape_split shape in
    leftHeap ← FirstChild (end_ - 1) heapOrder;
    let rightHeap := SecondChild (end_ - 1) in
    let allButLast := shape_shift shape' in
    a1 ← LeonardoHeapRectify a begin (leftHeap + 1) allButLast;
    a2 ← LeonardoHeapRectify a1 begin (rightHeap + 1) shape';
    Some (a2, shape').

(** [for (itr = begin; itr != end; ++itr) LeonardoHeapAdd(...)], cut
    off after [steps] iterations. *)
Fixpoint build_steps (steps : nat) a (begin itr end_ : Z) shape
    : option (list A * HeapShape) :=
  match steps with
  | O => Some (a, shape)
  | S steps' =>
      if decide (itr = end_) then Some (a, shape)
      else
        '(a', shape') ← LeonardoHeapAdd a begin itr end_ shape;
        build_steps steps' a' begin (itr + 1) end_ shape'
  end.

(** [for (itr = end; itr != begin; --itr) LeonardoHeapRemove(...)], cut
    off after [steps] iterations. *)
Fixpoint extract_steps (steps : nat) a (begin itr : Z) shape
    : option (list A * HeapShape) :=
  match steps with
  | O => Some (a, shape)
  | S steps' =>
      if decide (itr = begin) then Some (a, shape)
      else
        '(a', shape') ← LeonardoHeapRemove a begin itr shape;
        extract_steps steps' a' begin (itr - 1) shape'
  end.

Definition empty_shape : HeapShape := {| trees := 0; smallestTreeSize := 0 |}.

(** [Smoothsort(begin, end, comp)] on the whole sequence: [begin] is
    offset [0] and [end] is offset [length a]. *)
Definition Smoothsort a : option (list A) :=
  let begin := 0 in
  let end_ := Z.of_nat (length a) in
  if decide (begin = end_ \/ begin + 1 = end_) then Some a
  else
    '(a1, shape1) ← build_steps (length a) a begin begin end_ empty_shape;
    '(a2, _) ← extract_steps (length a) a1 begin end_ shape1;
    Some a2.

End Smoothsort.

(** ** Binary quicksort *)

Section BinaryQuicksort.
(** The element type [T]: an integral type of [kNumBits] bits
    ([CHAR_BIT * sizeof(T)]), signed or not; its values are the
    integers it represents. *)
Context (kNumBits : Z) (is_signed : bool).
Implicit Types (a : list Z).

(** Conversion of an integer to [T], by wrap-around. *)
Definition to_T (z : Z) : Z :=
  if is_signed
  then (z + 2 ^ (kNumBits - 1)) mod 2 ^ kNumBits - 2 ^ (kNumBits - 1)
  else z mod 2 ^ kNumBits.

(** [const T bitmask = T(1) << bit] *)
Definition bitmask (bit : Z) : Z := to_T (Z.shiftl 1 bit).

(** [*itr & bitmask], as a truth value *)
Definition masked (x mask : Z) : bool := negb (Z.land x mask =? 0).

(** [while (begin < end && ! ( *begin & bitmask)) ++begin;] *)
Fixpoint skip_zeros (fuel : nat) a (begin end_ mask : Z) : option Z :=
  if decide (begin < end_) then
    x ← deref a begin;
    if negb (masked x mask) then
      match fuel with
      | O => None
      | S fuel' => skip_zeros fuel' a (begin + 1) end_ mask
      end
    else Some begin
  else Some begin.

(** [do { --end; } while (begin < end && !! ( *end & bitmask));] *)
Fixpoint skip_ones (fuel : nat) a (begin end_ mask : Z) : option Z :=
  match fuel with
  | O => None
  | S fuel' =>
      let end' := end_ - 1 in
      if decide (begin < end') then
        x ← deref a end';
        if masked x mask then skip_ones fuel' a begin end' mask
        else Some end'
      else Some end'
  end.

(** The [while (true)] loop of [PartitionAtBit]; the result is the
    sequence as the loop leaves it and the iterator it returns. *)
Fixpoint partition_loop (fuel : nat) a (begin end_ mask : Z)
    : option (list Z * Z) :=
  match fuel with
  | O => None
  | S fuel' =>
      begin' ← skip_zeros (Z.to_nat (end_ - begin)) a begin end_ mask;
      if decide (begin' = end_) then Some (a, begin')
      else
        end' ← skip_ones (S (Z.to_nat (end_ - begin'))) a begin' end_ mask;
        if decide (begin' = end') then Some (a, begin')
        else
          a' ← iter_swap a begin' end';
          partition_loop fuel' a' begin' end' mask
  end.

(** Every iteration but the last moves [end] down. *)
Definition PartitionAtBit a (begin end_ bit : Z) : option (list Z * Z) :=
  partition_loop (S (Z.to_nat (end_ - begin))) a begin end_ (bitmask bit).

(** [BinaryQuicksortAtBit]: the [while] loop with its recursive call.
    After the recursive call on one part the loop goes on with the
    other part and the same decremented bit, which is what a call on
    that part does; [bit] drops at every iteration and call. *)
Fixpoint quicksort_loop (fuel : nat) a (begin end_ bit : Z)
    : option (list Z) :=
  if decide (bit >= 0 /\ end_ - begin > 1) then
    match fuel with
    | O => None
    | S fuel' =>
        '(a1, pivot) ← PartitionAtBit a begin end_ bit;
        let bit' := bit - 1 in
        if decide (pivot - begin < end_ - pivot) then
          a2 ← quicksort_loop fuel' a1 begin pivot bit';
          quicksort_loop fuel' a2 pivot end_ bit'
        else
          a2 ← quicksort_loop fuel' a1 pivot end_ bit';
          quicksort_loop fuel' a2 begin pivot bit'
    end
  else Some a.

Definition BinaryQuicksortAtBit a (begin end_ bit : Z) : option (list Z) :=
  quicksort_loop (Z.to_nat (bit + 1)) a begin end_ bit.

(** [std::rotate(first, middle, last)] *)
Definition std_rotate a (first middle last : Z) : list Z :=
  take (Z.to_nat first) a
  ++ take (Z.to_nat (last - middle)) (drop (Z.to_nat middle) a)
  ++ take (Z.to_nat (middle - first)) (drop (Z.to_nat first) a)
  ++ drop (Z.to_nat last) a.

(** The [for] loop of [RotateNegativeValues]. *)
Fixpoint rotate_loop (fuel : nat) a (begin itr end_ : Z) : option (list Z) :=
  if decide (itr = end_) then Some a
  else
    match fuel with
    | O => None
    | S fuel' =>
        x ← deref a itr;
        if decide (x < to_T 0) then Some (std_rotate a begin itr end_)
        else rotate_loop fuel' a begin (itr + 1) end_
    end.

Definition RotateNegativeValues a (begin end_ : Z) : option (list Z) :=
  rotate_loop (Z.to_nat (end_ - begin)) a begin begin end_.

(** [BinaryQuicksort(begin, end)] on the whole sequence. *)
Definition BinaryQuicksort a : option (list Z) :=
  let begin := 0 in
  let end_ := Z.of_nat (length a) in
  a1 ← BinaryQuicksortAtBit a begin end_ (kNumBits - 1);
  if is_signed then RotateNegativeValues a1 begin end_ else Some a1.

End BinaryQuicksort.

(** ** Specification vocabulary *)

(** The Leonardo numbers, [L(0) = L(1) = 1], [L(k+2) = L(k+1) + L(k) + 1]. *)
Fixpoint L (k : nat) : Z :=
  match k with
  | O => 1
  | S k' => match k' with
            | O => 1
            | S k'' => L k' + L k'' + 1
            end
  end.

(** The table generated iteratively: [n] entries starting from [x], [y]. *)
Fixpoint leo_from (x y : Z) (n : nat) : list Z :=
  match n with
  | O => []
  | S n' => x :: leo_from y (x + y + 1) n'
  end.

Section Spec.
Context {A : Type} (comp : A -> A -> bool).
Implicit Types (a : list A) (os : list nat).

(** [ge x y]: [x] is not smaller than [y] under the comparator. *)
Definition ge (x y : A) : Prop := comp x y = false.

(** What the proofs need of the comparator; every strict total order
    (indeed every strict weak order) has both properties. *)
Class WeakOrder : Prop := {
  comp_asym : forall x y, comp x y = true -> comp y x = false;
  comp_ntrans : forall x y z,
    comp x y = false -> comp y z = false -> comp x z = false
}.

(** A strict total order, as the interface of [Smoothsort] asks for. *)
Class StrictTotalOrder : Prop := {
  sto_irrefl : forall x, comp x x = false;
  sto_trans : forall x y z,
    comp x y = true -> comp y z = true -> comp x z = true;
  sto_total : forall x y, comp x y = false -> comp y x = false -> x = y
}.

(** Both positions hold an element and the first is not smaller. *)
Definition ge_at a (i j : Z) : Prop :=
  match deref a i, deref a j with
  | Some x, Some y => ge x y
  | _, _ => False
  end.

(** The implicit Leonardo tree of order [k] rooted at [root] is a
    max-heap.  Its second child (order [k-2]) is rooted at [root - 1],
    its first child (order [k-1]) at [root - 1 - L(k-2)]. *)
Fixpoint is_heap a (k : nat) (root : Z) : Prop :=
  match k with
  | S (S k'' as k') =>
      is_heap a k' (root - 1 - L k'') /\ is_heap a k'' (root - 1) /\
      ge_at a root (root - 1 - L k'') /\ ge_at a root (root - 1)
  | _ => is_Some (deref a root)
  end.

(** Both children are max-heaps; the root itself may be out of place. *)
Definition semi_heap a (k : nat) (root : Z) : Prop :=
  match k with
  | S (S k'' as k') =>
      is_heap a k' (root - 1 - L k'') /\ is_heap a k'' (root - 1) /\
      is_Some (deref a root)
  | _ => is_Some (deref a root)
  end.

(** A forest is the list of its tree orders, rightmost tree first; it
    ends just before position [m]. *)
Fixpoint forest_size os : Z :=
  match os with
  | [] => 0
  | k :: rest => L k + forest_size rest
  end.

Fixpoint heaps a os (m : Z) : Prop :=
  match os with
  | [] => True
  | k :: rest => is_heap a k (m - 1) /\ heaps a rest (m - L k)
  end.

(** Read left to right the roots never decrease: every root is not
    smaller than the root of the tree to its left. *)
Fixpoint roots_sorted a os (m : Z) : Prop :=
  match os with
  | k :: (_ :: _) as rest =>
      ge_at a (m - 1) (m - 1 - L k) /\ roots_sorted a rest (m - L k)
  | _ => True
  end.

(** The roots are sorted from every tree on that satisfies [Q] (given
    its order and the position just after it), leftwards. *)
Fixpoint sorted_where (Q : nat -> Z -> Prop) a os (m : Z) : Prop :=
  match os with
  | [] => True
  | k :: rest =>
      (Q k m -> roots_sorted a os m) /\ sorted_where Q a rest (m - L k)
  end.

(** Swaps confined to the positions [lo <= i < hi]. *)
Inductive swaps_within (lo hi : Z) : list A -> list A -> Prop :=
| sw_refl a : swaps_within lo hi a a
| sw_step a i j a1 a' :
    lo <= i < hi -> lo <= j < hi ->
    iter_swap a i j = Some a1 ->
    swaps_within lo hi a1 a' ->
    swaps_within lo hi a a'.

End Spec.

(** Orders strictly increase from the rightmost tree leftwards. *)
Fixpoint increasing (os : list nat) : Prop :=
  match os with
  | k :: (k' :: _) as rest => (k < k')%nat /\ increasing rest
  | _ => True
  end.

(** No two neighbouring trees have consecutive orders. *)
Fixpoint gapped (os : list nat) : Prop :=
  match os with
  | k :: (k' :: _) as rest => (k + 2 <= k')%nat /\ gapped rest
  | _ => True
  end.

(** The shapes a Leonardo heap goes through: only the two smallest trees
    may have consecutive orders, and an order-0 tree only ever stands
    next to an order-1 tree. *)
Definition shape_ok (os : list nat) : Prop :=
  match os with
  | [] => True
  | [k] => k <> O
  | k :: (k' :: _) as rest =>
      (k < k')%nat /\ (k = O -> k' = 1%nat) /\ gapped rest
  end.

(** The bitset and offset of [shape] encode the forest [os]. *)
Definition shape_rep (shape : HeapShape) (os : list nat) : Prop :=
  (forall i : Z, 0 <= i ->
     Z.testbit (trees shape) i = true <->
     exists k, k ∈ os /\ Z.of_nat k = smallestTreeSize shape + i) /\
  match os with
  | [] => True
  | k :: _ => smallestTreeSize shape = Z.of_nat k
  end.

(** The forest read back from a shape. *)
Definition shape_orders (shape : HeapShape) : list nat :=
  omap (fun i : nat =>
          if Z.testbit (trees shape) (Z.of_nat i)
          then Some (Z.to_nat (smallestTreeSize shape + Z.of_nat i))
          else None)
       (seq 0 (Z.to_nat kNumLeonardoNumbers)).

(** The shape update of an insert, on forests. *)
Definition add_orders (os : list nat) : list nat :=
  match os with
  | [] => [1%nat]
  | k :: rest =>
      match rest with
      | k' :: rest' =>
          if decide (k' = S k) then S (S k) :: rest'
          else if decide (k = 1%nat) then O :: os
          else 1%nat :: os
      | [] => if decide (k = 1%nat) then O :: os else 1%nat :: os
      end
  end.

(** The shape update of a remove, on forests. *)
Definition remove_orders (os : list nat) : list nat :=
  match os with
  | [] => []
  | S (S k'' as k') :: rest => k'' :: k' :: rest
  | _ :: rest => rest
  end.

(** ** Forests and shapes of a run *)

(** The bits of [shape] at and above its offset are the orders in [os]. *)
Definition bits_rep (shape : HeapShape) (os : list nat) : Prop :=
  forall i : Z, 0 <= i ->
    Z.testbit (trees shape) i = true <->
    exists k, k ∈ os /\ Z.of_nat k = smallestTreeSize shape + i.

Definition orders_ok (os : list nat) : Prop := Forall (fun k => (k < 46)%nat) os.

(** A tree of order [k] cannot be merged any more once fewer than
    [thr k] elements remain to be inserted after it. *)
Definition thr (k : nat) : Z :=
  match k with
  | O => 1
  | S k' => L k' + 1
  end.

Definition settled (n : Z) (k : nat) (m : Z) : Prop := n - m < thr k.

Definition consecutive (os : list nat) : Prop :=
  match os with
  | k :: k' :: _ => k' = S k
  | _ => False
  end.

(** The rule by which [LeonardoHeapAdd] chooses the full rectify, given
    the number of elements that remain after the new tree. *)
Definition needs_rectify (remaining : Z) (os : list nat) : bool :=
  match os with
  | [] => false
  | O :: _ => bool_decide (remaining = 0)
  | 1%nat :: rest =>
      bool_decide (remaining = 0) ||
      (bool_decide (remaining = 1)
       && negb (bool_decide (head rest = Some 2%nat)))
  | S k' :: _ => bool_decide (remaining < L k' + 1)
  end.

Definition shape_inv (shape : HeapShape) (os : list nat) (m : Z) : Prop :=
  shape_rep shape os /\ shape_ok os /\ forest_size os = m.

(** The trees of a forest that ends before [m]: each with its order and
    the position just after it. *)
Fixpoint forest_trees (os : list nat) (m : Z) : list (nat * Z) :=
  match os with
  | [] => []
  | k :: rest => (k, m) :: forest_trees rest (m - L k)
  end.

(** The forest at the end of the build phase over [n] elements. *)
Definition final_forest (n : nat) : list nat := Nat.iter n add_orders [].

(** The rightmost tree of [os], which ends before [m], is a tree of the
    forest that the build phase over [n] elements ends with. *)
Definition in_final_position (n : nat) (os : list nat) (m : Z) : Prop :=
  match os with
  | [] => False
  | k :: _ => (k, m) ∈ forest_trees (final_forest n) (Z.of_nat n)
  end.

(** Some tree of the forest [os], which ends before [e], reaches over
    position [m]: it begins before [m] and ends after it. *)
Definition straddled (os : list nat) (e m : Z) : Prop :=
  exists k' e', (k', e') ∈ forest_trees os e /\ e' - L k' < m < e'.

(** ** Invariants and states of a run *)

Section Invariants.
Context {A : Type} (comp : A -> A -> bool).
Implicit Types (l a : list A) (os : list nat).

(** What [toCompare] stands for: a value of the current tree that is
    not smaller than its root and the roots of both its children. *)
Definition dominates a (k : nat) (itr : Z) (vt : A) : Prop :=
  (forall vr, deref a itr = Some vr -> ge comp vt vr) /\
  match k with
  | S (S k'') =>
      (forall vf, deref a (itr - 1 - L k'') = Some vf -> ge comp vt vf) /\
      (forall vs, deref a (itr - 1) = Some vs -> ge comp vt vs)
  | _ => True
  end.

(** During the build phase every tree is a heap, and the roots are
    sorted from each settled tree leftwards. *)
Definition build_order_inv (n : Z) a os (m : Z) : Prop :=
  heaps comp a os m /\
  match os with
  | [] => True
  | k :: rest =>
      (settled n k m -> (consecutive os -> n = m) ->
       roots_sorted comp a os m) /\
      sorted_where comp (settled n) a rest (m - L k)
  end.

(** Everything from position [m] on is in its final place: each such
    element is not smaller than any element before it. *)
Definition final_inv (n : Z) a (m : Z) : Prop :=
  forall i j, m <= i < n -> 0 <= j <= i -> ge_at comp a i j.

(** The sequence and shape after the first [adds] inserts of the build
    phase of [Smoothsort] on [l]. *)
Definition build_state l (adds : nat) : option (list A * HeapShape) :=
  build_steps comp adds l 0 0 (Z.of_nat (length l)) empty_shape.

(** The sequence and shape after the whole build phase and the first
    [removes] removes of the second phase. *)
Definition extract_state l (removes : nat) : option (list A * HeapShape) :=
  '(a1, shape1) ← build_state l (length l);
  extract_steps comp removes a1 0 (Z.of_nat (length l)) shape1.

(** The claim's reading of the root order: read left to right the
    roots never increase. *)
Fixpoint roots_nonincreasing a (os : list nat) (m : Z) : Prop :=
  match os with
  | k :: (_ :: _) as rest =>
      ge_at comp a (m - 1 - L k) (m - 1) /\
      roots_nonincreasing a rest (m - L k)
  | _ => True
  end.

(** The comparison value of a step: the value of the current root or,
    when the order of its tree exceeds 1, the larger of that value and
    the value of its larger child. *)
Definition comparison_value a (k : nat) (itr : Z) : option A :=
  vr ← deref a itr;
  if decide (1 < k)%nat then
    child ← LargerChild comp a itr (Z.of_nat k);
    vl ← deref a child;
    Some (if comp vr vl then vl else vr)
  else Some vr.

(** The walk over the forest [os], from the root [itr] of its rightmost
    tree leftwards; [stop next value] tells whether it stops in front
    of a tree whose root holds [next]. *)
Fixpoint rectify_walk (stop : A -> A -> bool) a os (itr : Z)
    : option (list A) :=
  match os with
  | [] => None
  | k :: rest =>
      match rest with
      | [] => RebalanceSingleHeap comp a itr (Z.of_nat k)
      | _ :: _ =>
          value ← comparison_value a k itr;
          next ← deref a (itr - L k);
          if stop next value
          then RebalanceSingleHeap comp a itr (Z.of_nat k)
          else
            a' ← iter_swap a itr (itr - L k);
            rectify_walk stop a' rest (itr - L k)
      end
  end.

(** The claim's stopping rule: the next root is not smaller than the
    comparison value. *)
Definition rectify_claimed : list A -> list nat -> Z -> option (list A) :=
  rectify_walk (fun next value => negb (comp next value)).

(** The code's stopping rule: the next root is not greater than the
    comparison value. *)
Definition rectify_described : list A -> list nat -> Z -> option (list A) :=
  rectify_walk (fun next value => negb (comp value next)).

End Invariants.

(** ** Bit patterns of signed values *)

(** The values of a signed type of [w] bits. *)
Definition in_range (w x : Z) : Prop := - 2 ^ (w - 1) <= x < 2 ^ (w - 1).

(** The bit pattern of [x] read as an unsigned number. *)
Definition ukey (w x : Z) : Z := x mod 2 ^ w.

(** The bits of the pattern from position [b] upwards. *)
Definition prefix (w x b : Z) : Z := ukey w x / 2 ^ b.

(** The positions [lo <= i < hi] hold patterns in ascending order. *)
Definition sorted_by_key (w : Z) (a : list Z) (lo hi : Z) : Prop :=
  forall i j x y, lo <= i <= j /\ j < hi ->
    deref a i = Some x -> deref a j = Some y -> ukey w x <= ukey w y.

(** The elements at [lo <= i < hi] are values of the type whose
    patterns have the bits [c] from position [b] upwards. *)
Definition all_prefix (w : Z) (a : list Z) (lo hi b c : Z) : Prop :=
  forall i x, lo <= i < hi -> deref a i = Some x ->
    in_range w x /\ prefix w x b = c.

(** ** Further vocabulary for the runs of [Smoothsort] *)

(** No element of [a] is smaller than an earlier one. *)
Definition ascending {A} (comp : A -> A -> bool) (a : list A) : Prop :=
  forall i j x y, i < j -> deref a i = Some x -> deref a j = Some y ->
    comp y x = false.

(** [Smoothsort(begin, end)]: the overload without a comparator, which
    passes [std::less], on sequences of integers. *)
Definition Smoothsort_less (a : list Z) : option (list Z) :=
  Smoothsort Z.ltb a.

(** ** Unsigned element types *)

(** The values of an unsigned type of [w] bits. *)
Definition in_urange (w x : Z) : Prop := 0 <= x < 2 ^ w.

(** ** Cartesian tree sort *)

(** [Node<T>]: a value and the pointers to the two subtrees.  A pointer
    is the index of its node in the store of the nodes allocated so
    far; [None] is [NULL]. *)
Module Node.
Record t (A : Type) : Type := mk {
  value : A;
  left : option nat;
  right : option nat
}.
Global Arguments mk {A} _ _ _.
Global Arguments value {A} _.
Global Arguments left {A} _.
Global Arguments right {A} _.
End Node.

Section CartesianTreeSort.
Context {A : Type} (comp : A -> A -> bool).
Implicit Types (s : list (Node.t A)) (rightSpine : list (option nat)).

(** [new Node<T>(v)]: the store with the new, isolated node and the
    pointer to it. *)
Definition new_node s (v : A) : list (Node.t A) * nat :=
  (s ++ [Node.mk v None None], length s).

(** [p->left = l] *)
Definition set_left s (p : nat) (l : option nat)
    : option (list (Node.t A)) :=
  n ← s !! p;
  Some (<[p := Node.mk (Node.value n) l (Node.right n)]> s).

(** [p->right = r] *)
Definition set_right s (p : nat) (r : option nat)
    : option (list (Node.t A)) :=
  n ← s !! p;
  Some (<[p := Node.mk (Node.value n) (Node.left n) r]> s).

(** The inner loop of [MakeCartesianTree],
    [for (curr = rightSpine.top(); curr != NULL;
          rightSpine.pop(), curr = rightSpine.top())
       if (comp(curr->value, node->value)) break;]
    with the stack as a list, its top first.  The result is [curr] and
    the stack as the loop leaves it. *)
Fixpoint find_parent s (node : nat) rightSpine
    : option (option nat * list (option nat)) :=
  match rightSpine with
  | [] => None
  | None :: _ => Some (None, rightSpine)
  | Some curr :: rest =>
      nc ← s !! curr;
      nn ← s !! node;
      if comp (Node.value nc) (Node.value nn) then Some (Some curr, rightSpine)
      else find_parent s node rest
  end.

(** The body of the outer loop of [MakeCartesianTree], on the store,
    the root and the stack. *)
Definition insert_node
    (st : list (Node.t A) * option nat * list (option nat)) (x : A)
    : option (list (Node.t A) * option nat * list (option nat)) :=
  let '(s, root, rightSpine) := st in
  let '(s1, node) := new_node s x in
  '(curr, rightSpine') ← find_parent s1 node rightSpine;
  '(s2, root') ←
    match curr with
    | None =>
        s2 ← set_left s1 node root;
        Some (s2, Some node)
    | Some c =>
        nc ← s1 !! c;
        s2 ← set_left s1 node (Node.right nc);
        s3 ← set_right s2 c (Some node);
        Some (s3, root)
    end;
  Some (s2, root', Some node :: rightSpine').

(** [for (; begin != end; ++begin)] over the elements of the range. *)
Fixpoint make_loop (xs : list A)
    (st : list (Node.t A) * option nat * list (option nat))
    : option (list (Node.t A) * option nat * list (option nat)) :=
  match xs with
  | [] => Some st
  | x :: xs' => st' ← insert_node st x; make_loop xs' st'
  end.

(** [MakeCartesianTree(begin, end, comp)] on the elements [xs] of the
    range: the store of the nodes it allocates and the root it returns.
    The stack starts with [NULL] on it. *)
Definition MakeCartesianTree (xs : list A)
    : option (list (Node.t A) * option nat) :=
  '(s, root, _) ← make_loop xs ([], None, [None]);
  Some (s, root).

(** [NodeComparator::operator()] *)
Definition NodeComparator s (lhs rhs : nat) : option bool :=
  l ← s !! lhs;
  r ← s !! rhs;
  Some (negb (comp (Node.value l) (Node.value r))).

End CartesianTreeSort.

(** ** Vocabulary for Cartesian trees *)

Section CartesianSpec.
Context {A : Type} (comp : A -> A -> bool).
Implicit Types (s : list (Node.t A)).

(** The in-order sequence of the values of the tree at [p].  A tree of
    a store has fewer levels than the store has nodes, so [fuel] at
    least the number of nodes walks all of it. *)
Fixpoint inorder (fuel : nat) s (p : option nat) : option (list A) :=
  match p with
  | None => Some []
  | Some i =>
      match fuel with
      | O => None
      | S fuel' =>
          n ← s !! i;
          l ← inorder fuel' s (Node.left n);
          r ← inorder fuel' s (Node.right n);
          Some (l ++ Node.value n :: r)
      end
  end.

(** The tree at [p] consists of the nodes [lo <= i < hi], met in this
    order by an in-order walk. *)
Inductive subtree_at s : option nat -> nat -> nat -> Prop :=
| subtree_null lo : subtree_at s None lo lo
| subtree_node p n lo hi :
    s !! p = Some n -> (lo <= p < hi)%nat ->
    subtree_at s (Node.left n) lo p ->
    subtree_at s (Node.right n) (S p) hi ->
    subtree_at s (Some p) lo hi.

(** Every pointer of the store leads to a node of the store; no left
    child is smaller than its parent, and every right child is greater
    than its parent. *)
Definition heap_edges s : Prop :=
  forall p n, s !! p = Some n ->
    (forall l, Node.left n = Some l ->
       exists nl, s !! l = Some nl /\
                  comp (Node.value nl) (Node.value n) = false) /\
    (forall r, Node.right n = Some r ->
       exists nr, s !! r = Some nr /\
                  comp (Node.value n) (Node.value nr) = true).

(** The position from which the left subtree of a node of the right
    spine starts: just after its parent [rest] begins with. *)
Definition spine_lo (rest : list nat) : nat :=
  match rest with
  | [] => O
  | p :: _ => S p
  end.

(** The right spine, from the rightmost node up to the root: every node
    has its left subtree, and is the right child of the next one. *)
Fixpoint spine_ok s (spine : list nat) : Prop :=
  match spine with
  | [] => True
  | c :: rest =>
      (exists n, s !! c = Some n /\
                 subtree_at s (Node.left n) (spine_lo rest) c) /\
      match rest with
      | [] => True
      | p :: _ => exists np, s !! p = Some np /\ Node.right np = Some c
      end /\
      spine_ok s rest
  end.

(** The rightmost node is the one allocated last and has no right
    child. *)
Definition spine_top s (spine : list nat) : Prop :=
  match spine with
  | [] => length s = O
  | c :: _ => S c = length s /\
              exists n, s !! c = Some n /\ Node.right n = None
  end.

(** What the outer loop of [MakeCartesianTree] keeps, with [xs] the
    elements inserted so far. *)
Definition make_inv (xs : list A)
    (st : list (Node.t A) * option nat * list (option nat)) : Prop :=
  let '(s, root, rightSpine) := st in
  Node.value <$> s = xs /\ heap_edges s /\
  exists spine,
    rightSpine = (Some <$> spine) ++ [None] /\ root = last spine /\
    spine_ok s spine /\ spine_top s spine.

End CartesianSpec.

(** ** The loop of Cartesian tree sort *)

Section CartesianTreeSortLoop.
Context {A : Type} (comp : A -> A -> bool).
Implicit Types (s : list (Node.t A)) (pq : list nat).

(** The queue's comparator lets [t] be on top as far as [y] goes: it
    ranks [y] before [t], or at least does not rank [t] before [y].
    (For a comparator that is a strict order the standard promises the
    second; [NodeComparator] is not strict, and a binary heap then
    arranges the first.) *)
Definition ranks_top s (t y : nat) : bool :=
  match NodeComparator comp s y t, NodeComparator comp s t y with
  | Some yt, Some ty => yt || negb ty
  | _, _ => false
  end.

(** The positions in the queue of the nodes that [pq.top()] may hand
    back.  Which one it is when there are several is up to the queue;
    the queue is a list here, in no particular order. *)
Definition pq_tops s pq : list nat :=
  List.filter
    (fun i => match pq !! i with
              | Some t => forallb (ranks_top s t) pq
              | None => false
              end)
    (seq 0 (length pq)).

(** [if (child) pq.push(child);] *)
Definition push_child (child : option nat) pq : list nat :=
  match child with
  | Some c => c :: pq
  | None => pq
  end.

(** The loop of [CartesianTreeSort] over [n] positions of the range,
    with the values it writes, in order: one outcome for every choice
    the queue may make, [None] for an outcome that is not defined
    ([pq.top()] on an empty queue, a pointer to no node). *)
Fixpoint sort_loop (n : nat) s pq : list (option (list A)) :=
  match n with
  | O => [Some []]
  | S n' =>
      match pq with
      | [] => [None]
      | _ :: _ =>
          i ← pq_tops s pq;
          match pq !! i ≫= (fun curr => s !! curr) with
          | None => [None]
          | Some curr =>
              let pq1 := delete i pq in
              let pq2 := push_child (Node.left curr) pq1 in
              let pq3 := push_child (Node.right curr) pq2 in
              fmap (M := list) (fmap (M := option) (cons (Node.value curr)))
                (sort_loop n' s pq3)
          end
      end
  end.

(** [CartesianTreeSort(begin, end, comp)] on the elements [xs] of the
    range: the outcomes, each the sequence left in the range. *)
Definition CartesianTreeSort (xs : list A) : list (option (list A)) :=
  match xs with
  | [] => [Some []]
  | _ :: _ =>
      match MakeCartesianTree comp xs with
      | None => [None]
      | Some (s, None) => [None]
      | Some (s, Some root) => sort_loop (length xs) s [root]
      end
  end.

(** The values of the nodes [lo <= i < hi]. *)
Definition segment s (lo hi : nat) : list A :=
  take (hi - lo) (drop lo (Node.value <$> s)).

(** The queue holds the roots of trees of the store, which hold the
    values [rem] between them. *)
Definition queue_inv s pq (rem : list A) : Prop :=
  exists ranges : list (nat * nat),
    Forall2 (fun p r => subtree_at s (Some p) r.1 r.2) pq ranges /\
    rem ≡ₚ mjoin ((fun r => segment s r.1 r.2) <$> ranges).

End CartesianTreeSortLoop.

(** * Proofs *)

Example smoothsort_scenario_1 :
  Smoothsort Z.ltb [5; 3; 4; 1; 2] = Some [1; 2; 3; 4; 5].
Proof. vm_compute. reflexivity. Qed.

(** ** Leonardo numbers *)

Global Arguments L : simpl never.

Lemma L_0 : L 0 = 1.
Proof. reflexivity. Qed.

Lemma L_1 : L 1 = 1.
Proof. reflexivity. Qed.

Lemma L_SS k : L (S (S k)) = L (S k) + L k + 1.
Proof. reflexivity. Qed.

Lemma L_pos k : 1 <= L k.
Proof.
  induction k as [k IH] using lt_wf_ind.
  destruct k as [|[|k]]; [rewrite ?L_0, ?L_1; lia ..|].
  rewrite L_SS. pose proof (IH k). pose proof (IH (S k)). lia.
Qed.

Lemma L_S_le k : L k <= L (S k).
Proof.
  destruct k as [|k]; [rewrite L_0, L_1; lia|].
  rewrite L_SS. pose proof (L_pos k). lia.
Qed.

Lemma L_mono k k' : (k <= k')%nat -> L k <= L k'.
Proof.
  induction 1 as [|k' _ IH]; [lia|].
  pose proof (L_S_le k'). lia.
Qed.

Lemma L_lt_S k : (1 <= k)%nat -> L k < L (S k).
Proof.
  destruct k as [|k]; [lia|]. intros _.
  rewrite L_SS. pose proof (L_pos k). lia.
Qed.

Lemma leo_from_lookup n : forall k i,
  (i < n)%nat -> leo_from (L k) (L (S k)) n !! i = Some (L (k + i)).
Proof.
  induction n as [|n IH]; intros k i Hi; [lia|].
  destruct i as [|i]; simpl.
  - by rewrite Nat.add_0_r.
  - replace (L k + L (S k) + 1) with (L (S (S k))) by (rewrite L_SS; lia).
    rewrite IH by lia. do 2 f_equal. lia.
Qed.

Lemma kLeonardoNumbers_gen : kLeonardoNumbers = leo_from 1 1 46.
Proof. vm_compute. reflexivity. Qed.

Lemma kLeonardoNumbers_lookup (k : nat) :
  (k < 46)%nat -> kLeonardoNumbers !! k = Some (L k).
Proof.
  intros Hk. rewrite kLeonardoNumbers_gen.
  by apply (leo_from_lookup 46 0 k).
Qed.

Lemma L_44 : L 44 = 2269806339.
Proof.
  assert (H := kLeonardoNumbers_lookup 44 ltac:(lia)).
  assert (H' : kLeonardoNumbers !! 44%nat = Some 2269806339) by reflexivity.
  congruence.
Qed.

(** ** Sequences, iterators and swaps *)

Section ArrayFacts.
Context {A : Type}.
Implicit Types (a : list A).

Lemma deref_lookup a i :
  0 <= i -> deref a i = a !! Z.to_nat i.
Proof. intros. unfold deref. by rewrite decide_True. Qed.

Lemma deref_Some_range a i x :
  deref a i = Some x -> 0 <= i < Z.of_nat (length a).
Proof.
  unfold deref. case_decide; [|done].
  intros Hl%lookup_lt_Some. lia.
Qed.

Lemma deref_is_Some a i :
  is_Some (deref a i) <-> 0 <= i < Z.of_nat (length a).
Proof.
  split.
  - intros [x Hx]. by eapply deref_Some_range.
  - intros [H0 Hl]. rewrite deref_lookup by done.
    apply lookup_lt_is_Some. lia.
Qed.

Lemma deref_ext_length a a' :
  (forall i, deref a i = deref a' i) -> a = a'.
Proof.
  intros H. apply list_eq. intros i.
  specialize (H (Z.of_nat i)).
  rewrite !deref_lookup, Nat2Z.id in H by lia. done.
Qed.

Lemma iter_swap_is_Some a i j :
  is_Some (deref a i) -> is_Some (deref a j) -> is_Some (iter_swap a i j).
Proof. intros [x Hx] [y Hy]. unfold iter_swap. rewrite Hx, Hy. by eexists. Qed.

Lemma iter_swap_length a i j a' :
  iter_swap a i j = Some a' -> length a' = length a.
Proof.
  unfold iter_swap. intros H.
  destruct (deref a i), (deref a j); simplify_eq/=.
  by rewrite !length_insert.
Qed.

Lemma deref_iter_swap a i j a' k :
  iter_swap a i j = Some a' ->
  deref a' k =
    if decide (k = j) then deref a i
    else if decide (k = i) then deref a j
    else deref a k.
Proof.
  unfold iter_swap. intros H.
  destruct (deref a i) as [x|] eqn:Hi; [|done].
  destruct (deref a j) as [y|] eqn:Hj; simplify_eq/=.
  pose proof (deref_Some_range _ _ _ Hi).
  pose proof (deref_Some_range _ _ _ Hj).
  unfold deref at 1. case_decide.
  - rewrite list_lookup_insert, length_insert.
    repeat case_decide; try lia; try done.
    + rewrite list_lookup_insert. rewrite decide_True by (split; lia).
      done.
    + rewrite list_lookup_insert. rewrite decide_False by lia.
      by rewrite deref_lookup.
  - repeat case_decide; try lia. unfold deref. by rewrite decide_False.
Qed.

Lemma deref_iter_swap_l a i j a' :
  iter_swap a i j = Some a' -> deref a' i = deref a j.
Proof.
  intros H. rewrite (deref_iter_swap _ _ _ _ _ H).
  repeat case_decide; by subst.
Qed.

Lemma deref_iter_swap_r a i j a' :
  iter_swap a i j = Some a' -> deref a' j = deref a i.
Proof.
  intros H. rewrite (deref_iter_swap _ _ _ _ _ H). by rewrite decide_True.
Qed.

Lemma deref_iter_swap_ne a i j a' k :
  iter_swap a i j = Some a' -> k <> i -> k <> j -> deref a' k = deref a k.
Proof.
  intros H ??. rewrite (deref_iter_swap _ _ _ _ _ H).
  by rewrite !decide_False.
Qed.

Lemma iter_swap_range a i j a' :
  iter_swap a i j = Some a' ->
  0 <= i < Z.of_nat (length a) /\ 0 <= j < Z.of_nat (length a).
Proof.
  unfold iter_swap. intros H.
  destruct (deref a i) eqn:Hi; [|done].
  destruct (deref a j) eqn:Hj; [|done].
  split; by eapply deref_Some_range.
Qed.

Lemma iter_swap_perm a i j a' :
  iter_swap a i j = Some a' -> a ≡ₚ a'.
Proof.
  intros H. destruct (iter_swap_range _ _ _ _ H) as [Hi Hj].
  apply Permutation_inj. split; [by rewrite (iter_swap_length _ _ _ _ H)|].
  set (ni := Z.to_nat i). set (nj := Z.to_nat j).
  exists (fun k : nat => if decide (k = ni) then nj
                  else if decide (k = nj) then ni else k).
  split.
  - intros k1 k2. repeat case_decide; lia.
  - intros k.
    assert (Hd : forall (b : list A) (n : nat), b !! n = deref b (Z.of_nat n)).
    { intros b n. rewrite deref_lookup, Nat2Z.id; [done|lia]. }
    rewrite !Hd, (deref_iter_swap _ _ _ _ _ H).
    subst ni nj. repeat case_decide; try lia; f_equal; lia.
Qed.

(** *** Confined swaps *)

Lemma swaps_within_length lo hi a a' :
  swaps_within lo hi a a' -> length a' = length a.
Proof.
  induction 1 as [|a i j a1 a' _ _ Hs _ IH]; [done|].
  by rewrite IH, (iter_swap_length _ _ _ _ Hs).
Qed.

Lemma swaps_within_perm lo hi a a' :
  swaps_within lo hi a a' -> a ≡ₚ a'.
Proof.
  induction 1 as [|a i j a1 a' _ _ Hs _ IH]; [done|].
  by rewrite (iter_swap_perm _ _ _ _ Hs).
Qed.

Lemma swaps_within_outside lo hi a a' k :
  swaps_within lo hi a a' -> ~ (lo <= k < hi) -> deref a' k = deref a k.
Proof.
  induction 1 as [|a i j a1 a' Hi Hj Hs _ IH]; [done|].
  intros Hk. rewrite IH by done.
  apply (deref_iter_swap_ne _ _ _ _ _ Hs); lia.
Qed.

Lemma swaps_within_trans lo hi a1 a2 a3 :
  swaps_within lo hi a1 a2 -> swaps_within lo hi a2 a3 ->
  swaps_within lo hi a1 a3.
Proof.
  induction 1 as [|a i j a1 a' Hi Hj Hs _ IH]; [done|].
  intros H3. eapply sw_step; [exact Hi|exact Hj|exact Hs|by apply IH].
Qed.

Lemma swaps_within_mono lo hi lo' hi' a a' :
  lo' <= lo -> hi <= hi' ->
  swaps_within lo hi a a' -> swaps_within lo' hi' a a'.
Proof.
  intros Hlo Hhi.
  induction 1 as [|a i j a1 a' Hi Hj Hs _ IH]; [constructor|].
  eapply sw_step; [| |done|done]; lia.
Qed.

Lemma swaps_within_one lo hi a i j a' :
  lo <= i < hi -> lo <= j < hi -> iter_swap a i j = Some a' ->
  swaps_within lo hi a a'.
Proof.
  intros Hi Hj Hs.
  eapply sw_step; [exact Hi|exact Hj|exact Hs|constructor].
Qed.

(** A property of all elements in the window survives the swaps. *)
Lemma swaps_within_Forall (P : A -> Prop) lo hi a a' :
  swaps_within lo hi a a' ->
  (forall i x, lo <= i < hi -> deref a i = Some x -> P x) ->
  forall i x, lo <= i < hi -> deref a' i = Some x -> P x.
Proof.
  induction 1 as [|a i j a1 a' Hi Hj Hs _ IH]; [done|].
  intros HP. apply IH. intros k x Hk.
  rewrite (deref_iter_swap _ _ _ _ _ Hs).
  repeat case_decide; eauto.
Qed.

(** Every element of the window is still somewhere in the window. *)
Lemma swaps_within_stays lo hi a a' i x :
  swaps_within lo hi a a' ->
  lo <= i < hi -> deref a i = Some x ->
  exists j, lo <= j < hi /\ deref a' j = Some x.
Proof.
  intros H. revert i.
  induction H as [|a i0 j0 a1 a' Hi Hj Hs _ IH]; intros i Hr Hx; [eauto|].
  destruct (decide (i = i0)) as [->|].
  { apply (IH j0); [done|]. by rewrite (deref_iter_swap_r _ _ _ _ Hs). }
  destruct (decide (i = j0)) as [->|].
  { apply (IH i0); [done|]. by rewrite (deref_iter_swap_l _ _ _ _ Hs). }
  apply (IH i); [done|]. by rewrite (deref_iter_swap_ne _ _ _ _ _ Hs).
Qed.

End ArrayFacts.

(** ** Heaps and forests *)

Lemma nat_ind2 (P : nat -> Prop) :
  P O -> P 1%nat -> (forall k, P k -> P (S k) -> P (S (S k))) ->
  forall k, P k.
Proof.
  intros H0 H1 HSS k. cut (P k /\ P (S k)); [tauto|].
  induction k as [|k [IH1 IH2]]; auto.
Qed.

Section HeapFacts.
Context {A : Type} (comp : A -> A -> bool).
Implicit Types (a : list A) (os : list nat).

Lemma ge_at_ext a a' i j :
  deref a' i = deref a i -> deref a' j = deref a j ->
  ge_at comp a i j -> ge_at comp a' i j.
Proof. unfold ge_at. by intros -> ->. Qed.

Lemma ge_at_Some a i j x y :
  deref a i = Some x -> deref a j = Some y -> ge_at comp a i j -> ge comp x y.
Proof. unfold ge_at. by intros -> ->. Qed.

Lemma ge_at_intro a i j x y :
  deref a i = Some x -> deref a j = Some y -> ge comp x y -> ge_at comp a i j.
Proof. unfold ge_at. by intros -> ->. Qed.

Lemma ge_at_is_Some a i j :
  ge_at comp a i j -> is_Some (deref a i) /\ is_Some (deref a j).
Proof.
  unfold ge_at.
  destruct (deref a i), (deref a j); done.
Qed.

Lemma is_heap_root a k root : is_heap comp a k root -> is_Some (deref a root).
Proof.
  destruct k as [|[|k]]; simpl; [done..|].
  intros (_ & _ & _ & H). by apply ge_at_is_Some in H as [? _].
Qed.

Lemma is_heap_semi a k root : is_heap comp a k root -> semi_heap comp a k root.
Proof.
  intros H. pose proof (is_heap_root _ _ _ H).
  destruct k as [|[|k]]; simpl in *; [done..|]. tauto.
Qed.

Lemma semi_heap_root a k root : semi_heap comp a k root -> is_Some (deref a root).
Proof. destruct k as [|[|k]]; simpl; [done..|]. tauto. Qed.

(** Every position of a heap's span [root - L k < i <= root] exists. *)
Lemma is_heap_span a k : forall root i,
  is_heap comp a k root -> root - L k < i <= root -> is_Some (deref a i).
Proof.
  induction k as [| |k IH1 IH2] using nat_ind2; intros root i Hh Hi.
  - rewrite L_0 in Hi. by replace i with root by lia.
  - rewrite L_1 in Hi. by replace i with root by lia.
  - rewrite L_SS in Hi. pose proof (is_heap_root _ _ _ Hh).
    destruct Hh as (H1 & H2 & _ & _).
    destruct (decide (i = root)) as [->|]; [done|].
    destruct (decide (root - 1 - L k < i)).
    + apply (IH1 (root - 1)); [done|lia].
    + apply (IH2 (root - 1 - L k)); [done|lia].
Qed.

Lemma semi_heap_span a k root i :
  semi_heap comp a k root -> root - L k < i <= root -> is_Some (deref a i).
Proof.
  intros Hh Hi. pose proof (semi_heap_root _ _ _ Hh).
  destruct k as [|[|k]].
  - rewrite L_0 in Hi. by replace i with root by lia.
  - rewrite L_1 in Hi. by replace i with root by lia.
  - rewrite L_SS in Hi. destruct Hh as (H1 & H2 & _).
    destruct (decide (i = root)) as [->|]; [done|].
    destruct (decide (root - 1 - L k < i)).
    + eapply is_heap_span; [exact H2|lia].
    + eapply is_heap_span; [exact H1|lia].
Qed.

Lemma is_heap_ext a a' k : forall root,
  (forall i, root - L k < i <= root -> deref a' i = deref a i) ->
  is_heap comp a k root -> is_heap comp a' k root.
Proof.
  induction k as [| |k IH1 IH2] using nat_ind2; intros root He Hh.
  - simpl in *. rewrite He; [done|]. rewrite L_0. lia.
  - simpl in *. rewrite He; [done|]. rewrite L_1. lia.
  - rewrite L_SS in He. pose proof (L_pos k). pose proof (L_pos (S k)).
    destruct Hh as (H1 & H2 & H3 & H4).
    split_and!.
    + apply IH2; [|done]. intros i Hi. apply He. lia.
    + apply IH1; [|done]. intros i Hi. apply He. lia.
    + eapply ge_at_ext; [..|exact H3]; apply He; lia.
    + eapply ge_at_ext; [..|exact H4]; apply He; lia.
Qed.

Lemma semi_heap_ext a a' k root :
  (forall i, root - L k < i <= root -> deref a' i = deref a i) ->
  semi_heap comp a k root -> semi_heap comp a' k root.
Proof.
  intros He Hh. destruct k as [|[|k]].
  - simpl in *. rewrite He; [done|]. rewrite L_0. lia.
  - simpl in *. rewrite He; [done|]. rewrite L_1. lia.
  - rewrite L_SS in He. pose proof (L_pos k). pose proof (L_pos (S k)).
    destruct Hh as (H1 & H2 & H3).
    split_and!.
    + eapply is_heap_ext; [|done]. intros i Hi. apply He. lia.
    + eapply is_heap_ext; [|done]. intros i Hi. apply He. lia.
    + rewrite He; [done|lia].
Qed.

Lemma forest_size_nonneg os : 0 <= forest_size os.
Proof.
  induction os as [|k os IH]; simpl; [lia|]. pose proof (L_pos k). lia.
Qed.

Lemma heaps_ext a a' os : forall m,
  (forall i, m - forest_size os <= i < m -> deref a' i = deref a i) ->
  heaps comp a os m -> heaps comp a' os m.
Proof.
  induction os as [|k os IH]; intros m He Hh; [done|].
  simpl in *. pose proof (forest_size_nonneg os). pose proof (L_pos k).
  destruct Hh as [H1 H2]. split.
  - eapply is_heap_ext; [|done]. intros i Hi. apply He. lia.
  - apply IH; [|done]. intros i Hi. apply He. lia.
Qed.

Lemma roots_sorted_ext a a' os : forall m,
  (forall i, m - forest_size os <= i < m -> deref a' i = deref a i) ->
  roots_sorted comp a os m -> roots_sorted comp a' os m.
Proof.
  induction os as [|k os IH]; intros m He Hh; [done|].
  destruct os as [|k' os]; [done|].
  destruct Hh as [H1 H2].
  change (forest_size (k :: k' :: os))
    with (L k + forest_size (k' :: os)) in He.
  assert (1 <= forest_size (k' :: os)).
  { simpl. pose proof (forest_size_nonneg os). pose proof (L_pos k'). lia. }
  pose proof (L_pos k).
  split.
  - eapply ge_at_ext; [..|exact H1]; apply He; lia.
  - apply IH; [|done]. intros i Hi. apply He. lia.
Qed.

Lemma heaps_span a os : forall m i,
  heaps comp a os m -> m - forest_size os <= i < m -> is_Some (deref a i).
Proof.
  induction os as [|k os IH]; intros m i Hh Hi; simpl in *; [lia|].
  destruct Hh as [H1 H2].
  destruct (decide (m - L k <= i)).
  - apply (is_heap_span _ _ _ _ H1). lia.
  - apply (IH _ _ H2). lia.
Qed.

Section Order.
Context `{!WeakOrder comp}.

Lemma ge_refl x : ge comp x x.
Proof.
  unfold ge. destruct (comp x x) eqn:E; [|done].
  by rewrite (comp_asym comp _ _ E) in E.
Qed.

Lemma ge_trans x y z : ge comp x y -> ge comp y z -> ge comp x z.
Proof. apply comp_ntrans; done. Qed.

Lemma lt_ge x y : comp x y = true -> ge comp y x.
Proof. apply comp_asym; done. Qed.

Lemma ge_at_refl a i : is_Some (deref a i) -> ge_at comp a i i.
Proof.
  intros [x Hx]. unfold ge_at. rewrite Hx. apply ge_refl.
Qed.

Lemma ge_at_trans a i j k :
  ge_at comp a i j -> ge_at comp a j k -> ge_at comp a i k.
Proof.
  unfold ge_at.
  destruct (deref a i), (deref a j), (deref a k); try done.
  apply ge_trans.
Qed.

(** The root of a max-heap is a maximum of its span. *)
Lemma heap_root_max a k : forall root i,
  is_heap comp a k root -> root - L k < i <= root -> ge_at comp a root i.
Proof.
  induction k as [| |k IH1 IH2] using nat_ind2; intros root i Hh Hi.
  - rewrite L_0 in Hi. replace i with root by lia. by apply ge_at_refl.
  - rewrite L_1 in Hi. replace i with root by lia. by apply ge_at_refl.
  - rewrite L_SS in Hi. pose proof (is_heap_root _ _ _ Hh).
    destruct Hh as (H1 & H2 & H3 & H4).
    destruct (decide (i = root)) as [->|]; [by apply ge_at_refl|].
    destruct (decide (root - 1 - L k < i)).
    + eapply ge_at_trans; [exact H4|]. apply IH1; [done|lia].
    + eapply ge_at_trans; [exact H3|]. apply IH2; [done|lia].
Qed.

(** With sorted roots, the rightmost root is a maximum of the forest. *)
Lemma forest_max a os : forall m i,
  heaps comp a os m -> roots_sorted comp a os m ->
  m - forest_size os <= i < m -> ge_at comp a (m - 1) i.
Proof.
  induction os as [|k os IH]; intros m i Hh Hs Hi; simpl in Hi; [lia|].
  destruct Hh as [H1 H2].
  destruct (decide (m - L k <= i)).
  - apply (heap_root_max _ _ _ _ H1). lia.
  - destruct os as [|k' os]; [simpl in Hi; lia|].
    destruct Hs as [Hs1 Hs2].
    eapply ge_at_trans; [exact Hs1|].
    replace (m - 1 - L k) with (m - L k - 1) by lia.
    apply IH; [done..|]. simpl in *. lia.
Qed.
End Order.

End HeapFacts.

(** ** Machine arithmetic and the table *)

Lemma to_size_t_small z : 0 <= z < 2 ^ 32 -> to_size_t z = z.
Proof. intros. unfold to_size_t, size_t_bits. by apply Z.mod_small. Qed.

Lemma leonardo_at_L (k : nat) :
  (k < 46)%nat -> leonardo_at (Z.of_nat k) = Some (L k).
Proof.
  intros Hk. unfold leonardo_at. rewrite decide_True by lia.
  rewrite Nat2Z.id. by apply kLeonardoNumbers_lookup.
Qed.

Lemma leonardo_at_Some k l :
  leonardo_at k = Some l -> 0 <= k < 46 /\ l = L (Z.to_nat k).
Proof.
  unfold leonardo_at. case_decide as Hk; [|done]. intros Hl.
  assert (Z.to_nat k < 46)%nat as Hlt.
  { apply lookup_lt_Some in Hl. exact Hl. }
  rewrite kLeonardoNumbers_lookup in Hl by done. split; [lia|congruence].
Qed.

Lemma L_45 : L 45 = 3672623805.
Proof.
  assert (H := kLeonardoNumbers_lookup 45 ltac:(lia)).
  assert (H' : kLeonardoNumbers !! 45%nat = Some 3672623805) by reflexivity.
  congruence.
Qed.

Lemma L_46 : L 46 = 5942430145.
Proof. rewrite L_SS, L_45, L_44. reflexivity. Qed.

Lemma L_small_order k : L k < 2 ^ 32 -> (k < 46)%nat.
Proof.
  intros Hk. destruct (decide (k < 46)%nat) as [|Hge]; [done|].
  pose proof (L_mono 46 k ltac:(lia)) as Hm. rewrite L_46 in Hm. lia.
Qed.

Lemma L_lt_size k : (k < 46)%nat -> L k < 2 ^ 32.
Proof.
  intros Hk. pose proof (L_mono k 45 ltac:(lia)) as Hm.
  rewrite L_45 in Hm. lia.
Qed.

Lemma FirstChild_spec (k : nat) root :
  (k < 44)%nat ->
  FirstChild root (Z.of_nat (S (S k))) = Some (root - 1 - L k).
Proof.
  intros Hk. unfold FirstChild, SecondChild.
  rewrite to_size_t_small by lia.
  replace (Z.of_nat (S (S k)) - 2) with (Z.of_nat k) by lia.
  rewrite leonardo_at_L by lia. done.
Qed.

(** ** Single-tree rebalance *)

Section Rebalance.
Context {A : Type} (comp : A -> A -> bool).
Implicit Types (a : list A).

Lemma rebalance_loop_leaf fuel a root size :
  size <= 1 -> rebalance_loop comp fuel a root size = Some a.
Proof. intros. destruct fuel; simpl; by rewrite decide_False by lia. Qed.

(** One iteration of the bubble-down loop, as the source writes it. *)
Lemma rebalance_loop_step fuel a root size first vf vs vr vl :
  size > 1 ->
  FirstChild root size = Some first ->
  deref a first = Some vf -> deref a (SecondChild root) = Some vs ->
  let largerChild := if comp vf vs then SecondChild root else first in
  let childSize :=
    if comp vf vs then to_size_t (size - 2) else to_size_t (size - 1) in
  deref a root = Some vr -> deref a largerChild = Some vl ->
  rebalance_loop comp (S fuel) a root size =
    if comp vr vl then
      a' ← iter_swap a root largerChild;
      rebalance_loop comp fuel a' largerChild childSize
    else Some a.
Proof.
  intros Hs Hf Hvf Hvs lc cs Hvr Hvl. subst lc cs. simpl.
  rewrite decide_True by done. rewrite Hf. simpl. rewrite Hvf, Hvs. simpl.
  destruct (comp vf vs); simpl; rewrite Hvr; simpl; rewrite Hvl; simpl;
    by destruct (comp vr vl).
Qed.

Lemma semi_heap_ext_below a a' k root :
  (forall i, root - L k < i < root -> deref a' i = deref a i) ->
  is_Some (deref a' root) ->
  semi_heap comp a k root -> semi_heap comp a' k root.
Proof.
  intros He Hr Hh. destruct k as [|[|k]]; [done..|].
  rewrite L_SS in He. pose proof (L_pos k). pose proof (L_pos (S k)).
  destruct Hh as (H1 & H2 & H3).
  split_and!; [| |done].
  - eapply is_heap_ext; [|done]. intros i Hi. apply He. lia.
  - eapply is_heap_ext; [|done]. intros i Hi. apply He. lia.
Qed.

(** The child the root was swapped into has intact subtrees. *)
Lemma bubble_step_pre a a1 root lc kc :
  iter_swap a root lc = Some a1 -> lc < root ->
  is_heap comp a kc lc -> semi_heap comp a1 kc lc.
Proof.
  intros Hs Hlt Hh.
  eapply semi_heap_ext_below; [| |by apply is_heap_semi].
  - intros i Hi. apply (deref_iter_swap_ne _ _ _ _ _ Hs); lia.
  - rewrite (deref_iter_swap_r _ _ _ _ Hs).
    destruct (iter_swap_range _ _ _ _ Hs) as [Hr _].
    by apply deref_is_Some.
Qed.

(** After the subtree below the swap is repaired, the parent is in
    order with both children. *)
Lemma bubble_step_post `{!WeakOrder comp}
    a a1 a' root lc kc oc ko vr vl vo :
  iter_swap a root lc = Some a1 ->
  swaps_within (lc - L kc + 1) (lc + 1) a1 a' ->
  lc < root -> oc < root ->
  oc < lc - L kc + 1 \/ lc < oc - L ko + 1 ->
  is_heap comp a kc lc -> is_heap comp a ko oc ->
  deref a root = Some vr -> deref a lc = Some vl -> deref a oc = Some vo ->
  comp vr vl = true -> ge comp vl vo ->
  is_heap comp a' ko oc /\ ge_at comp a' root lc /\ ge_at comp a' root oc.
Proof.
  intros Hs Hsw Hlc Hoc Hdisj Hhl Hho Hvr Hvl Hvo Hrl Hlo.
  pose proof (L_pos kc). pose proof (L_pos ko).
  assert (Hroot' : deref a' root = Some vl).
  { rewrite (swaps_within_outside _ _ _ _ _ Hsw) by lia.
    by rewrite (deref_iter_swap_l _ _ _ _ Hs). }
  assert (Hoc' : forall i, oc - L ko < i <= oc -> deref a' i = deref a i).
  { intros i Hi. rewrite (swaps_within_outside _ _ _ _ _ Hsw) by lia.
    apply (deref_iter_swap_ne _ _ _ _ _ Hs); lia. }
  split_and!.
  - eapply is_heap_ext; [exact Hoc'|done].
  - assert (is_Some (deref a' lc)) as [x Hx].
    { apply deref_is_Some.
      rewrite (swaps_within_length _ _ _ _ Hsw).
      rewrite (iter_swap_length _ _ _ _ Hs).
      by eapply deref_Some_range. }
    eapply ge_at_intro; [done..|].
    eapply (swaps_within_Forall (fun x => ge comp vl x) _ _ _ _ Hsw);
      [|split; [|apply Z.lt_succ_diag_r]|exact Hx]; [|lia].
    intros i y Hi Hy.
    destruct (decide (i = lc)) as [->|Hne].
    + rewrite (deref_iter_swap_r _ _ _ _ Hs), Hvr in Hy.
      simplify_eq. by apply lt_ge.
    + rewrite (deref_iter_swap_ne _ _ _ _ _ Hs) in Hy by lia.
      eapply ge_at_Some; [exact Hvl|exact Hy|].
      apply (heap_root_max comp a kc); [done|lia].
  - eapply ge_at_intro; [exact Hroot'| |exact Hlo].
    rewrite Hoc'; [done|lia].
Qed.

Lemma rebalance_loop_spec k : forall fuel a root,
  (k <= fuel)%nat -> (k < 46)%nat ->
  L k <= root + 1 -> root < Z.of_nat (length a) ->
  exists a',
    rebalance_loop comp fuel a root (Z.of_nat k) = Some a' /\
    swaps_within (root - L k + 1) (root + 1) a a' /\
    (WeakOrder comp -> semi_heap comp a k root -> is_heap comp a' k root).
Proof.
  induction k as [| |k IH1 IH2] using nat_ind2; intros fuel a root Hf Hk Hlo Hhi.
  - exists a. rewrite rebalance_loop_leaf by lia.
    split_and!; [done|constructor|done].
  - exists a. rewrite rebalance_loop_leaf by lia.
    split_and!; [done|constructor|done].
  - destruct fuel as [|fuel]; [lia|].
    rewrite L_SS in Hlo |- *.
    pose proof (L_pos k) as HLk. pose proof (L_pos (S k)) as HLSk.
    set (first := root - 1 - L k).
    assert (is_Some (deref a first)) as [vf Hvf]
      by (apply deref_is_Some; subst first; lia).
    assert (is_Some (deref a (SecondChild root))) as [vs Hvs]
      by (apply deref_is_Some; unfold SecondChild; lia).
    assert (is_Some (deref a root)) as [vr Hvr] by (apply deref_is_Some; lia).
    set (lc := if comp vf vs then SecondChild root else first).
    assert (is_Some (deref a lc)) as [vl Hvl]
      by (subst lc; destruct (comp vf vs); eauto).
    rewrite (rebalance_loop_step fuel a root _ first vf vs vr vl);
      [|lia|by apply FirstChild_spec; lia|done..].
    fold lc.
    destruct (comp vr vl) eqn:Hrl.
    + (* swap down and continue in the larger child *)
      assert (is_Some (iter_swap a root lc)) as [a1 Ha1]
        by (apply iter_swap_is_Some; eauto).
      rewrite Ha1. simpl.
      pose proof (iter_swap_length _ _ _ _ Ha1) as Hlen.
      destruct (comp vf vs) eqn:Hfs.
      * (* second child, order k *)
        subst lc. unfold SecondChild in *.
        replace (to_size_t (Z.of_nat (S (S k)) - 2)) with (Z.of_nat k)
          by (rewrite to_size_t_small; lia).
        destruct (IH1 fuel a1 (root - 1)) as (a' & Hr & Hsw & Hheap);
          [lia..|].
        exists a'. split; [done|]. split.
        { eapply sw_step; [| |exact Ha1|]; [lia..|].
          eapply swaps_within_mono; [| |exact Hsw]; lia. }
        intros HW (Hh1 & Hh2 & _).
        destruct (bubble_step_post a a1 a' root (root - 1) k first (S k)
                    vr vl vf) as (Ho & Hg1 & Hg2);
          [done|done|lia|subst first; lia|subst first; lia|done|done|done
          |done|done|done| |].
        { simplify_eq. by apply lt_ge. }
        simpl. split_and!; [done| |done..].
        apply Hheap; [done|]. by eapply bubble_step_pre; [done|lia|].
      * (* first child, order k + 1 *)
        subst lc.
        replace (to_size_t (Z.of_nat (S (S k)) - 1)) with (Z.of_nat (S k))
          by (rewrite to_size_t_small; lia).
        destruct (IH2 fuel a1 first) as (a' & Hr & Hsw & Hheap);
          [subst first; lia..|].
        exists a'. split; [done|]. split.
        { eapply sw_step; [| |exact Ha1|]; [subst first; lia..|].
          eapply swaps_within_mono; [| |exact Hsw]; subst first; lia. }
        intros HW (Hh1 & Hh2 & _).
        destruct (bubble_step_post a a1 a' root first (S k) (root - 1) k
                    vr vl vs) as (Ho & Hg1 & Hg2);
          [done|done|subst first; lia|lia|subst first; lia|done|done|done
          |done|done|done| |].
        { by simplify_eq. }
        simpl. split_and!; [|done..].
        apply Hheap; [done|]. by eapply bubble_step_pre; [done|subst first; lia|].
    + (* the root already dominates the larger child *)
      exists a. split_and!; [done|constructor|].
      intros HW (Hh1 & Hh2 & _). simpl. split_and!; [done..| |].
      * eapply ge_at_intro; [done..|].
        subst lc. destruct (comp vf vs) eqn:Hfs.
        -- unfold SecondChild in *. simplify_eq.
           eapply ge_trans; [done|exact Hrl|by apply lt_ge].
        -- by simplify_eq.
      * eapply ge_at_intro; [done..|].
        subst lc. destruct (comp vf vs) eqn:Hfs.
        -- by simplify_eq.
        -- simplify_eq. eapply ge_trans; [done|exact Hrl|exact Hfs].
Qed.

Lemma RebalanceSingleHeap_spec (k : nat) a root :
  (k < 46)%nat -> L k <= root + 1 -> root < Z.of_nat (length a) ->
  exists a',
    RebalanceSingleHeap comp a root (Z.of_nat k) = Some a' /\
    swaps_within (root - L k + 1) (root + 1) a a' /\
    (WeakOrder comp -> semi_heap comp a k root -> is_heap comp a' k root).
Proof.
  intros. unfold RebalanceSingleHeap. apply rebalance_loop_spec; lia.
Qed.

End Rebalance.

(** ** The bitset encoding of forests *)

Lemma shape_rep_bits shape os : shape_rep shape os -> bits_rep shape os.
Proof. by intros [? _]. Qed.

Lemma shape_rep_smallest shape k os :
  shape_rep shape (k :: os) -> smallestTreeSize shape = Z.of_nat k.
Proof. by intros [_ ?]. Qed.

Lemma increasing_tail k os : increasing (k :: os) -> increasing os.
Proof. destruct os; simpl; tauto. Qed.

Lemma increasing_lt k os x : increasing (k :: os) -> x ∈ os -> (k < x)%nat.
Proof.
  revert k. induction os as [|k' os IH]; intros k Hi Hx.
  - by apply elem_of_nil in Hx.
  - destruct Hi as [Hlt Hi]. apply elem_of_cons in Hx as [->|Hx]; [done|].
    specialize (IH _ Hi Hx). lia.
Qed.

Lemma increasing_le k os x : increasing (k :: os) -> x ∈ k :: os -> (k <= x)%nat.
Proof.
  intros Hi [->|Hx]%elem_of_cons; [done|].
  pose proof (increasing_lt _ _ _ Hi Hx). lia.
Qed.

Lemma gapped_increasing os : gapped os -> increasing os.
Proof.
  induction os as [|k [|k' os] IH]; [done..|].
  intros [? ?]. split; [lia|]. by apply IH.
Qed.

Lemma shape_ok_increasing os : shape_ok os -> increasing os.
Proof.
  destruct os as [|k [|k' os]]; [done..|].
  intros (? & _ & ?). split; [done|]. by apply (gapped_increasing (k' :: os)).
Qed.

Lemma gapped_tail k os : gapped (k :: os) -> gapped os.
Proof. destruct os; simpl; tauto. Qed.

Lemma testbit_bs_shl b n i :
  0 <= n < 46 -> 0 <= i ->
  Z.testbit (bs_shl b n) i = (i <? 46) && Z.testbit b (i - n).
Proof.
  intros Hn Hi. unfold bs_shl, kNumLeonardoNumbers.
  rewrite decide_False by lia.
  destruct (Z.ltb_spec i 46); simpl.
  - rewrite Z.mod_pow2_bits_low by lia. by rewrite Z.shiftl_spec.
  - by rewrite Z.mod_pow2_bits_high by lia.
Qed.

Lemma bits_rep_bit0 shape k os :
  shape_rep shape (k :: os) -> Z.testbit (trees shape) 0 = true.
Proof.
  intros [Hb Hs]. apply Hb; [done|]. exists k. split; [left|lia].
Qed.

Lemma bits_rep_nil shape : bits_rep shape [] -> trees shape = 0.
Proof.
  intros Hb. apply Z.bits_inj'. intros i Hi. rewrite Z.bits_0.
  destruct (Z.testbit (trees shape) i) eqn:E; [|done].
  apply Hb in E as (k & Hk & _); [|done]. by apply elem_of_nil in Hk.
Qed.

Lemma shape_rep_nil_bit0 shape :
  shape_rep shape [] -> Z.testbit (trees shape) 0 = false.
Proof. intros [Hb _]. by rewrite (bits_rep_nil _ Hb). Qed.

Lemma shape_rep_empty : shape_rep empty_shape [].
Proof.
  split; [|done]. intros i Hi. simpl. rewrite Z.bits_0. split; [done|].
  intros (k & Hk & _). by apply elem_of_nil in Hk.
Qed.

(** Bit 1 tells whether the two smallest trees have consecutive orders. *)
Lemma shape_rep_bit1 shape k os :
  shape_rep shape (k :: os) -> increasing (k :: os) ->
  Z.testbit (trees shape) 1 = true <-> exists os', os = S k :: os'.
Proof.
  intros [Hb Hs] Hi. rewrite (Hb 1) by lia. rewrite Hs. split.
  - intros (k' & [->|Hk']%elem_of_cons & Heq); [lia|].
    destruct os as [|k1 os']; [by apply elem_of_nil in Hk'|].
    exists os'. f_equal.
    pose proof (increasing_le k1 os' k' (increasing_tail _ _ Hi) Hk').
    destruct Hi as [? _]. lia.
  - intros [os' ->]. exists (S k). split; [right; left|lia].
Qed.

(** Shifting the offset up by one keeps the encoding. *)
Lemma bits_rep_shift shape os :
  0 <= smallestTreeSize shape < 2 ^ 32 - 1 ->
  bits_rep shape os -> bits_rep (shape_shift shape) os.
Proof.
  intros Hs Hb i Hi. unfold shape_shift, bs_shr. simpl.
  rewrite to_size_t_small by lia.
  rewrite Z.shiftr_spec by done. rewrite (Hb (i + 1)) by lia.
  split; intros (k & ? & ?); exists k; split; try done; lia.
Qed.

Lemma smallest_shape_shift shape :
  0 <= smallestTreeSize shape < 2 ^ 32 - 1 ->
  smallestTreeSize (shape_shift shape) = smallestTreeSize shape + 1.
Proof. intros. simpl. by rewrite to_size_t_small by lia. Qed.

(** Orders below the offset do not matter. *)
Lemma bits_rep_drop shape k os :
  Z.of_nat k < smallestTreeSize shape ->
  bits_rep shape (k :: os) -> bits_rep shape os.
Proof.
  intros Hk Hb i Hi. rewrite (Hb i Hi). split.
  - intros (k' & [->|?]%elem_of_cons & ?); [lia|]. by exists k'.
  - intros (k' & ? & ?). exists k'. split; [by right|done].
Qed.

(** The scan of [LeonardoHeapRectify] stops at the next tree. *)
Lemma next_tree_spec fuel : forall shape os (s k1 : nat),
  bits_rep shape os -> smallestTreeSize shape = Z.of_nat s ->
  (s < k1)%nat -> (k1 < 46)%nat -> k1 ∈ os ->
  (forall k, k ∈ os -> (s < k)%nat -> (k1 <= k)%nat) ->
  (k1 - s <= fuel)%nat ->
  exists shape',
    next_tree fuel shape = Some shape' /\
    bits_rep shape' os /\ smallestTreeSize shape' = Z.of_nat k1.
Proof.
  induction fuel as [|fuel IH]; intros shape os s k1 Hb Hs Hlt Hk1 Hin Hmin Hf;
    [lia|].
  cbn [next_tree].
  assert (Hb1 : bits_rep (shape_shift shape) os)
    by (apply bits_rep_shift; [lia|done]).
  assert (Hs1 : smallestTreeSize (shape_shift shape) = Z.of_nat (S s))
    by (rewrite smallest_shape_shift; lia).
  unfold bs_test.
  destruct (Z.testbit (trees (shape_shift shape)) 0) eqn:E; cbn [negb].
  - apply Hb1 in E as (k & Hk & Hks); [|done].
    exists (shape_shift shape). split_and!; [done..|].
    rewrite Hs1. f_equal.
    pose proof (Hmin k Hk). lia.
  - assert (S s <> k1).
    { intros <-. assert (Z.testbit (trees (shape_shift shape)) 0 = true);
        [|congruence].
      apply Hb1; [done|]. exists (S s). split; [done|lia]. }
    apply (IH _ os (S s) k1); try done; try lia.
    intros k Hk ?. apply Hmin; [done|lia].
Qed.

Lemma next_tree_shape_rep shape k0 k1 os :
  shape_rep shape (k0 :: k1 :: os) -> increasing (k0 :: k1 :: os) ->
  orders_ok (k0 :: k1 :: os) ->
  exists shape',
    next_tree (Z.to_nat kNumLeonardoNumbers) shape = Some shape' /\
    shape_rep shape' (k1 :: os).
Proof.
  intros [Hb Hs] Hi Hok.
  assert (k1 < 46)%nat.
  { apply Forall_cons in Hok as [_ Hok]. by apply Forall_cons in Hok as [? _]. }
  destruct Hi as [Hlt Hi].
  destruct (next_tree_spec (Z.to_nat kNumLeonardoNumbers) shape
              (k0 :: k1 :: os) k0 k1) as (shape' & Hn & Hb' & Hs');
    try done.
  - right; left.
  - intros k [->|Hk]%elem_of_cons ?; [lia|]. by apply (increasing_le k1 os).
  - unfold kNumLeonardoNumbers. lia.
  - exists shape'. split; [done|]. split; [|done].
    apply (bits_rep_drop _ k0); [lia|done].
Qed.

Lemma orders_ok_head k os : orders_ok (k :: os) -> (k < 46)%nat.
Proof. by intros [? _]%Forall_cons. Qed.

Lemma orders_ok_tail k os : orders_ok (k :: os) -> orders_ok os.
Proof. by intros [_ ?]%Forall_cons. Qed.

Lemma orders_ok_elem os k : orders_ok os -> k ∈ os -> (k < 46)%nat.
Proof. intros Hok Hk. by apply (proj1 (Forall_forall _ _) Hok). Qed.

Lemma testbit_bs_set_true b n m :
  0 <= n -> Z.testbit (bs_set b n true) m = (n =? m) || Z.testbit b m.
Proof. intros. by apply Z.setbit_eqb. Qed.

Lemma testbit_bs_set_false b n m :
  Z.testbit (bs_set b n false) m = Z.testbit b m && negb (n =? m).
Proof. apply Z.clearbit_eqb. Qed.

(** *** Insert: the four cases of the shape update *)

Lemma forest_size_add_orders os :
  forest_size (add_orders os) = forest_size os + 1.
Proof.
  destruct os as [|k [|k' os]]; simpl.
  - rewrite L_1. lia.
  - case_decide; simpl; rewrite ?L_0, ?L_1; lia.
  - repeat case_decide; subst; simpl; rewrite ?L_SS, ?L_0, ?L_1; lia.
Qed.

Lemma shape_ok_add_orders os : shape_ok os -> shape_ok (add_orders os).
Proof.
  destruct os as [|k [|k' os]].
  - simpl. lia.
  - simpl. intros Hk. case_decide; simpl; lia.
  - intros (Hlt & H0 & Hg). unfold add_orders.
    destruct (decide (k' = S k)) as [->|Hne].
    + destruct os as [|k2 os]; [simpl; lia|].
      destruct Hg as [? Hg]. split_and!; [lia|lia|done].
    + destruct (decide (k = 1%nat)) as [->|Hk1].
      * split_and!; [lia|done|]. split; [lia|done].
      * split_and!; [lia|lia|]. split; [lia|done].
Qed.

Lemma shape_add_rep shape os :
  shape_rep shape os -> shape_ok os -> orders_ok os ->
  orders_ok (add_orders os) ->
  shape_rep (shape_add shape) (add_orders os).
Proof.
  intros Hrep Hok Hord Hord'. pose proof (shape_ok_increasing _ Hok) as Hinc.
  unfold shape_add, bs_test.
  destruct os as [|k os].
  { (* empty forest: a tree of order 1 *)
    rewrite (shape_rep_nil_bit0 _ Hrep). cbn [negb].
    destruct Hrep as [Hb _]. rewrite (bits_rep_nil _ Hb).
    split; [|done]. intros i Hi. cbn [trees smallestTreeSize add_orders].
    rewrite testbit_bs_set_true, Z.bits_0, orb_false_r by lia.
    rewrite Z.eqb_eq. split.
    - intros <-. exists 1%nat. split; [left|done].
    - intros (k & ->%list_elem_of_singleton & ?). lia. }
  rewrite (bits_rep_bit0 _ _ _ Hrep). cbn [negb andb].
  pose proof (shape_rep_bit1 _ _ _ Hrep Hinc) as Hbit1.
  pose proof (orders_ok_head _ _ Hord) as Hk.
  destruct Hrep as [Hb Hs]. rewrite Hs.
  destruct (Z.testbit (trees shape) 1) eqn:E1; cbn [andb].
  { (* consecutive orders: merge *)
    destruct (proj1 Hbit1 eq_refl) as [os' ->].
    cbn [add_orders]. rewrite decide_True by done.
    rewrite to_size_t_small by lia.
    split; [|simpl; lia]. intros i Hi. cbn [trees smallestTreeSize].
    unfold bs_shr. rewrite testbit_bs_set_true by lia.
    rewrite Z.shiftr_spec by done.
    destruct (Z.eqb_spec 0 i) as [<-|Hi0]; cbn [orb andb negb].
    - split; [|done]. intros _. exists (S (S k)). split; [left|lia].
    - rewrite (Hb (i + 2)) by lia. rewrite Hs. split.
      + intros (k' & Hk' & ?). exists k'. split; [|lia].
        apply elem_of_cons in Hk' as [->|Hk']; [lia|].
        apply elem_of_cons in Hk' as [->|Hk']; [lia|]. by right.
      + intros (k' & [->|Hk']%elem_of_cons & ?); [lia|].
        exists k'. split; [|lia]. by do 2 right. }
  assert (Hnc : forall os', os <> S k :: os').
  { intros os' ->. assert (false = true); [|done]. apply Hbit1. by eexists. }
  assert (Hadd : add_orders (k :: os) =
                 if decide (k = 1%nat) then O :: k :: os else 1%nat :: k :: os).
  { unfold add_orders. destruct os as [|k' os']; [done|].
    rewrite decide_False; [done|]. intros ->. by eapply Hnc. }
  rewrite Hadd in Hord' |- *. clear Hadd.
  destruct (decide (k = 1%nat)) as [->|Hk1].
  { (* smallest tree has order 1: a new tree of order 0 *)
    rewrite decide_True by done.
    split; [|done]. intros i Hi. cbn [trees smallestTreeSize].
    rewrite testbit_bs_set_true by lia.
    rewrite testbit_bs_shl by lia.
    destruct (Z.eqb_spec 0 i) as [<-|Hi0]; cbn [orb andb negb].
    - split; [|done]. intros _. exists O. split; [left|lia].
    - destruct (Z.ltb_spec i 46); cbn [orb andb negb].
      + rewrite (Hb (i - 1)) by lia. rewrite Hs. split.
        * intros (k' & Hk' & ?). exists k'. split; [by right|lia].
        * intros (k' & [->|Hk']%elem_of_cons & ?); [lia|].
          exists k'. split; [done|lia].
      + split; [done|].
        intros (k' & [->|Hk']%elem_of_cons & ?); [lia|].
        pose proof (orders_ok_elem _ _ Hord Hk'). lia. }
  (* otherwise: a new tree of order 1 *)
  assert (2 <= k)%nat.
  { destruct k as [|[|k]]; [|done|lia].
    destruct os as [|k' os]; [done|]. destruct Hok as (? & H0 & _).
    specialize (H0 eq_refl) as ->. by edestruct Hnc. }
  rewrite decide_False by lia.
  rewrite to_size_t_small by lia.
  split; [|done]. intros i Hi. cbn [trees smallestTreeSize].
  rewrite testbit_bs_set_true by lia.
  rewrite testbit_bs_shl by lia.
  destruct (Z.eqb_spec 0 i) as [<-|Hi0]; cbn [orb andb negb].
  - split; [|done]. intros _. exists 1%nat. split; [left|lia].
  - destruct (Z.ltb_spec i 46); cbn [orb andb negb].
    + destruct (decide (0 <= i - (Z.of_nat k - 1))) as [Hnn|Hneg].
      * rewrite (Hb _ Hnn). rewrite Hs. split.
        -- intros (k' & Hk' & ?). exists k'. split; [by right|lia].
        -- intros (k' & [->|Hk']%elem_of_cons & ?); [lia|].
           exists k'. split; [done|lia].
      * rewrite Z.testbit_neg_r by lia. split; [done|].
        intros (k' & [->|Hk']%elem_of_cons & ?); [lia|].
        pose proof (increasing_le _ _ _ Hinc Hk'). lia.
    + split; [done|].
      intros (k' & [->|Hk']%elem_of_cons & ?); [lia|].
      pose proof (orders_ok_elem _ _ Hord Hk'). lia.
Qed.

(** *** Remove: dropping or splitting the last tree *)

Lemma forest_size_remove_orders os :
  os <> [] -> forest_size (remove_orders os) = forest_size os - 1.
Proof.
  destruct os as [|[|[|k]] os]; [done|simpl..]; intros _;
    rewrite ?L_SS, ?L_0, ?L_1; lia.
Qed.

Lemma shape_ok_tail k os : shape_ok (k :: os) -> shape_ok os.
Proof.
  destruct os as [|k1 [|k2 os]]; [done| |].
  - intros (? & _ & _). simpl. lia.
  - intros (? & _ & [? Hg]). split_and!; [lia|lia|done].
Qed.

Lemma shape_ok_remove_orders os : shape_ok os -> shape_ok (remove_orders os).
Proof.
  destruct os as [|[|[|k]] os]; [done|apply shape_ok_tail..|].
  intros Hok. cbn [remove_orders].
  split_and!; [lia|lia|].
  destruct os as [|k1 os]; [done|].
  destruct Hok as (? & _ & ?). split; [lia|done].
Qed.

Lemma shape_split_rep shape k os :
  shape_rep shape (S (S k) :: os) -> increasing (S (S k) :: os) ->
  orders_ok (S (S k) :: os) ->
  shape_rep (shape_split shape) (k :: S k :: os).
Proof.
  intros [Hb Hs] Hinc Hord. pose proof (orders_ok_head _ _ Hord).
  unfold shape_split. rewrite Hs. rewrite to_size_t_small by lia.
  split; [|simpl; lia]. intros i Hi. cbn [trees smallestTreeSize].
  rewrite !testbit_bs_set_true by lia.
  rewrite testbit_bs_shl by lia. rewrite testbit_bs_set_false.
  destruct (Z.eqb_spec 1 i) as [<-|Hi1]; cbn [orb andb negb].
  { split; [|done]. intros _. exists (S k). split; [right; left|lia]. }
  destruct (Z.eqb_spec 0 i) as [<-|Hi0]; cbn [orb andb negb].
  { split; [|done]. intros _. exists k. split; [left|lia]. }
  destruct (Z.ltb_spec i 46); cbn [orb andb negb].
  - destruct (Z.eqb_spec 0 (i - 2)) as [Hi2|Hi2]; cbn [orb andb negb].
    + rewrite andb_false_r. split; [done|].
      intros (k' & Hk' & ?).
      apply elem_of_cons in Hk' as [->|Hk']; [lia|].
      apply elem_of_cons in Hk' as [->|Hk']; [lia|].
      pose proof (increasing_lt _ _ _ Hinc Hk'). lia.
    + rewrite andb_true_r. rewrite (Hb (i - 2)) by lia. rewrite Hs. split.
      * intros (k' & [->|Hk']%elem_of_cons & ?); [lia|].
        exists k'. split; [by do 2 right|lia].
      * intros (k' & Hk' & ?).
        apply elem_of_cons in Hk' as [->|Hk']; [lia|].
        apply elem_of_cons in Hk' as [->|Hk']; [lia|].
        exists k'. split; [by right|lia].
  - split; [done|].
    intros (k' & Hk' & ?).
    apply elem_of_cons in Hk' as [->|Hk']; [lia|].
    apply elem_of_cons in Hk' as [->|Hk']; [lia|].
    pose proof (orders_ok_elem _ k' Hord ltac:(by right)). lia.
Qed.

Lemma shape_shift_rep shape k os :
  shape_rep shape (k :: S k :: os) -> (k < 45)%nat ->
  shape_rep (shape_shift shape) (S k :: os).
Proof.
  intros [Hb Hs] Hk. split.
  - apply (bits_rep_drop _ k).
    + rewrite smallest_shape_shift; lia.
    + apply bits_rep_shift; [lia|done].
  - rewrite smallest_shape_shift; lia.
Qed.

(** The scan of [LeonardoHeapRemove] stops at the next tree, or with an
    empty bitset when there is none. *)
Lemma remove_scan_spec fuel : forall shape os (s : nat),
  bits_rep shape os -> smallestTreeSize shape = Z.of_nat s ->
  orders_ok os -> (s < 46)%nat -> (46 - s <= fuel)%nat ->
  exists shape',
    remove_scan fuel shape = Some shape' /\ bits_rep shape' os /\
    exists s' : nat, smallestTreeSize shape' = Z.of_nat s' /\ (s < s')%nat /\
      (forall k, k ∈ os -> (s < k)%nat -> (s' <= k)%nat) /\
      ((exists k, k ∈ os /\ (s < k)%nat) -> s' ∈ os).
Proof.
  induction fuel as [|fuel IH]; intros shape os s Hb Hs Hord Hs46 Hf; [lia|].
  cbn [remove_scan].
  assert (Hb1 : bits_rep (shape_shift shape) os)
    by (apply bits_rep_shift; [lia|done]).
  assert (Hs1 : smallestTreeSize (shape_shift shape) = Z.of_nat (S s))
    by (rewrite smallest_shape_shift; lia).
  unfold bs_test, bs_any.
  destruct (Z.testbit (trees (shape_shift shape)) 0) eqn:E;
    cbn [negb andb]; rewrite ?andb_false_r, ?andb_true_r.
  { apply Hb1 in E as (k & Hk & Hks); [|done].
    exists (shape_shift shape). split_and!; [done..|].
    exists (S s). split_and!; [done|lia|intros; lia|].
    intros _. by replace (S s) with k by lia. }
  assert (Hne : forall k, k ∈ os -> (s < k)%nat -> (S s < k)%nat).
  { intros k Hk Hlt. destruct (decide (k = S s)) as [->|]; [|lia].
    assert (Z.testbit (trees (shape_shift shape)) 0 = true); [|congruence].
    apply Hb1; [done|]. exists (S s). split; [done|lia]. }
  destruct (Z.eqb_spec (trees (shape_shift shape)) 0) as [E0|E0]; cbn [negb].
  { exists (shape_shift shape). split_and!; [done..|].
    exists (S s). split_and!; [done|lia|intros; lia|].
    intros (k & Hk & Hlt). exfalso.
    assert (Z.testbit (trees (shape_shift shape)) (Z.of_nat k - Z.of_nat (S s))
            = true) as Hbit.
    { pose proof (Hne k Hk Hlt). apply Hb1; [lia|]. exists k. split; [done|lia]. }
    by rewrite E0, Z.bits_0 in Hbit. }
  assert (S s < 46)%nat.
  { destruct (decide (S s < 46)%nat); [done|]. exfalso. apply E0.
    apply Z.bits_inj'. intros i Hi. rewrite Z.bits_0.
    destruct (Z.testbit (trees (shape_shift shape)) i) eqn:Ei; [|done].
    apply Hb1 in Ei as (k & Hk & ?); [|done].
    pose proof (orders_ok_elem _ _ Hord Hk). lia. }
  destruct (IH (shape_shift shape) os (S s))
    as (shape' & Hr & Hb' & s' & Hs' & Hlt & Hmin & Hin);
    [done|done|done|done|lia|].
  exists shape'. split_and!; [done..|].
  exists s'. split_and!; [done|lia| |].
  - intros k Hk ?. apply Hmin; [done|]. by apply Hne.
  - intros (k & Hk & ?). apply Hin. exists k. split; [done|]. by apply Hne.
Qed.

Lemma remove_scan_shape_rep shape k os :
  shape_rep shape (k :: os) -> increasing (k :: os) -> orders_ok (k :: os) ->
  exists shape',
    remove_scan (S (Z.to_nat kNumLeonardoNumbers)) shape = Some shape' /\
    shape_rep shape' os.
Proof.
  intros [Hb Hs] Hinc Hord. pose proof (orders_ok_head _ _ Hord).
  destruct (remove_scan_spec (S (Z.to_nat kNumLeonardoNumbers)) shape
              (k :: os) k)
    as (shape' & Hr & Hb' & s' & Hs' & Hlt & Hmin & Hin);
    [done|done|done|done|unfold kNumLeonardoNumbers; lia|].
  exists shape'. split; [done|]. split.
  - apply (bits_rep_drop _ k); [lia|done].
  - destruct os as [|k1 os]; [done|].
    rewrite Hs'. f_equal.
    pose proof (increasing_lt _ _ k1 Hinc ltac:(left)).
    assert (s' ∈ k :: k1 :: os) as Hs'in.
    { apply Hin. exists k1. split; [right; left|done]. }
    apply elem_of_cons in Hs'in as [->|Hs'in]; [lia|].
    pose proof (increasing_le _ _ _ (increasing_tail _ _ Hinc) Hs'in).
    pose proof (Hmin k1 ltac:(right; left) ltac:(done)). lia.
Qed.

(** ** Cross-tree rectify *)

Lemma forest_size_length os : Z.of_nat (length os) <= forest_size os.
Proof.
  induction os as [|k os IH]; simpl; [lia|]. pose proof (L_pos k). lia.
Qed.

Lemma forest_size_order os k : k ∈ os -> L k <= forest_size os.
Proof.
  induction os as [|k' os IH]; intros Hk; [by apply elem_of_nil in Hk|].
  simpl. pose proof (forest_size_nonneg os). pose proof (L_pos k').
  apply elem_of_cons in Hk as [->|Hk]; [lia|]. specialize (IH Hk). lia.
Qed.

(** Forests that fit a 32-bit size only use orders of the table. *)
Lemma forest_orders_ok os : forest_size os < 2 ^ 32 -> orders_ok os.
Proof.
  intros Hs. apply Forall_forall. intros k Hk.
  apply L_small_order. pose proof (forest_size_order _ _ Hk). lia.
Qed.

Section Rectify.
Context {A : Type} (comp : A -> A -> bool).
Implicit Types (a : list A) (os : list nat).

Lemma roots_sorted_tail a k os m :
  roots_sorted comp a (k :: os) m -> roots_sorted comp a os (m - L k).
Proof. destruct os; [done|]. by intros [_ ?]. Qed.

Lemma sorted_where_ext Q a a' os : forall m,
  (forall i, m - forest_size os <= i < m -> deref a' i = deref a i) ->
  sorted_where comp Q a os m -> sorted_where comp Q a' os m.
Proof.
  induction os as [|k os IH]; intros m He Hs; [done|].
  destruct Hs as [H1 H2]. simpl in He.
  pose proof (forest_size_nonneg os). pose proof (L_pos k).
  split.
  - intros HQ. eapply roots_sorted_ext; [|by apply H1]. done.
  - apply IH; [|done]. intros i Hi. apply He. lia.
Qed.

Lemma rectify_toCompare_spec a itr shape (k : nat) :
  smallestTreeSize shape = Z.of_nat k -> (k < 46)%nat ->
  L k <= itr + 1 -> itr < Z.of_nat (length a) ->
  exists tc vt,
    rectify_toCompare comp a itr shape = Some tc /\
    deref a tc = Some vt /\ itr - L k < tc <= itr /\
    (WeakOrder comp -> dominates comp a k itr vt).
Proof.
  intros Hs Hk Hlo Hhi. unfold rectify_toCompare. rewrite Hs.
  pose proof (L_pos k) as HLk.
  assert (is_Some (deref a itr)) as [vr Hvr] by (apply deref_is_Some; lia).
  destruct k as [|[|k]].
  - rewrite decide_False by lia. exists itr, vr.
    split_and!; [done|done|lia|lia|]. intros HW. split; [|done].
    intros ? ?. simplify_eq. apply ge_refl; done.
  - rewrite decide_False by lia. exists itr, vr.
    split_and!; [done|done|lia|lia|]. intros HW. split; [|done].
    intros ? ?. simplify_eq. apply ge_refl; done.
  - rewrite decide_True by lia. rewrite L_SS in *.
    pose proof (L_pos k). pose proof (L_pos (S k)).
    unfold LargerChild. rewrite FirstChild_spec by lia. cbn [mbind option_bind].
    unfold SecondChild.
    assert (is_Some (deref a (itr - 1 - L k))) as [vf Hvf]
      by (apply deref_is_Some; lia).
    assert (is_Some (deref a (itr - 1))) as [vs Hvs]
      by (apply deref_is_Some; lia).
    rewrite Hvf, Hvs. cbn [mbind option_bind]. rewrite Hvr.
    cbn [mbind option_bind].
    destruct (comp vf vs) eqn:Hfs.
    + rewrite Hvs. cbn [mbind option_bind].
      destruct (comp vr vs) eqn:Hrs.
      * exists (itr - 1), vs. split_and!; [done|done|lia|lia|].
        intros HW. split_and!; intros ? ?; simplify_eq.
        -- by apply lt_ge.
        -- by apply lt_ge.
        -- by apply ge_refl.
      * exists itr, vr. split_and!; [done|done|lia|lia|].
        intros HW. split_and!; intros ? ?; simplify_eq.
        -- by apply ge_refl.
        -- eapply ge_trans; [done|exact Hrs|by apply lt_ge].
        -- done.
    + rewrite Hvf. cbn [mbind option_bind].
      destruct (comp vr vf) eqn:Hrf.
      * exists (itr - 1 - L k), vf. split_and!; [done|done|lia|lia|].
        intros HW. split_and!; intros ? ?; simplify_eq.
        -- by apply lt_ge.
        -- by apply ge_refl.
        -- done.
      * exists itr, vr. split_and!; [done|done|lia|lia|].
        intros HW. split_and!; intros ? ?; simplify_eq.
        -- by apply ge_refl.
        -- done.
        -- eapply ge_trans; [done|exact Hrf|exact Hfs].
Qed.

(** One iteration of the leftward walk, as the source writes it. *)
Lemma rectify_loop_step fuel a begin itr shape l tc vt vp :
  leonardo_at (smallestTreeSize shape) = Some l ->
  to_size_t (itr - begin) <> to_size_t (l - 1) ->
  rectify_toCompare comp a itr shape = Some tc ->
  deref a tc = Some vt -> deref a (itr - l) = Some vp ->
  rectify_loop comp (S fuel) a begin itr shape =
    if comp vt vp then
      a' ← iter_swap a itr (itr - l);
      shape' ← next_tree (Z.to_nat kNumLeonardoNumbers) shape;
      rectify_loop comp fuel a' begin (itr - l) shape'
    else RebalanceSingleHeap comp a itr (smallestTreeSize shape).
Proof.
  intros Hl Hne Htc Hvt Hvp. cbn [rectify_loop]. rewrite Hl.
  cbn [mbind option_bind]. rewrite decide_False by done.
  rewrite Htc. cbn [mbind option_bind]. rewrite Hvt. cbn [mbind option_bind].
  rewrite Hvp. cbn [mbind option_bind]. by destruct (comp vt vp).
Qed.

Lemma rectify_loop_leftmost fuel a begin itr shape l :
  leonardo_at (smallestTreeSize shape) = Some l ->
  to_size_t (itr - begin) = to_size_t (l - 1) ->
  rectify_loop comp (S fuel) a begin itr shape =
    RebalanceSingleHeap comp a itr (smallestTreeSize shape).
Proof.
  intros Hl He. cbn [rectify_loop]. rewrite Hl.
  cbn [mbind option_bind]. by rewrite decide_True by done.
Qed.

End Rectify.

Section RectifySpec.
Context {A : Type} (comp : A -> A -> bool).
Implicit Types (a : list A) (os : list nat).

(** The tree the walk leaves behind, with the previous root on top. *)
Lemma rectify_left_behind `{!WeakOrder comp} a a1 k itr prior vt vp :
  iter_swap a itr prior = Some a1 ->
  prior <= itr - L k ->
  semi_heap comp a k itr ->
  dominates comp a k itr vt ->
  deref a prior = Some vp -> comp vt vp = true ->
  is_heap comp a1 k itr.
Proof.
  intros Hs Hp Hsemi [Hd1 Hd2] Hvp Hlt.
  pose proof (L_pos k) as HLk.
  assert (Hitr : deref a1 itr = Some vp)
    by (by rewrite (deref_iter_swap_l _ _ _ _ Hs)).
  assert (Ho : forall i, itr - L k < i < itr -> deref a1 i = deref a i).
  { intros i Hi. apply (deref_iter_swap_ne _ _ _ _ _ Hs); lia. }
  destruct k as [|[|k]]; [by rewrite <- Hitr in *; eexists..|].
  rewrite L_SS in *. pose proof (L_pos k). pose proof (L_pos (S k)).
  destruct Hsemi as (H1 & H2 & _). destruct Hd2 as [Hdf Hds].
  destruct (is_heap_root _ _ _ _ H1) as [vf Hvf].
  destruct (is_heap_root _ _ _ _ H2) as [vs Hvs].
  split_and!.
  - eapply is_heap_ext; [|exact H1]. intros i Hi. apply Ho. lia.
  - eapply is_heap_ext; [|exact H2]. intros i Hi. apply Ho. lia.
  - eapply ge_at_intro; [exact Hitr|by rewrite Ho by lia|].
    eapply ge_trans; [done|by apply lt_ge|by apply Hdf].
  - eapply ge_at_intro; [exact Hitr|by rewrite Ho by lia|].
    eapply ge_trans; [done|by apply lt_ge|by apply Hds].
Qed.

Lemma rectify_loop_spec os : forall fuel a k m shape,
  shape_rep shape (k :: os) -> increasing (k :: os) ->
  forest_size (k :: os) = m ->
  m <= Z.of_nat (length a) -> m < 2 ^ 32 ->
  (length (k :: os) <= fuel)%nat ->
  exists a',
    rectify_loop comp fuel a 0 (m - 1) shape = Some a' /\
    swaps_within 0 m a a' /\
    (WeakOrder comp ->
     semi_heap comp a k (m - 1) -> heaps comp a os (m - L k) ->
     heaps comp a' (k :: os) m /\
     (roots_sorted comp a os (m - L k) -> roots_sorted comp a' (k :: os) m) /\
     (forall Q, sorted_where comp Q a os (m - L k) ->
                sorted_where comp Q a' os (m - L k))).
Proof.
  induction os as [|k1 os IH]; intros fuel a k m shape Hrep Hinc Hsz Hlen Hm Hf.
  - (* the leftmost tree *)
    simpl in Hsz. destruct fuel as [|fuel]; [simpl in Hf; lia|].
    assert (Hk : (k < 46)%nat) by (apply L_small_order; lia).
    pose proof (shape_rep_smallest _ _ _ Hrep) as Hs.
    pose proof (L_pos k) as HLk.
    rewrite (rectify_loop_leftmost _ _ _ _ _ _ (L k));
      [|rewrite Hs; by apply leonardo_at_L|f_equal; lia].
    rewrite Hs.
    destruct (RebalanceSingleHeap_spec comp k a (m - 1))
      as (a' & Hr & Hsw & Hheap); [done|lia|lia|].
    exists a'. split; [done|]. split.
    { eapply swaps_within_mono; [| |exact Hsw]; lia. }
    intros HW Hsemi _. split_and!; [|done..]. split; [|done]. by apply Hheap.
  - (* a tree with a left neighbour *)
    change (forest_size (k :: k1 :: os))
      with (L k + forest_size (k1 :: os)) in Hsz.
    set (m' := m - L k) in *.
    assert (Hsz' : forest_size (k1 :: os) = m') by (subst m'; lia).
    assert (1 <= m').
    { rewrite <- Hsz'. simpl. pose proof (forest_size_nonneg os).
      pose proof (L_pos k1). lia. }
    pose proof (L_pos k) as HLk.
    destruct fuel as [|fuel]; [simpl in Hf; lia|].
    assert (Hord : orders_ok (k :: k1 :: os)).
    { apply forest_orders_ok.
      change (forest_size (k :: k1 :: os))
        with (L k + forest_size (k1 :: os)). lia. }
    pose proof (orders_ok_head _ _ Hord) as Hk.
    pose proof (shape_rep_smallest _ _ _ Hrep) as Hs.
    destruct (rectify_toCompare_spec comp a (m - 1) shape k)
      as (tc & vt & Htc & Hvt & Htcr & Hdom); [done|done|lia|lia|].
    assert (is_Some (deref a (m - 1 - L k))) as [vp Hvp]
      by (apply deref_is_Some; lia).
    rewrite (rectify_loop_step _ _ _ _ _ _ (L k) tc vt vp);
      [|rewrite Hs; by apply leonardo_at_L
       |rewrite !to_size_t_small by lia; lia|done..].
    destruct (comp vt vp) eqn:Hlt.
    + (* the previous root is greater: swap and walk on *)
      assert (is_Some (iter_swap a (m - 1) (m - 1 - L k))) as [a1 Ha1].
      { apply iter_swap_is_Some; [apply deref_is_Some; lia|by eexists]. }
      rewrite Ha1. cbn [mbind option_bind].
      destruct (next_tree_shape_rep _ _ _ _ Hrep Hinc Hord)
        as (shape' & Hnt & Hrep').
      rewrite Hnt. cbn [mbind option_bind].
      replace (m - 1 - L k) with (m' - 1) in * by (subst m'; lia).
      destruct (IH fuel a1 k1 m' shape') as (a' & Hr & Hsw & Hpost);
        [done|by eapply increasing_tail|done
        |rewrite (iter_swap_length _ _ _ _ Ha1); lia|lia|simpl in Hf |- *; lia|].
      exists a'. split; [done|]. split.
      { eapply sw_step; [| |exact Ha1|]; [lia..|].
        eapply swaps_within_mono; [| |exact Hsw]; lia. }
      intros HW Hsemi [Hh1 Hhs].
      assert (Ha1o : forall i, i < m' - 1 -> deref a1 i = deref a i).
      { intros i Hi. apply (deref_iter_swap_ne _ _ _ _ _ Ha1); lia. }
      assert (Ha'o : forall i, m' <= i -> deref a' i = deref a1 i).
      { intros i Hi. apply (swaps_within_outside _ _ _ _ _ Hsw). lia. }
      pose proof (L_pos k1) as HLk1.
      destruct Hpost as (Hheaps' & HA & HB); [done| | |].
      { eapply bubble_step_pre; [exact Ha1|lia|done]. }
      { eapply heaps_ext; [|exact Hhs]. intros i Hi. apply Ha1o. lia. }
      assert (Hleft : is_heap comp a1 k (m - 1)).
      { eapply rectify_left_behind; [exact Ha1|lia|done|by apply Hdom
                                     |done|done]. }
      assert (Htail : forall Q, sorted_where comp Q a os (m' - L k1) ->
                        sorted_where comp Q a1 os (m' - L k1)).
      { intros Q. apply sorted_where_ext.
        pose proof (forest_size_nonneg os). intros i Hi. apply Ha1o. lia. }
      split_and!.
      * split; [|done]. eapply is_heap_ext; [|exact Hleft].
        intros i Hi. apply Ha'o. lia.
      * intros Hsorted. split.
        -- (* the new root of the tree left behind is a maximum *)
           assert (Hvp' : deref a' (m - 1) = Some vp).
           { rewrite Ha'o by lia.
             by rewrite (deref_iter_swap_l _ _ _ _ Ha1). }
           assert (is_Some (deref a' (m' - 1))) as [y Hy].
           { apply deref_is_Some.
             rewrite (swaps_within_length _ _ _ _ Hsw).
             rewrite (iter_swap_length _ _ _ _ Ha1). lia. }
           replace (m - 1 - L k) with (m' - 1) by (subst m'; lia).
           eapply ge_at_intro; [done..|].
           assert (HP : forall i x, 0 <= i < m' -> deref a1 i = Some x ->
                     ge comp vp x).
           { intros i x Hi Hx.
             destruct (decide (i = m' - 1)) as [->|Hne].
             - rewrite (deref_iter_swap_r _ _ _ _ Ha1) in Hx.
               eapply ge_trans; [done|by apply lt_ge|].
               by apply (proj1 (Hdom HW)).
             - rewrite Ha1o in Hx by lia.
               eapply ge_at_Some; [exact Hvp|exact Hx|].
               apply (forest_max comp a (k1 :: os)); [by split|done|].
               rewrite Hsz'. lia. }
           apply (swaps_within_Forall _ _ _ _ _ Hsw HP (m' - 1) y); [lia|done].
        -- apply HA. eapply roots_sorted_ext;
             [|by eapply roots_sorted_tail].
           pose proof (forest_size_nonneg os). intros i Hi. apply Ha1o. lia.
      * intros Q [HQ1 HQ2]. split; [|by apply HB, Htail].
        intros HQ. apply HA. eapply roots_sorted_ext;
          [|by eapply roots_sorted_tail, HQ1].
        pose proof (forest_size_nonneg os). intros i Hi. apply Ha1o. lia.
    + (* the previous root is not greater: the walk stops here *)
      rewrite Hs.
      destruct (RebalanceSingleHeap_spec comp k a (m - 1))
        as (a' & Hr & Hsw & Hheap); [done|lia|lia|].
      exists a'. split; [done|]. split.
      { eapply swaps_within_mono; [| |exact Hsw]; lia. }
      intros HW Hsemi Hhs.
      assert (Ha'o : forall i, i < m' -> deref a' i = deref a i).
      { intros i Hi. apply (swaps_within_outside _ _ _ _ _ Hsw).
        subst m'. lia. }
      assert (Hh' : is_heap comp a' k (m - 1)) by (by apply Hheap).
      split_and!.
      * split; [done|]. eapply heaps_ext; [|exact Hhs].
        intros i Hi. apply Ha'o. lia.
      * intros Hsorted. split.
        -- destruct (swaps_within_stays _ _ _ _ tc vt Hsw) as (j & Hj & Hvj);
             [lia|done|].
           destruct (is_heap_root _ _ _ _ Hh') as [x Hx].
           eapply ge_at_intro; [exact Hx| |].
           { rewrite Ha'o; [done|subst m'; lia]. }
           eapply ge_trans; [done| |exact Hlt].
           eapply ge_at_Some; [exact Hx|exact Hvj|].
           apply (heap_root_max comp a' k); [done|lia].
        -- eapply roots_sorted_ext; [|exact Hsorted].
           intros i Hi. apply Ha'o. lia.
      * intros Q. apply sorted_where_ext. intros i Hi. apply Ha'o. lia.
Qed.

Lemma LeonardoHeapRectify_spec a k os m shape :
  shape_rep shape (k :: os) -> increasing (k :: os) ->
  forest_size (k :: os) = m ->
  m <= Z.of_nat (length a) -> m < 2 ^ 32 ->
  exists a',
    LeonardoHeapRectify comp a 0 m shape = Some a' /\
    swaps_within 0 m a a' /\
    (WeakOrder comp ->
     semi_heap comp a k (m - 1) -> heaps comp a os (m - L k) ->
     heaps comp a' (k :: os) m /\
     (roots_sorted comp a os (m - L k) -> roots_sorted comp a' (k :: os) m) /\
     (forall Q, sorted_where comp Q a os (m - L k) ->
                sorted_where comp Q a' os (m - L k))).
Proof.
  intros Hrep Hinc Hsz Hlen Hm. unfold LeonardoHeapRectify.
  apply rectify_loop_spec; try done.
  pose proof (forest_size_length (k :: os)). lia.
Qed.

End RectifySpec.

(** ** Insert *)

Lemma thr_pos k : 1 <= thr k.
Proof. destruct k; simpl; [lia|]. pose proof (L_pos k). lia. Qed.

Lemma settled_mono n k k1 os m :
  shape_ok (k :: k1 :: os) -> m <= n ->
  settled n k m -> (k1 = S k -> n = m) -> settled n k1 (m - L k).
Proof.
  unfold settled. intros (Hlt & H0 & Hg) Hmn Hs Hc.
  destruct k1 as [|j1]; [lia|]. cbn [thr].
  destruct (decide (S j1 = S k)) as [Heq|Hne].
  - specialize (Hc Heq). simplify_eq. lia.
  - destruct k as [|j]; [specialize (H0 eq_refl); lia|].
    cbn [thr] in Hs.
    pose proof (L_mono (S (S j)) j1 ltac:(lia)) as Hm.
    rewrite L_SS in Hm. lia.
Qed.

Lemma add_isLast_spec shape k os m n :
  shape_rep shape (k :: os) -> increasing (k :: os) -> orders_ok (k :: os) ->
  0 <= m -> m + 1 <= n -> n < 2 ^ 32 ->
  add_isLast m n shape = Some (needs_rectify (n - (m + 1)) (k :: os)).
Proof.
  intros Hrep Hinc Hord Hm0 Hmn Hn. pose proof (orders_ok_head _ _ Hord) as Hk.
  pose proof (shape_rep_bit1 _ _ _ Hrep Hinc) as Hbit1.
  unfold add_isLast. rewrite (shape_rep_smallest _ _ _ Hrep).
  destruct k as [|[|k]].
  - rewrite decide_True by done. cbn [needs_rectify]. f_equal.
    apply bool_decide_ext. lia.
  - rewrite decide_False, decide_True by done. cbn [needs_rectify].
    f_equal. f_equal; [apply bool_decide_ext; lia|].
    f_equal; [apply bool_decide_ext; lia|]. f_equal. unfold bs_test.
    destruct (Z.testbit (trees shape) 1) eqn:E.
    + destruct (proj1 Hbit1 eq_refl) as [os' ->]. by rewrite bool_decide_true.
    + rewrite bool_decide_false; [done|]. intros Hh.
      destruct os as [|k' os']; simplify_eq/=.
      assert (false = true); [|done]. apply Hbit1. by eexists.
  - rewrite !decide_False by lia.
    rewrite (to_size_t_small (Z.of_nat (S (S k)) - 1)) by lia.
    replace (Z.of_nat (S (S k)) - 1) with (Z.of_nat (S k)) by lia.
    rewrite leonardo_at_L by lia. cbn [mbind option_bind needs_rectify].
    pose proof (L_lt_size (S k) ltac:(lia)). pose proof (L_pos (S k)).
    pose proof (L_mono (S k) 45 ltac:(lia)) as H45. rewrite L_45 in H45.
    rewrite !to_size_t_small by lia. done.
Qed.

(** Whatever is settled is rectified. *)
Lemma needs_rectify_settled n m k os :
  m <= n -> settled n k m -> (consecutive (k :: os) -> n = m) ->
  needs_rectify (n - m) (k :: os) = true.
Proof.
  unfold settled. intros Hmn Hs Hc.
  destruct k as [|[|k]]; cbn [needs_rectify thr] in *.
  - apply bool_decide_eq_true. lia.
  - rewrite L_0 in Hs. apply orb_true_iff.
    destruct (decide (n - m = 0)); [left; by apply bool_decide_eq_true|right].
    apply andb_true_iff. split; [apply bool_decide_eq_true; lia|].
    apply negb_true_iff, bool_decide_eq_false. intros Hh.
    destruct os as [|k' os]; simplify_eq/=. specialize (Hc eq_refl). lia.
  - apply bool_decide_eq_true. lia.
Qed.

Lemma add_orders_cases os :
  (exists k r, os = k :: S k :: r /\ add_orders os = S (S k) :: r) \/
  (~ consecutive os /\
   exists k', (k' = 0 \/ k' = 1)%nat /\ add_orders os = k' :: os).
Proof.
  destruct os as [|k [|k1 r]].
  - right. split; [by intros []|]. exists 1%nat. by split; [right|].
  - right. split; [by intros []|]. simpl.
    case_decide; [exists O|exists 1%nat]; (split; [lia|done]).
  - simpl. destruct (decide (k1 = S k)) as [->|Hne].
    + left. by exists k, r.
    + right. split; [done|].
      case_decide; [exists O|exists 1%nat]; (split; [lia|done]).
Qed.

Section Add.
Context {A : Type} (comp : A -> A -> bool).
Implicit Types (a : list A) (os : list nat).

Lemma add_pre n a os m k' rest' :
  build_order_inv comp n a os m -> is_Some (deref a m) ->
  add_orders os = k' :: rest' ->
  semi_heap comp a k' m /\ heaps comp a rest' (m + 1 - L k') /\
  sorted_where comp (settled n) a rest' (m + 1 - L k').
Proof.
  intros [Hh Hs] Hm Hadd.
  destruct (add_orders_cases os) as [(k & r & -> & Heq)|(Hnc & k0 & Hk0 & Heq)];
    rewrite Heq in Hadd; simplify_eq.
  - destruct Hh as (H1 & H2 & H3). destruct Hs as (_ & _ & Hs).
    rewrite L_SS.
    replace (m + 1 - (L (S k) + L k + 1)) with (m - L k - L (S k)) by lia.
    replace (m - L k - 1) with (m - 1 - L k) in H2 by lia.
    split_and!; [by split_and!|done|done].
  - assert (L k' = 1) as -> by (destruct Hk0 as [->| ->]; done).
    replace (m + 1 - 1) with m by lia.
    split_and!; [by destruct Hk0 as [->| ->]|done|].
    destruct rest' as [|k r]; [done|]. destruct Hs as [H1 H2].
    split; [|done]. intros Hset. by apply H1.
Qed.

Lemma LeonardoHeapAdd_spec a shape os m n :
  shape_inv shape os m -> 0 <= m < n ->
  n = Z.of_nat (length a) -> n < 2 ^ 32 ->
  exists a',
    LeonardoHeapAdd comp a 0 m n shape = Some (a', shape_add shape) /\
    shape_inv (shape_add shape) (add_orders os) (m + 1) /\
    swaps_within 0 (m + 1) a a' /\
    (WeakOrder comp ->
     build_order_inv comp n a os m ->
     build_order_inv comp n a' (add_orders os) (m + 1)).
Proof.
  intros (Hrep & Hok & Hsz) Hm Hn Hn32.
  pose proof (forest_size_add_orders os) as Hsz'.
  pose proof (shape_ok_add_orders _ Hok) as Hok'.
  assert (Hrep' : shape_rep (shape_add shape) (add_orders os)).
  { apply shape_add_rep; [done..| |]; apply forest_orders_ok; lia. }
  assert (Hord' : orders_ok (add_orders os)) by (apply forest_orders_ok; lia).
  pose proof (shape_ok_increasing _ Hok') as Hinc'.
  destruct (add_orders os) as [|k' rest'] eqn:Hadd.
  { simpl in Hsz'. lia. }
  pose proof (orders_ok_head _ _ Hord') as Hk'.
  assert (HLk' : L k' <= m + 1).
  { pose proof (forest_size_order (k' :: rest') k' ltac:(left)). lia. }
  pose proof (L_pos k') as HLk'pos.
  assert (Hdm : is_Some (deref a m)) by (apply deref_is_Some; lia).
  assert (Hsi : shape_inv (shape_add shape) (k' :: rest') (m + 1)).
  { split; [done|]. split; [done|]. lia. }
  unfold LeonardoHeapAdd.
  rewrite (add_isLast_spec _ k' rest') by (done || lia).
  cbn [mbind option_bind].
  destruct (needs_rectify (n - (m + 1)) (k' :: rest')) eqn:Hb; cbn [negb].
  - (* final position: full rectify *)
    destruct (LeonardoHeapRectify_spec comp a k' rest' (m + 1)
                (shape_add shape)) as (a' & Hr & Hsw & Hpost);
      [done|done|lia|lia|lia|].
    rewrite Hr. cbn [mbind option_bind].
    exists a'. split; [done|]. split; [done|]. split; [done|].
    intros HW Hinv.
    destruct (add_pre _ _ _ _ _ _ Hinv Hdm Hadd) as (Hsemi & Hhs & Hsw').
    replace (m + 1 - 1) with m in Hpost by lia.
    destruct (Hpost HW Hsemi Hhs) as (Hheaps & HA & HB).
    split; [done|]. split; [|by apply HB].
    intros Hset Hcons. apply HA.
    destruct rest' as [|k1 r]; [done|].
    destruct Hsw' as [Hsw1 _]. apply Hsw1.
    replace (m + 1 - L k') with ((m + 1) - L k') by lia.
    eapply settled_mono; [done|lia|done|].
    intros ->. by apply Hcons.
  - (* not final: rebalance the new tree only *)
    rewrite (shape_rep_smallest _ _ _ Hrep').
    destruct (RebalanceSingleHeap_spec comp k' a m)
      as (a' & Hr & Hsw & Hheap); [done|lia|lia|].
    rewrite Hr. cbn [mbind option_bind].
    exists a'. split; [done|]. split; [done|]. split.
    { eapply swaps_within_mono; [| |exact Hsw]; lia. }
    intros HW Hinv.
    destruct (add_pre _ _ _ _ _ _ Hinv Hdm Hadd) as (Hsemi & Hhs & Hsw').
    assert (Ha'o : forall i, i < m + 1 - L k' -> deref a' i = deref a i).
    { intros i Hi. apply (swaps_within_outside _ _ _ _ _ Hsw). lia. }
    split.
    + split.
      * replace (m + 1 - 1) with m by lia. by apply Hheap.
      * eapply heaps_ext; [|exact Hhs]. intros i Hi. apply Ha'o. lia.
    + split.
      * intros Hset Hcons.
        rewrite needs_rectify_settled in Hb; [done|lia|done|].
        intros Hc. specialize (Hcons Hc). lia.
      * eapply sorted_where_ext; [|exact Hsw'].
        intros i Hi. apply Ha'o. lia.
Qed.

End Add.

(** ** Remove *)

Section Remove.
Context {A : Type} (comp : A -> A -> bool).
Implicit Types (a : list A) (os : list nat).

Lemma shape_inv_nonempty shape os m :
  shape_inv shape os m -> 1 <= m -> exists k rest, os = k :: rest.
Proof.
  intros (_ & _ & Hsz) Hm. destruct os as [|k rest]; [simpl in Hsz; lia|].
  by exists k, rest.
Qed.

Lemma LeonardoHeapRemove_spec a shape os m :
  shape_inv shape os m -> 1 <= m <= Z.of_nat (length a) -> m < 2 ^ 32 ->
  exists a' shape',
    LeonardoHeapRemove comp a 0 m shape = Some (a', shape') /\
    shape_inv shape' (remove_orders os) (m - 1) /\
    swaps_within 0 (m - 1) a a' /\
    (WeakOrder comp ->
     heaps comp a os m -> roots_sorted comp a os m ->
     heaps comp a' (remove_orders os) (m - 1) /\
     roots_sorted comp a' (remove_orders os) (m - 1)).
Proof.
  intros Hinv Hm Hm32.
  destruct (shape_inv_nonempty _ _ _ Hinv) as (k & rest & ->); [lia|].
  destruct Hinv as (Hrep & Hok & Hsz).
  pose proof (shape_ok_increasing _ Hok) as Hinc.
  assert (Hord : orders_ok (k :: rest)) by (apply forest_orders_ok; lia).
  pose proof (orders_ok_head _ _ Hord) as Hk.
  pose proof (shape_ok_remove_orders _ Hok) as Hok'.
  pose proof (forest_size_remove_orders (k :: rest) ltac:(done)) as Hsz'.
  pose proof (shape_rep_smallest _ _ _ Hrep) as Hs.
  unfold LeonardoHeapRemove. rewrite Hs.
  destruct (decide (k <= 1)%nat) as [Hk1|Hk1].
  - (* order 0 or 1: drop the tree *)
    rewrite decide_True by lia.
    destruct (remove_scan_shape_rep _ _ _ Hrep Hinc Hord)
      as (shape' & Hscan & Hrep').
    rewrite Hscan. cbn [mbind option_bind].
    assert (Hro : remove_orders (k :: rest) = rest)
      by (by destruct k as [|[|k]]; [..|lia]).
    assert (HL : L k = 1) by (by destruct k as [|[|k]]; [..|lia]).
    rewrite Hro in *.
    exists a, shape'. split; [done|]. split; [split_and!; [done..|lia]|].
    split; [constructor|].
    intros HW [_ Hh] Hsorted. rewrite HL in Hh. split; [done|].
    apply roots_sorted_tail in Hsorted. by rewrite HL in Hsorted.
  - (* order at least 2: expose the two children and rectify each *)
    destruct k as [|[|k]]; [lia..|]. clear Hk1.
    rewrite decide_False by lia.
    rewrite FirstChild_spec by lia. cbn [mbind option_bind].
    unfold SecondChild. cbn [remove_orders] in *.
    pose proof (shape_split_rep _ _ _ Hrep Hinc Hord) as Hrep'.
    pose proof (shape_shift_rep _ _ _ Hrep' ltac:(lia)) as Hrep1.
    pose proof (shape_ok_increasing _ Hok') as Hinc'.
    pose proof (increasing_tail _ _ Hinc') as Hinc1.
    change (forest_size (S (S k) :: rest))
      with (L (S (S k)) + forest_size rest) in Hsz, Hsz'.
    change (forest_size (k :: S k :: rest))
      with (L k + (L (S k) + forest_size rest)) in Hsz'.
    rewrite L_SS in Hsz, Hsz'.
    pose proof (L_pos k) as HLk. pose proof (L_pos (S k)) as HLSk.
    pose proof (forest_size_nonneg rest) as Hrest.
    replace (m - 1 - 1 - L k + 1) with (m - 1 - L k) by lia.
    replace (m - 1 - 1 + 1) with (m - 1) by lia.
    destruct (LeonardoHeapRectify_spec comp a (S k) rest (m - 1 - L k)
                (shape_shift (shape_split shape)))
      as (a1 & Hr1 & Hsw1 & Hpost1);
      [done|done|simpl; lia|lia|lia|].
    rewrite Hr1. cbn [mbind option_bind].
    pose proof (swaps_within_length _ _ _ _ Hsw1) as Hlen1.
    destruct (LeonardoHeapRectify_spec comp a1 k (S k :: rest) (m - 1)
                (shape_split shape))
      as (a2 & Hr2 & Hsw2 & Hpost2);
      [done|done|simpl; lia|lia|lia|].
    rewrite Hr2. cbn [mbind option_bind].
    exists a2, (shape_split shape). split; [done|].
    split; [split_and!; [done|done|simpl; lia]|].
    split.
    { eapply swaps_within_trans; [|exact Hsw2].
      eapply swaps_within_mono; [| |exact Hsw1]; lia. }
    intros HW [Hh Hhs] Hsorted.
    destruct Hh as (Hh1 & Hh2 & _).
    replace (m - 1 - 1 - L k) with (m - 1 - L k - 1) in Hh1 by lia.
    replace (m - L (S (S k))) with (m - 1 - L k - L (S k)) in Hhs
      by (rewrite L_SS; lia).
    apply roots_sorted_tail in Hsorted.
    replace (m - L (S (S k))) with (m - 1 - L k - L (S k)) in Hsorted
      by (rewrite L_SS; lia).
    destruct (Hpost1 HW (is_heap_semi _ _ _ _ Hh1) Hhs) as (Hheaps1 & HA1 & _).
    assert (Hh2' : is_heap comp a1 k (m - 1 - 1)).
    { eapply is_heap_ext; [|exact Hh2]. intros i Hi.
      apply (swaps_within_outside _ _ _ _ _ Hsw1). lia. }
    destruct (Hpost2 HW (is_heap_semi _ _ _ _ Hh2') Hheaps1)
      as (Hheaps2 & HA2 & _).
    split; [done|]. by apply HA2, HA1.
Qed.

End Remove.

(** ** The driver *)

Section Driver.
Context {A : Type} (comp : A -> A -> bool).
Implicit Types (a : list A) (os : list nat).

Lemma build_steps_spec steps : forall a shape os m n,
  shape_inv shape os m -> 0 <= m -> m + Z.of_nat steps <= n ->
  n = Z.of_nat (length a) -> n < 2 ^ 32 ->
  exists a' shape' os',
    build_steps comp steps a 0 m n shape = Some (a', shape') /\
    shape_inv shape' os' (m + Z.of_nat steps) /\
    swaps_within 0 (m + Z.of_nat steps) a a' /\
    (WeakOrder comp ->
     build_order_inv comp n a os m ->
     build_order_inv comp n a' os' (m + Z.of_nat steps)).
Proof.
  induction steps as [|steps IH]; intros a shape os m n Hinv Hm Hmn Hn Hn32.
  - exists a, shape, os. rewrite Z.add_0_r. cbn [build_steps].
    split_and!; [done|done|constructor|done].
  - cbn [build_steps]. rewrite decide_False by lia.
    destruct (LeonardoHeapAdd_spec comp a shape os m n)
      as (a1 & Hadd & Hinv1 & Hsw1 & Hord1); [done|lia|done|done|].
    rewrite Hadd. cbn [mbind option_bind].
    destruct (IH a1 (shape_add shape) (add_orders os) (m + 1) n)
      as (a' & shape' & os' & Hb & Hinv' & Hsw' & Hord');
      [done|lia|lia|by rewrite (swaps_within_length _ _ _ _ Hsw1)|done|].
    replace (m + 1 + Z.of_nat steps) with (m + Z.of_nat (S steps)) in * by lia.
    exists a', shape', os'. split_and!; [done|done| |].
    + eapply swaps_within_trans; [|exact Hsw'].
      eapply swaps_within_mono; [| |exact Hsw1]; lia.
    + intros HW Hinv0. by apply Hord', Hord1.
Qed.

Lemma final_inv_remove `{!WeakOrder comp} n a a' os m :
  1 <= m <= n -> n = Z.of_nat (length a) ->
  forest_size os = m ->
  heaps comp a os m -> roots_sorted comp a os m ->
  swaps_within 0 (m - 1) a a' ->
  final_inv comp n a m -> final_inv comp n a' (m - 1).
Proof.
  intros Hm Hn Hsz Hh Hs Hsw Hfin i j Hi Hj.
  assert (Hio : deref a' i = deref a i).
  { apply (swaps_within_outside _ _ _ _ _ Hsw). lia. }
  assert (is_Some (deref a i)) as [v Hv] by (apply deref_is_Some; lia).
  assert (Hbelow : forall j' x, 0 <= j' <= i -> deref a j' = Some x ->
            ge comp v x).
  { intros j' x Hj' Hx. eapply ge_at_Some; [exact Hv|exact Hx|].
    destruct (decide (i = m - 1)) as [->|].
    - apply (forest_max comp a os m); [done..|lia].
    - apply Hfin; lia. }
  assert (is_Some (deref a' j)) as [y Hy].
  { apply deref_is_Some. rewrite (swaps_within_length _ _ _ _ Hsw). lia. }
  eapply ge_at_intro; [by rewrite Hio|exact Hy|].
  destruct (decide (j < m - 1)).
  - apply (swaps_within_Forall (fun x => ge comp v x) _ _ _ _ Hsw)
      with (i := j); [|lia|done].
    intros j' x Hj' Hx. apply (Hbelow j'); [lia|done].
  - apply (Hbelow j); [lia|].
    rewrite <- Hy. symmetry.
    apply (swaps_within_outside _ _ _ _ _ Hsw). lia.
Qed.

Lemma extract_steps_spec steps : forall a shape os m n,
  shape_inv shape os m -> Z.of_nat steps <= m -> m <= n ->
  n = Z.of_nat (length a) -> n < 2 ^ 32 ->
  exists a' shape' os',
    extract_steps comp steps a 0 m shape = Some (a', shape') /\
    shape_inv shape' os' (m - Z.of_nat steps) /\
    swaps_within 0 m a a' /\
    (WeakOrder comp ->
     heaps comp a os m -> roots_sorted comp a os m -> final_inv comp n a m ->
     heaps comp a' os' (m - Z.of_nat steps) /\
     roots_sorted comp a' os' (m - Z.of_nat steps) /\
     final_inv comp n a' (m - Z.of_nat steps)).
Proof.
  induction steps as [|steps IH]; intros a shape os m n Hinv Hsm Hmn Hn Hn32.
  - exists a, shape, os. rewrite Z.sub_0_r. cbn [extract_steps].
    split_and!; [done|done|constructor|done].
  - cbn [extract_steps]. rewrite decide_False by lia.
    destruct (LeonardoHeapRemove_spec comp a shape os m)
      as (a1 & shape1 & Hrem & Hinv1 & Hsw1 & Hord1); [done|lia|lia|].
    rewrite Hrem. cbn [mbind option_bind].
    destruct (IH a1 shape1 (remove_orders os) (m - 1) n)
      as (a' & shape' & os' & He & Hinv' & Hsw' & Hord');
      [done|lia|lia|by rewrite (swaps_within_length _ _ _ _ Hsw1)|done|].
    replace (m - 1 - Z.of_nat steps) with (m - Z.of_nat (S steps)) in * by lia.
    exists a', shape', os'. split_and!; [done|done| |].
    + eapply swaps_within_trans;
        (eapply swaps_within_mono; [| |eassumption]; lia).
    + intros HW Hh Hs Hfin.
      destruct (Hord1 HW Hh Hs) as [Hh1 Hs1].
      apply Hord'; [done..|].
      destruct Hinv as (_ & _ & Hsz).
      apply (final_inv_remove n a a1 os m); [lia|done..].
Qed.

Lemma shape_inv_empty : shape_inv empty_shape [] 0.
Proof. split_and!; [apply shape_rep_empty|done..]. Qed.

Lemma build_order_inv_empty n a : build_order_inv comp n a [] 0.
Proof. by split. Qed.

(** When the build phase is over, all roots are sorted. *)
Lemma build_order_inv_done n a os :
  build_order_inv comp n a os n -> roots_sorted comp a os n.
Proof.
  intros [_ Hs]. destruct os as [|k os]; [done|].
  destruct Hs as [Hs _]. apply Hs; [|done].
  unfold settled. pose proof (thr_pos k). lia.
Qed.

Lemma deref_cons x a i : 0 <= i -> deref (x :: a) (i + 1) = deref a i.
Proof.
  intros Hi. unfold deref. rewrite !decide_True by lia.
  by replace (Z.to_nat (i + 1)) with (S (Z.to_nat i)) by lia.
Qed.

Lemma final_inv_sorted a :
  final_inv comp (Z.of_nat (length a)) a 0 ->
  StronglySorted (fun x y => comp y x = false) a.
Proof.
  induction a as [|x a IH]; intros Hfin; [constructor|].
  constructor.
  - apply IH. intros i j Hi Hj.
    specialize (Hfin (i + 1) (j + 1)).
    unfold ge_at in Hfin |- *. rewrite !deref_cons in Hfin by lia.
    apply Hfin; simpl length; lia.
  - apply Forall_lookup. intros q y Hq.
    pose proof (lookup_lt_Some _ _ _ Hq).
    specialize (Hfin (Z.of_nat q + 1) 0).
    unfold ge_at in Hfin. rewrite deref_cons in Hfin by lia.
    rewrite deref_lookup, Nat2Z.id, Hq in Hfin by lia.
    apply Hfin; simpl length; lia.
Qed.

Lemma Smoothsort_spec a :
  Z.of_nat (length a) < 2 ^ 32 ->
  exists a',
    Smoothsort comp a = Some a' /\ a ≡ₚ a' /\
    (WeakOrder comp -> StronglySorted (fun x y => comp y x = false) a').
Proof.
  intros Hn32. unfold Smoothsort. set (n := Z.of_nat (length a)) in *.
  case_decide as Hsmall.
  { exists a. split_and!; [done..|]. intros _.
    destruct a as [|x [|y a]]; [constructor|repeat constructor|].
    subst n. simpl length in Hsmall. lia. }
  destruct (build_steps_spec (length a) a empty_shape [] 0 n)
    as (a1 & shape1 & os1 & Hb & Hinv1 & Hsw1 & Hord1);
    [apply shape_inv_empty|done|lia|done|done|].
  rewrite Hb. cbn [mbind option_bind].
  replace (0 + Z.of_nat (length a)) with n in * by lia.
  pose proof (swaps_within_length _ _ _ _ Hsw1) as Hlen1.
  destruct (extract_steps_spec (length a) a1 shape1 os1 n n)
    as (a2 & shape2 & os2 & He & Hinv2 & Hsw2 & Hord2);
    [done|lia|lia|lia|done|].
  rewrite He. cbn [mbind option_bind].
  exists a2. split_and!; [done| |].
  - etrans; by eapply swaps_within_perm.
  - intros HW.
    destruct Hord2 as (_ & _ & Hfin); [done| | | |].
    + by apply Hord1, build_order_inv_empty.
    + by apply build_order_inv_done, Hord1, build_order_inv_empty.
    + intros i j Hi. lia.
    + apply final_inv_sorted.
      rewrite (swaps_within_length _ _ _ _ Hsw2), Hlen1.
      by replace (n - Z.of_nat (length a)) with 0 in Hfin by lia.
Qed.

End Driver.

(** ** Reading the forest back from the bitset *)

Lemma increasing_StronglySorted os : increasing os -> StronglySorted lt os.
Proof.
  induction os as [|k os IH]; intros Hinc; constructor.
  - apply IH. by eapply increasing_tail.
  - apply Forall_forall. intros x Hx. by eapply increasing_lt.
Qed.

Lemma omap_seq_sorted (f : nat -> option nat) (g : nat -> nat) len :
  forall start,
  (forall i k, f i = Some k -> k = g i) ->
  (forall i j, (i < j)%nat -> (g i < g j)%nat) ->
  StronglySorted lt (omap f (seq start len)).
Proof.
  induction len as [|len IH]; intros start Hf Hg; [constructor|].
  cbn [seq omap list_omap]. destruct (f start) as [k|] eqn:Hk; [|by apply IH].
  constructor; [by apply IH|].
  apply Forall_forall. intros x (i & Hi & Hx)%list_elem_of_omap.
  apply elem_of_seq in Hi. rewrite (Hf _ _ Hk), (Hf _ _ Hx). apply Hg. lia.
Qed.

Lemma StronglySorted_lt_NoDup (l : list nat) : StronglySorted lt l -> NoDup l.
Proof.
  induction 1 as [|x l _ IH Hall]; constructor; [|done].
  intros Hx. pose proof (proj1 (Forall_forall _ _) Hall x Hx). lia.
Qed.

Lemma shape_orders_rep shape os :
  shape_rep shape os -> increasing os -> orders_ok os ->
  shape_orders shape = os.
Proof.
  intros [Hb Hs] Hinc Hord.
  assert (Hin : forall k, k ∈ shape_orders shape <-> k ∈ os).
  { intros k. unfold shape_orders. rewrite list_elem_of_omap. split.
    - intros (i & _ & Hi).
      destruct (Z.testbit (trees shape) (Z.of_nat i)) eqn:E; [|done].
      apply Hb in E as (k' & Hk' & Heq); [|lia].
      simplify_eq. by replace (Z.to_nat _) with k' by lia.
    - intros Hk. destruct os as [|k0 os]; [by apply elem_of_nil in Hk|].
      pose proof (increasing_le _ _ _ Hinc Hk).
      pose proof (orders_ok_elem _ _ Hord Hk).
      exists (k - k0)%nat.
      split; [apply elem_of_seq; unfold kNumLeonardoNumbers; lia|].
      rewrite (proj2 (Hb (Z.of_nat (k - k0)%nat) ltac:(lia))).
      + f_equal. lia.
      + exists k. split; [done|lia]. }
  destruct os as [|k0 os].
  { apply elem_of_nil_inv. intros k Hk%Hin. by apply elem_of_nil in Hk. }
  assert (Hsorted : StronglySorted lt (shape_orders shape)).
  { apply (omap_seq_sorted _
             (fun i => Z.to_nat (smallestTreeSize shape + Z.of_nat i))).
    - intros i k. by destruct (Z.testbit _ _); intros ?; simplify_eq.
    - intros i j Hij. lia. }
  apply (StronglySorted_unique_strong lt);
    [intros; lia|done|by apply increasing_StronglySorted|].
  apply NoDup_Permutation; [| |done]; apply StronglySorted_lt_NoDup;
    [done|by apply increasing_StronglySorted].
Qed.

Lemma shape_inv_orders shape os m :
  shape_inv shape os m -> m < 2 ^ 32 -> shape_orders shape = os.
Proof.
  intros (Hrep & Hok & Hsz) Hm. apply shape_orders_rep; [done| |].
  - by apply shape_ok_increasing.
  - apply forest_orders_ok. lia.
Qed.

(** ** Binary quicksort: bits of the elements *)

Section Bits.
Context (w : Z) (Hw : 1 <= w).

Lemma pow2_w : 2 ^ w = 2 * 2 ^ (w - 1).
Proof. rewrite <- Z.pow_succ_r by lia. f_equal. lia. Qed.

Lemma ukey_range x : 0 <= ukey w x < 2 ^ w.
Proof. apply Z.mod_pos_bound. apply Z.pow_pos_nonneg; lia. Qed.

Lemma ukey_nonneg x : in_range w x -> 0 <= x -> ukey w x = x.
Proof.
  unfold in_range, ukey. intros Hx H0. apply Z.mod_small.
  rewrite pow2_w. lia.
Qed.

Lemma ukey_neg x : in_range w x -> x < 0 -> ukey w x = x + 2 ^ w.
Proof.
  unfold in_range, ukey. intros Hx H0. symmetry.
  apply (Z.mod_unique _ _ (-1)); [left; rewrite pow2_w; lia|lia].
Qed.

Lemma to_T_0 : to_T w true 0 = 0.
Proof.
  unfold to_T. rewrite Z.add_0_l, Z.mod_small; [lia|].
  pose proof (Z.pow_pos_nonneg 2 (w - 1) ltac:(lia) ltac:(lia)).
  rewrite pow2_w. lia.
Qed.

Lemma bitmask_low bit : 0 <= bit < w - 1 -> bitmask w true bit = 2 ^ bit.
Proof.
  intros Hb. unfold bitmask, to_T. rewrite Z.shiftl_1_l.
  pose proof (Z.pow_pos_nonneg 2 bit ltac:(lia) ltac:(lia)).
  pose proof (Z.pow_lt_mono_r 2 bit (w - 1) ltac:(lia) ltac:(lia) ltac:(lia)).
  rewrite Z.mod_small; [lia|]. rewrite pow2_w. lia.
Qed.

Lemma bitmask_sign : bitmask w true (w - 1) = - 2 ^ (w - 1).
Proof.
  unfold bitmask, to_T. rewrite Z.shiftl_1_l.
  replace (2 ^ (w - 1) + 2 ^ (w - 1)) with (2 ^ w) by (rewrite pow2_w; lia).
  rewrite Z.mod_same; [lia|].
  pose proof (Z.pow_pos_nonneg 2 w ltac:(lia) ltac:(lia)). lia.
Qed.

Lemma land_pow2 x bit :
  0 <= bit -> Z.land x (2 ^ bit) = if Z.testbit x bit then 2 ^ bit else 0.
Proof.
  intros Hb. apply Z.bits_inj'. intros i Hi.
  rewrite Z.land_spec, Z.pow2_bits_eqb by done.
  destruct (Z.eqb_spec bit i) as [->|Hne].
  - rewrite andb_true_r. destruct (Z.testbit x i) eqn:E.
    + by rewrite Z.pow2_bits_eqb, Z.eqb_refl.
    + by rewrite Z.bits_0.
  - rewrite andb_false_r. destruct (Z.testbit x bit).
    + rewrite Z.pow2_bits_eqb by done. symmetry. by apply Z.eqb_neq.
    + by rewrite Z.bits_0.
Qed.

Lemma testbit_sign x :
  in_range w x -> Z.testbit x (w - 1) = bool_decide (x < 0).
Proof.
  unfold in_range. intros Hx.
  pose proof (Z.pow_pos_nonneg 2 (w - 1) ltac:(lia) ltac:(lia)) as Hp.
  destruct (decide (x < 0)) as [Hneg|Hpos].
  - rewrite bool_decide_true by done. apply Z.testbit_true; [lia|].
    replace (x / 2 ^ (w - 1)) with (-1); [done|].
    apply (Z.div_unique _ _ _ (x + 2 ^ (w - 1))); lia.
  - rewrite bool_decide_false by done. apply Z.testbit_false; [lia|].
    by rewrite Z.div_small by lia.
Qed.

Lemma land_sign x :
  in_range w x -> (Z.land x (- 2 ^ (w - 1)) =? 0) = bool_decide (0 <= x).
Proof.
  unfold in_range. intros Hx.
  pose proof (Z.pow_pos_nonneg 2 (w - 1) ltac:(lia) ltac:(lia)) as Hp.
  destruct (decide (0 <= x)) as [Hpos|Hneg].
  - rewrite bool_decide_true by done. apply Z.eqb_eq.
    apply Z.bits_inj'. intros i Hi. rewrite Z.land_spec, Z.bits_0.
    destruct (decide (i < w - 1)).
    + replace (- 2 ^ (w - 1)) with ((-1) * 2 ^ (w - 1)) by lia.
      rewrite Z.mul_pow2_bits_low by lia. apply andb_false_r.
    + assert (Z.testbit x i = false) as ->; [|done].
      apply Z.testbit_false; [lia|]. rewrite Z.div_small; [done|].
      pose proof (Z.pow_le_mono_r 2 (w - 1) i ltac:(lia) ltac:(lia)). lia.
  - rewrite bool_decide_false by done. apply Z.eqb_neq.
    assert (Z.land x (- 2 ^ (w - 1)) < 0); [|lia].
    apply Z.land_neg. lia.
Qed.

(** Testing an element against the mask reads the bit of its pattern. *)
Lemma masked_testbit x bit :
  in_range w x -> 0 <= bit < w ->
  masked x (bitmask w true bit) = Z.testbit x bit.
Proof.
  intros Hx Hb. unfold masked.
  destruct (decide (bit = w - 1)) as [->|Hne].
  - rewrite bitmask_sign, land_sign, testbit_sign by done.
    destruct (decide (x < 0)).
    + by rewrite bool_decide_false, bool_decide_true by lia.
    + by rewrite bool_decide_true, bool_decide_false by lia.
  - rewrite bitmask_low, land_pow2 by lia.
    pose proof (Z.pow_pos_nonneg 2 bit ltac:(lia) ltac:(lia)).
    destruct (Z.testbit x bit); [|done].
    apply negb_true_iff, Z.eqb_neq. lia.
Qed.

Lemma prefix_step x b :
  0 <= b < w -> prefix w x b = 2 * prefix w x (b + 1) + Z.b2z (Z.testbit x b).
Proof.
  intros Hb. unfold prefix.
  rewrite <- (Z.mod_pow2_bits_low x w b) by lia. fold (ukey w x).
  rewrite Z.testbit_spec' by lia.
  replace (b + 1) with (Z.succ b) by lia.
  rewrite Z.pow_succ_r, (Z.mul_comm 2 (2 ^ b)) by lia.
  rewrite <- Z.div_div by (try apply Z.pow_pos_nonneg; lia).
  apply Z.div_mod. lia.
Qed.

Lemma prefix_top x : prefix w x w = 0.
Proof. unfold prefix. apply Z.div_small, ukey_range. Qed.

Lemma prefix_0 x : prefix w x 0 = ukey w x.
Proof. unfold prefix. by rewrite Z.pow_0_r, Z.div_1_r. Qed.

(** Patterns with a smaller prefix are smaller. *)
Lemma prefix_lt x y b :
  0 <= b -> prefix w x b < prefix w y b -> ukey w x < ukey w y.
Proof.
  unfold prefix. intros Hb Hlt.
  pose proof (Z.pow_pos_nonneg 2 b ltac:(lia) ltac:(lia)) as Hp.
  pose proof (Z.div_mod (ukey w x) (2 ^ b) ltac:(lia)).
  pose proof (Z.div_mod (ukey w y) (2 ^ b) ltac:(lia)).
  pose proof (Z.mod_pos_bound (ukey w x) (2 ^ b) Hp).
  pose proof (Z.mod_pos_bound (ukey w y) (2 ^ b) Hp).
  nia.
Qed.

End Bits.

(** ** Binary quicksort: partitioning *)

Section Partition.
Context (mask : Z).
Implicit Types (a : list Z).

Lemma skip_zeros_spec fuel : forall a b e,
  0 <= b <= e -> e <= Z.of_nat (length a) -> e - b <= Z.of_nat fuel ->
  exists b',
    skip_zeros fuel a b e mask = Some b' /\ b <= b' <= e /\
    (forall i x, b <= i < b' -> deref a i = Some x -> masked x mask = false) /\
    (b' < e -> exists x, deref a b' = Some x /\ masked x mask = true).
Proof.
  induction fuel as [|fuel IH]; intros a b e Hb He Hf.
  - assert (b = e) as -> by lia. exists e. simpl.
    rewrite decide_False by lia. split_and!; [done|lia|lia|intros; lia|lia].
  - cbn [skip_zeros]. destruct (decide (b < e)) as [Hlt|Hge].
    + assert (is_Some (deref a b)) as [x Hx] by (apply deref_is_Some; lia).
      rewrite Hx. cbn [mbind option_bind].
      destruct (masked x mask) eqn:Hm; cbn [negb].
      * exists b. split_and!; [done|lia|lia|intros; lia|]. intros _. by exists x.
      * destruct (IH a (b + 1) e) as (b' & Hs & Hr & Hz & Ho); [lia..|].
        exists b'. split_and!; [done|lia|lia| |done].
        intros i y Hi Hy. destruct (decide (i = b)) as [->|]; [congruence|].
        apply (Hz i); [lia|done].
    + exists b. split_and!; [done|lia|lia|intros; lia|lia].
Qed.

Lemma skip_ones_spec fuel : forall a b e,
  0 <= b < e -> e <= Z.of_nat (length a) -> e - b <= Z.of_nat fuel ->
  exists e',
    skip_ones fuel a b e mask = Some e' /\ b <= e' < e /\
    (forall i x, e' < i < e -> deref a i = Some x -> masked x mask = true) /\
    (b < e' -> exists x, deref a e' = Some x /\ masked x mask = false).
Proof.
  induction fuel as [|fuel IH]; intros a b e Hb He Hf; [lia|].
  cbn [skip_ones]. destruct (decide (b < e - 1)) as [Hlt|Hge].
  - assert (is_Some (deref a (e - 1))) as [x Hx] by (apply deref_is_Some; lia).
    rewrite Hx. cbn [mbind option_bind].
    destruct (masked x mask) eqn:Hm.
    + destruct (IH a b (e - 1)) as (e' & Hs & Hr & Hz & Ho); [lia..|].
      exists e'. split_and!; [done|lia|lia| |done].
      intros i y Hi Hy. destruct (decide (i = e - 1)) as [->|]; [congruence|].
      apply (Hz i); [lia|done].
    + exists (e - 1). split_and!; [done|lia|lia|intros; lia|].
      intros _. by exists x.
  - exists (e - 1). split_and!; [done|lia|lia|intros; lia|lia].
Qed.

Lemma partition_loop_spec fuel : forall a b e,
  0 <= b <= e -> e <= Z.of_nat (length a) -> e - b < Z.of_nat fuel ->
  exists a' p,
    partition_loop fuel a b e mask = Some (a', p) /\ b <= p <= e /\
    swaps_within b e a a' /\
    (forall i x, b <= i < p -> deref a' i = Some x -> masked x mask = false) /\
    (forall i x, p <= i < e -> deref a' i = Some x -> masked x mask = true).
Proof.
  induction fuel as [|fuel IH]; intros a b e Hb He Hf; [lia|].
  cbn [partition_loop].
  destruct (skip_zeros_spec (Z.to_nat (e - b)) a b e)
    as (b' & Hsz & Hb' & Hzeros & Hone); [lia..|].
  rewrite Hsz. cbn [mbind option_bind].
  destruct (decide (b' = e)) as [->|Hne].
  { exists a, e. split_and!; [done|lia|lia|constructor|done|intros; lia]. }
  destruct Hone as (x1 & Hx1 & Hm1); [lia|].
  destruct (skip_ones_spec (S (Z.to_nat (e - b'))) a b' e)
    as (e' & Hso & He' & Hones & Hzero); [lia..|].
  rewrite Hso. cbn [mbind option_bind].
  destruct (decide (b' = e')) as [<-|Hne'].
  { exists a, b'. split_and!; [done|lia|lia|constructor|done|].
    intros i x Hi Hx. destruct (decide (i = b')) as [->|]; [congruence|].
    apply (Hones i); [lia|done]. }
  destruct Hzero as (x0 & Hx0 & Hm0); [lia|].
  assert (is_Some (iter_swap a b' e')) as [a1 Ha1]
    by (apply iter_swap_is_Some; by eexists).
  rewrite Ha1. cbn [mbind option_bind].
  destruct (IH a1 b' e') as (a' & p & Hp & Hpr & Hsw & Hz' & Ho');
    [lia|rewrite (iter_swap_length _ _ _ _ Ha1); lia|lia|].
  exists a', p. split_and!; [done|lia|lia| | |].
  - eapply sw_step; [| |exact Ha1|]; [lia..|].
    eapply swaps_within_mono; [| |exact Hsw]; lia.
  - intros i x Hi Hx. destruct (decide (b' <= i)); [apply (Hz' i); [lia|done]|].
    rewrite (swaps_within_outside _ _ _ _ _ Hsw) in Hx by lia.
    rewrite (deref_iter_swap_ne _ _ _ _ _ Ha1) in Hx by lia.
    apply (Hzeros i); [lia|done].
  - intros i x Hi Hx. destruct (decide (i < e')); [apply (Ho' i); [lia|done]|].
    rewrite (swaps_within_outside _ _ _ _ _ Hsw) in Hx by lia.
    destruct (decide (i = e')) as [->|].
    + rewrite (deref_iter_swap_r _ _ _ _ Ha1) in Hx. congruence.
    + rewrite (deref_iter_swap_ne _ _ _ _ _ Ha1) in Hx by lia.
      apply (Hones i); [lia|done].
Qed.

End Partition.

Lemma PartitionAtBit_spec w a b e bit :
  0 <= b <= e -> e <= Z.of_nat (length a) ->
  exists a' p,
    PartitionAtBit w true a b e bit = Some (a', p) /\ b <= p <= e /\
    swaps_within b e a a' /\
    (forall i x, b <= i < p -> deref a' i = Some x ->
                 masked x (bitmask w true bit) = false) /\
    (forall i x, p <= i < e -> deref a' i = Some x ->
                 masked x (bitmask w true bit) = true).
Proof. intros. unfold PartitionAtBit. apply partition_loop_spec; lia. Qed.

(** ** Binary quicksort: sorting by bit pattern *)

Section Quicksort.
Context (w : Z) (Hw : 1 <= w).
Implicit Types (a : list Z).

Lemma all_prefix_swaps a a' lo hi b c :
  swaps_within lo hi a a' -> all_prefix w a lo hi b c -> all_prefix w a' lo hi b c.
Proof.
  intros Hsw Hall.
  exact (swaps_within_Forall
           (fun x => in_range w x /\ prefix w x b = c) _ _ _ _ Hsw Hall).
Qed.

Lemma all_prefix_outside a a' lo hi lo' hi' b c :
  swaps_within lo' hi' a a' -> hi' <= lo \/ hi <= lo' ->
  all_prefix w a lo hi b c -> all_prefix w a' lo hi b c.
Proof.
  intros Hsw Hd Hall i x Hi Hx. apply (Hall i); [done|].
  rewrite <- Hx. symmetry. apply (swaps_within_outside _ _ _ _ _ Hsw). lia.
Qed.

Lemma sorted_by_key_outside a a' lo hi lo' hi' :
  swaps_within lo' hi' a a' -> hi' <= lo \/ hi <= lo' ->
  sorted_by_key w a lo hi -> sorted_by_key w a' lo hi.
Proof.
  intros Hsw Hd Hs i j x y Hij Hx Hy. apply (Hs i j); [done| |].
  - rewrite <- Hx. symmetry. apply (swaps_within_outside _ _ _ _ _ Hsw). lia.
  - rewrite <- Hy. symmetry. apply (swaps_within_outside _ _ _ _ _ Hsw). lia.
Qed.

(** A part with the bit clear followed by a part with the bit set. *)
Lemma sorted_by_key_join a lo p hi b c :
  0 <= b ->
  all_prefix w a lo p b (2 * c) -> all_prefix w a p hi b (2 * c + 1) ->
  sorted_by_key w a lo p -> sorted_by_key w a p hi ->
  sorted_by_key w a lo hi.
Proof.
  intros Hb H0 H1 Hs0 Hs1 i j x y Hij Hx Hy.
  destruct (decide (j < p)); [apply (Hs0 i j); [lia|done..]|].
  destruct (decide (p <= i)); [apply (Hs1 i j); [lia|done..]|].
  destruct (H0 i x) as [_ Hpx]; [lia|done|].
  destruct (H1 j y) as [_ Hpy]; [lia|done|].
  apply Z.lt_le_incl, (prefix_lt w x y b); [done|lia].
Qed.

Lemma quicksort_loop_spec fuel : forall a lo hi bit c,
  -1 <= bit < w -> bit + 1 <= Z.of_nat fuel ->
  0 <= lo <= hi -> hi <= Z.of_nat (length a) ->
  all_prefix w a lo hi (bit + 1) c ->
  exists a',
    quicksort_loop w true fuel a lo hi bit = Some a' /\
    swaps_within lo hi a a' /\ sorted_by_key w a' lo hi.
Proof.
  induction fuel as [|fuel IH]; intros a lo hi bit c Hbit Hf Hlo Hhi Hall.
  - assert (bit = -1) as -> by lia. exists a. cbn [quicksort_loop].
    rewrite decide_False by lia. split_and!; [done|constructor|].
    intros i j x y Hij Hx Hy.
    destruct (Hall i x) as [_ Hpx]; [lia|done|].
    destruct (Hall j y) as [_ Hpy]; [lia|done|].
    change (-1 + 1) with 0 in *. rewrite prefix_0 in Hpx, Hpy. lia.
  - cbn [quicksort_loop].
    destruct (decide (bit >= 0 /\ hi - lo > 1)) as [[Hb Hsz]|Hstop].
    + destruct (PartitionAtBit_spec w a lo hi bit)
        as (a1 & p & Hpart & Hp & Hsw1 & Hzeros & Hones); [lia..|].
      rewrite Hpart. cbn [mbind option_bind].
      pose proof (swaps_within_length _ _ _ _ Hsw1) as Hlen1.
      pose proof (all_prefix_swaps _ _ _ _ _ _ Hsw1 Hall) as Hall1.
      assert (H0 : all_prefix w a1 lo p (bit - 1 + 1) (2 * c)).
      { intros i x Hi Hx. destruct (Hall1 i x) as [Hr Hpx]; [lia|done|].
        split; [done|]. replace (bit - 1 + 1) with bit by lia.
        rewrite prefix_step, Hpx by lia.
        rewrite <- (masked_testbit w Hw x bit) by (done || lia).
        rewrite (Hzeros i x) by (done || lia). simpl. lia. }
      assert (H1 : all_prefix w a1 p hi (bit - 1 + 1) (2 * c + 1)).
      { intros i x Hi Hx. destruct (Hall1 i x) as [Hr Hpx]; [lia|done|].
        split; [done|]. replace (bit - 1 + 1) with bit by lia.
        rewrite prefix_step, Hpx by lia.
        rewrite <- (masked_testbit w Hw x bit) by (done || lia).
        rewrite (Hones i x) by (done || lia). simpl. lia. }
      destruct (decide (p - lo < hi - p)).
      * destruct (IH a1 lo p (bit - 1) (2 * c)) as (a2 & Hq2 & Hsw2 & Hs2);
          [lia..|done|].
        rewrite Hq2. cbn [mbind option_bind].
        pose proof (swaps_within_length _ _ _ _ Hsw2) as Hlen2.
        destruct (IH a2 p hi (bit - 1) (2 * c + 1))
          as (a3 & Hq3 & Hsw3 & Hs3); [lia..| |].
        { eapply all_prefix_outside; [exact Hsw2|lia|done]. }
        exists a3. split; [done|]. split.
        { eapply swaps_within_trans; [exact Hsw1|].
          eapply swaps_within_trans;
            (eapply swaps_within_mono; [| |eassumption]; lia). }
        apply (sorted_by_key_join a3 lo p hi bit c); [lia| | | |done].
        -- replace bit with (bit - 1 + 1) at 1 by lia.
           eapply all_prefix_outside; [exact Hsw3|lia|].
           eapply all_prefix_swaps; [exact Hsw2|done].
        -- replace bit with (bit - 1 + 1) at 1 by lia.
           eapply all_prefix_swaps; [exact Hsw3|].
           eapply all_prefix_outside; [exact Hsw2|lia|done].
        -- eapply sorted_by_key_outside; [exact Hsw3|lia|done].
      * destruct (IH a1 p hi (bit - 1) (2 * c + 1))
          as (a2 & Hq2 & Hsw2 & Hs2); [lia..|done|].
        rewrite Hq2. cbn [mbind option_bind].
        pose proof (swaps_within_length _ _ _ _ Hsw2) as Hlen2.
        destruct (IH a2 lo p (bit - 1) (2 * c))
          as (a3 & Hq3 & Hsw3 & Hs3); [lia..| |].
        { eapply all_prefix_outside; [exact Hsw2|lia|done]. }
        exists a3. split; [done|]. split.
        { eapply swaps_within_trans; [exact Hsw1|].
          eapply swaps_within_trans;
            (eapply swaps_within_mono; [| |eassumption]; lia). }
        apply (sorted_by_key_join a3 lo p hi bit c); [lia| | |done|].
        -- replace bit with (bit - 1 + 1) at 1 by lia.
           eapply all_prefix_swaps; [exact Hsw3|].
           eapply all_prefix_outside; [exact Hsw2|lia|done].
        -- replace bit with (bit - 1 + 1) at 1 by lia.
           eapply all_prefix_outside; [exact Hsw3|lia|].
           eapply all_prefix_swaps; [exact Hsw2|done].
        -- eapply sorted_by_key_outside; [exact Hsw3|lia|done].
    + exists a. split_and!; [done|constructor|].
      intros i j x y Hij Hx Hy.
      destruct (decide (bit = -1)) as [->|].
      * destruct (Hall i x) as [_ Hpx]; [lia|done|].
        destruct (Hall j y) as [_ Hpy]; [lia|done|].
        change (-1 + 1) with 0 in *. rewrite prefix_0 in Hpx, Hpy. lia.
      * assert (i = j) as -> by lia. assert (x = y) as -> by congruence. lia.
Qed.

Lemma BinaryQuicksortAtBit_spec a :
  Forall (in_range w) a ->
  exists a',
    BinaryQuicksortAtBit w true a 0 (Z.of_nat (length a)) (w - 1) = Some a' /\
    swaps_within 0 (Z.of_nat (length a)) a a' /\
    sorted_by_key w a' 0 (Z.of_nat (length a)).
Proof.
  intros Hall. unfold BinaryQuicksortAtBit.
  apply (quicksort_loop_spec _ a 0 _ (w - 1) 0); [lia..|].
  intros i x Hi Hx. replace (w - 1 + 1) with w by lia.
  split; [|by apply prefix_top].
  rewrite deref_lookup in Hx by lia.
  by apply (proj1 (Forall_lookup _ _) Hall _ _ Hx).
Qed.

End Quicksort.

(** ** Binary quicksort: the final rotation *)

Lemma StronglySorted_lookup {A} (R : A -> A -> Prop) (l : list A) :
  (forall i j x y, (i < j)%nat -> l !! i = Some x -> l !! j = Some y -> R x y) ->
  StronglySorted R l.
Proof.
  induction l as [|x l IH]; intros H; constructor.
  - apply IH. intros i j y z Hij Hy Hz. apply (H (S i) (S j)); [lia|done..].
  - apply Forall_lookup. intros j y Hy. apply (H O (S j)); [lia|done..].
Qed.

Lemma std_rotate_whole (a : list Z) p :
  0 <= p <= Z.of_nat (length a) ->
  std_rotate a 0 p (Z.of_nat (length a)) =
    drop (Z.to_nat p) a ++ take (Z.to_nat p) a.
Proof.
  intros Hp. unfold std_rotate. rewrite Nat2Z.id.
  change (Z.to_nat 0) with 0%nat. rewrite take_0, drop_0, app_nil_l.
  rewrite (drop_ge a (length a)), app_nil_r by lia. rewrite Z.sub_0_r.
  rewrite take_ge; [done|]. rewrite length_drop. lia.
Qed.

Section Rotate.
Context (w : Z) (Hw : 1 <= w).
Implicit Types (a : list Z).

Lemma rotate_loop_spec fuel : forall a itr,
  0 <= itr <= Z.of_nat (length a) ->
  Z.of_nat (length a) - itr <= Z.of_nat fuel ->
  (forall i x, 0 <= i < itr -> deref a i = Some x -> 0 <= x) ->
  exists a',
    rotate_loop w true fuel a 0 itr (Z.of_nat (length a)) = Some a' /\
    ((a' = a /\ forall i x, deref a i = Some x -> 0 <= x) \/
     exists p x,
       a' = drop (Z.to_nat p) a ++ take (Z.to_nat p) a /\
       deref a p = Some x /\ x < 0 /\
       forall i y, 0 <= i < p -> deref a i = Some y -> 0 <= y).
Proof.
  induction fuel as [|fuel IH]; intros a itr Hitr Hf Hnn.
  - assert (itr = Z.of_nat (length a)) as -> by lia. simpl.
    rewrite decide_True by done. exists a. split; [done|]. left.
    split; [done|]. intros i x Hx. apply (Hnn i); [|done].
    by apply deref_Some_range in Hx.
  - cbn [rotate_loop].
    destruct (decide (itr = Z.of_nat (length a))) as [->|Hne].
    + exists a. split; [done|]. left.
      split; [done|]. intros i x Hx. apply (Hnn i); [|done].
      by apply deref_Some_range in Hx.
    + assert (is_Some (deref a itr)) as [x Hx] by (apply deref_is_Some; lia).
      rewrite Hx. cbn [mbind option_bind]. rewrite to_T_0 by done.
      destruct (decide (x < 0)) as [Hneg|Hpos].
      * exists (std_rotate a 0 itr (Z.of_nat (length a))). split; [done|].
        right. exists itr, x. by rewrite std_rotate_whole by lia.
      * apply IH; [lia..|]. intros i y Hi Hy.
        destruct (decide (i = itr)) as [->|]; [simplify_eq; lia|].
        apply (Hnn i); [lia|done].
Qed.

(** Patterns in ascending order with the negative values rotated to
    the front: ascending order of the values. *)
Lemma rotate_sorted a a' :
  Forall (in_range w) a ->
  sorted_by_key w a 0 (Z.of_nat (length a)) ->
  RotateNegativeValues w true a 0 (Z.of_nat (length a)) = Some a' ->
  a ≡ₚ a' /\ StronglySorted Z.le a'.
Proof.
  intros Hall Hsorted. unfold RotateNegativeValues.
  destruct (rotate_loop_spec (Z.to_nat (Z.of_nat (length a) - 0)) a 0)
    as (a'' & Hr & Hcases); [lia..|intros; lia|].
  rewrite Hr. intros ?; simplify_eq.
  assert (Hrange : forall i x, a !! i = Some x -> in_range w x).
  { intros i x. apply (proj1 (Forall_lookup _ _) Hall). }
  assert (Hd : forall (i : nat), a !! i = deref a (Z.of_nat i)).
  { intros i. rewrite deref_lookup, Nat2Z.id; [done|lia]. }
  assert (Hkey : forall (i j : nat) x y, (i <= j)%nat ->
            a !! i = Some x -> a !! j = Some y -> ukey w x <= ukey w y).
  { intros i j x y Hij Hx Hy. pose proof (lookup_lt_Some _ _ _ Hy).
    apply (Hsorted (Z.of_nat i) (Z.of_nat j)); [lia|by rewrite <- Hd..]. }
  pose proof (pow2_w w Hw) as Hpw.
  pose proof (Z.pow_pos_nonneg 2 (w - 1) ltac:(lia) ltac:(lia)) as Hpp.
  destruct Hcases as [[-> Hnn]|(p & x & -> & Hx & Hneg & Hnn)].
  - split; [done|]. apply StronglySorted_lookup. intros i j y z Hij Hy Hz.
    pose proof (Hkey i j y z ltac:(lia) Hy Hz) as Hle.
    rewrite !ukey_nonneg in Hle; eauto.
    + apply (Hnn (Z.of_nat j)). by rewrite <- Hd.
    + apply (Hnn (Z.of_nat i)). by rewrite <- Hd.
  - pose proof (deref_Some_range _ _ _ Hx) as Hp.
    rewrite deref_lookup in Hx by lia.
    assert (Hnegs : forall i y, (Z.to_nat p <= i)%nat -> a !! i = Some y ->
              y < 0).
    { intros i y Hi Hy. pose proof (Hkey _ _ _ _ Hi Hx Hy) as Hle.
      destruct (decide (y < 0)); [done|].
      rewrite (ukey_neg w Hw x), (ukey_nonneg w Hw y) in Hle; eauto; [|lia].
      pose proof (Hrange _ _ Hx) as Hrx. pose proof (Hrange _ _ Hy) as Hry.
      unfold in_range in *. lia. }
    assert (Hposs : forall i y, (i < Z.to_nat p)%nat -> a !! i = Some y ->
              0 <= y).
    { intros i y Hi Hy. apply (Hnn (Z.of_nat i)); [lia|by rewrite <- Hd]. }
    split.
    { rewrite Permutation_app_comm. by rewrite take_drop. }
    apply StronglySorted_app. split_and!.
    + intros y z [i Hy]%list_elem_of_lookup [j Hz]%list_elem_of_lookup.
      rewrite lookup_drop in Hy.
      apply lookup_take_Some in Hz as [Hz Hj].
      pose proof (Hnegs (Z.to_nat p + i)%nat y ltac:(lia) Hy).
      pose proof (Hposs _ _ Hj Hz). lia.
    + apply StronglySorted_lookup. intros i j y z Hij Hy Hz.
      rewrite lookup_drop in Hy, Hz.
      pose proof (Hkey (Z.to_nat p + i)%nat (Z.to_nat p + j)%nat y z
                    ltac:(lia) Hy Hz) as Hle.
      rewrite !ukey_neg in Hle; eauto; [lia|..].
      * apply (Hnegs (Z.to_nat p + j)%nat); [lia|done].
      * apply (Hnegs (Z.to_nat p + i)%nat); [lia|done].
    + apply StronglySorted_lookup. intros i j y z Hij Hy Hz.
      apply lookup_take_Some in Hy as [Hy Hi].
      apply lookup_take_Some in Hz as [Hz Hj].
      pose proof (Hkey i j y z ltac:(lia) Hy Hz) as Hle.
      rewrite !ukey_nonneg in Hle; eauto.
Qed.

Lemma BinaryQuicksort_spec a :
  Forall (in_range w) a ->
  exists a',
    BinaryQuicksort w true a = Some a' /\ a ≡ₚ a' /\ StronglySorted Z.le a'.
Proof.
  intros Hall. unfold BinaryQuicksort.
  destruct (BinaryQuicksortAtBit_spec w Hw a Hall) as (a1 & Hq & Hsw & Hs).
  rewrite Hq. cbn [mbind option_bind].
  pose proof (swaps_within_length _ _ _ _ Hsw) as Hlen.
  pose proof (swaps_within_perm _ _ _ _ Hsw) as Hperm.
  assert (Hall1 : Forall (in_range w) a1) by (by rewrite <- Hperm).
  rewrite <- Hlen in *.
  destruct (rotate_loop_spec (Z.to_nat (Z.of_nat (length a1) - 0)) a1 0)
    as (a' & Hr & _); [lia..|intros; lia|].
  exists a'. split; [done|].
  destruct (rotate_sorted a1 a' Hall1 Hs Hr) as [Hp' Hsorted].
  split; [by etrans|done].
Qed.

End Rotate.

(** ** Results *)

Lemma strict_total_weak {A} (comp : A -> A -> bool) :
  StrictTotalOrder comp -> WeakOrder comp.
Proof.
  intros [Hirr Htrans Htot]. split.
  - intros x y Hxy. destruct (comp y x) eqn:Hyx; [|done].
    pose proof (Htrans _ _ _ Hxy Hyx). pose proof (Hirr x). congruence.
  - intros x y z Hxy Hyz. destruct (comp x z) eqn:Hxz; [|done].
    destruct (comp y x) eqn:Hyx.
    + pose proof (Htrans _ _ _ Hyx Hxz). congruence.
    + rewrite (Htot _ _ Hxy Hyx) in Hxz. congruence.
Qed.

Lemma Z_ltb_strict_total : StrictTotalOrder Z.ltb.
Proof. split; intros *; rewrite ?Z.ltb_lt, ?Z.ltb_ge; lia. Qed.

(** C1.  For every sequence whose length fits the 32-bit size type and
    every comparator that is a strict total order, [Smoothsort] returns,
    and the sequence it leaves is a permutation of the input in which no
    element is greater than a later one. *)
Theorem Smoothsort_sorts {A} (comp : A -> A -> bool) (l : list A) :
  StrictTotalOrder comp ->
  Z.of_nat (length l) < 2 ^ size_t_bits ->
  exists l',
    Smoothsort comp l = Some l' /\ l ≡ₚ l' /\
    StronglySorted (fun x y => comp y x = false) l'.
Proof.
  intros Hsto Hlen.
  destruct (Smoothsort_spec comp l Hlen) as (l' & Hs & Hp & Hsorted).
  exists l'. split_and!; [done..|]. by apply Hsorted, strict_total_weak.
Qed.

Lemma Smoothsort_sorts_witness :
  StrictTotalOrder Z.ltb /\
  Z.of_nat (length [5; 3; 4; 1; 2]) < 2 ^ size_t_bits /\
  exists l',
    Smoothsort Z.ltb [5; 3; 4; 1; 2] = Some l' /\ [5; 3; 4; 1; 2] ≡ₚ l' /\
    StronglySorted (fun x y => Z.ltb y x = false) l'.
Proof.
  assert (Hsto : StrictTotalOrder Z.ltb)
    by (split; intros *; rewrite ?Z.ltb_lt, ?Z.ltb_ge; lia).
  assert (Hlen : Z.of_nat (length [5; 3; 4; 1; 2]) < 2 ^ size_t_bits)
    by (vm_compute; reflexivity).
  split; [exact Hsto|]. split; [exact Hlen|].
  exact (Smoothsort_sorts Z.ltb [5; 3; 4; 1; 2] Hsto Hlen).
Defined.

(** C8.  [Smoothsort] returns for every sequence whose length fits the
    32-bit size type, whatever the comparator: none of its loops runs
    out of its bound and no iterator or table index leaves its range. *)
Theorem Smoothsort_terminates {A} (comp : A -> A -> bool) (l : list A) :
  Z.of_nat (length l) < 2 ^ size_t_bits ->
  exists l', Smoothsort comp l = Some l' /\ l ≡ₚ l'.
Proof.
  intros Hlen.
  destruct (Smoothsort_spec comp l Hlen) as (l' & Hs & Hp & _). by exists l'.
Qed.

Lemma Smoothsort_terminates_witness :
  Z.of_nat (length [true; false; true; true; false; false; true])
    < 2 ^ size_t_bits /\
  exists l',
    Smoothsort (fun _ _ => true) [true; false; true; true; false; false; true]
      = Some l' /\
    [true; false; true; true; false; false; true] ≡ₚ l'.
Proof.
  assert (Hlen : Z.of_nat (length [true; false; true; true; false; false; true])
                 < 2 ^ size_t_bits) by (vm_compute; reflexivity).
  split; [exact Hlen|].
  exact (Smoothsort_terminates (fun _ _ => true) _ Hlen).
Defined.

(** The bound on the iterations of the bubble-down loop does not matter
    once it reaches the order of the tree. *)
Lemma rebalance_loop_fuel {A} (comp : A -> A -> bool) k :
  forall fuel fuel' (a : list A) root,
  (k <= fuel)%nat -> (k <= fuel')%nat -> (k < 46)%nat ->
  rebalance_loop comp fuel a root (Z.of_nat k) =
  rebalance_loop comp fuel' a root (Z.of_nat k).
Proof.
  induction k as [| |k IH1 IH2] using nat_ind2; intros fuel fuel' a root Hf Hf' Hk.
  - by rewrite !rebalance_loop_leaf by lia.
  - by rewrite !rebalance_loop_leaf by lia.
  - destruct fuel as [|fuel]; [lia|]. destruct fuel' as [|fuel']; [lia|].
    cbn [rebalance_loop]. rewrite !decide_True by lia.
    destruct (FirstChild root (Z.of_nat (S (S k)))) as [first|];
      cbn [mbind option_bind]; [|done].
    destruct (deref a first) as [vf|]; cbn [mbind option_bind]; [|done].
    destruct (deref a (SecondChild root)) as [vs|];
      cbn [mbind option_bind]; [|done].
    rewrite !to_size_t_small by lia.
    replace (Z.of_nat (S (S k)) - 2) with (Z.of_nat k) by lia.
    replace (Z.of_nat (S (S k)) - 1) with (Z.of_nat (S k)) by lia.
    destruct (comp vf vs).
    + destruct (deref a root) as [vr|]; cbn [mbind option_bind]; [|done].
      destruct (deref a (SecondChild root)) as [vl|];
        cbn [mbind option_bind]; [|done].
      destruct (negb (comp vr vl)); [done|].
      destruct (iter_swap a root (SecondChild root)) as [a1|];
        cbn [mbind option_bind]; [|done].
      apply IH1; lia.
    + destruct (deref a root) as [vr|]; cbn [mbind option_bind]; [|done].
      destruct (deref a first) as [vl|]; cbn [mbind option_bind]; [|done].
      destruct (negb (comp vr vl)); [done|].
      destruct (iter_swap a root first) as [a1|];
        cbn [mbind option_bind]; [|done].
      apply IH2; lia.
Qed.

(** C6.  If both children of the tree of order [k] rooted at [root] are
    max-heaps, [RebalanceSingleHeap] returns and leaves a max-heap of
    order [k] rooted at [root], having moved elements only inside the
    tree.  Each iteration of its loop looks at the larger child (the
    second one, of order [k-2], when the first is smaller, else the first
    one, of order [k-1]), stops when the root is not smaller than that
    child, and otherwise swaps and goes on in that child. *)
Theorem RebalanceSingleHeap_restores_heap {A} (comp : A -> A -> bool)
    (a : list A) (k : nat) (root : Z) :
  WeakOrder comp ->
  (k < 46)%nat -> L k <= root + 1 -> root < Z.of_nat (length a) ->
  semi_heap comp a k root ->
  (exists a',
     RebalanceSingleHeap comp a root (Z.of_nat k) = Some a' /\
     is_heap comp a' k root /\
     swaps_within (root - L k + 1) (root + 1) a a') /\
  (forall k'' vf vs vr,
     k = S (S k'') ->
     deref a (root - 1 - L k'') = Some vf -> deref a (root - 1) = Some vs ->
     deref a root = Some vr ->
     RebalanceSingleHeap comp a root (Z.of_nat k) =
       if comp vf vs then
         if comp vr vs then
           a1 ← iter_swap a root (root - 1);
           RebalanceSingleHeap comp a1 (root - 1) (Z.of_nat k'')
         else Some a
       else
         if comp vr vf then
           a1 ← iter_swap a root (root - 1 - L k'');
           RebalanceSingleHeap comp a1 (root - 1 - L k'') (Z.of_nat (S k''))
         else Some a).
Proof.
  intros HW Hk Hlo Hhi Hsemi. split.
  - destruct (RebalanceSingleHeap_spec comp k a root) as (a' & Hr & Hsw & Hh);
      [done..|].
    exists a'. split_and!; [done| |done]. by apply Hh.
  - intros k'' vf vs vr -> Hvf Hvs Hvr. unfold RebalanceSingleHeap.
    rewrite !Nat2Z.id.
    destruct (comp vf vs) eqn:Hfs.
    + rewrite (rebalance_loop_step comp _ a root _ (root - 1 - L k'') vf vs vr vs);
        [|lia|by apply FirstChild_spec; lia|done|done|done|by rewrite Hfs].
      rewrite Hfs. destruct (comp vr vs); [|done].
      unfold SecondChild. destruct (iter_swap a root (root - 1)); [|done].
      cbn [mbind option_bind]. rewrite to_size_t_small by lia.
      replace (Z.of_nat (S (S k'')) - 2) with (Z.of_nat k'') by lia.
      apply rebalance_loop_fuel; lia.
    + rewrite (rebalance_loop_step comp _ a root _ (root - 1 - L k'') vf vs vr vf);
        [|lia|by apply FirstChild_spec; lia|done|done|done|by rewrite Hfs].
      rewrite Hfs. destruct (comp vr vf); [|done].
      destruct (iter_swap a root (root - 1 - L k'')); [|done].
      cbn [mbind option_bind]. rewrite to_size_t_small by lia.
      replace (Z.of_nat (S (S k'')) - 1) with (Z.of_nat (S k'')) by lia.
      apply rebalance_loop_fuel; lia.
Qed.

Lemma RebalanceSingleHeap_restores_heap_witness :
  WeakOrder Z.ltb /\ (2 < 46)%nat /\ L 2 <= 2 + 1 /\
  2 < Z.of_nat (length [7; 9; 1]) /\ semi_heap Z.ltb [7; 9; 1] 2 2 /\
  (exists a',
     RebalanceSingleHeap Z.ltb [7; 9; 1] 2 (Z.of_nat 2) = Some a' /\
     is_heap Z.ltb a' 2 2 /\ swaps_within (2 - L 2 + 1) (2 + 1) [7; 9; 1] a').
Proof.
  assert (HW : WeakOrder Z.ltb)
    by (split; intros *; rewrite ?Z.ltb_lt, ?Z.ltb_ge; lia).
  assert (Hk : (2 < 46)%nat) by lia.
  assert (Hlo : L 2 <= 2 + 1) by (vm_compute; discriminate).
  assert (Hhi : 2 < Z.of_nat (length [7; 9; 1])) by (vm_compute; reflexivity).
  assert (Hsemi : semi_heap Z.ltb [7; 9; 1] 2 2)
    by (vm_compute; repeat split; eexists; reflexivity).
  split_and!; [done..|].
  exact (proj1 (RebalanceSingleHeap_restores_heap Z.ltb [7; 9; 1] 2 2
                  HW Hk Hlo Hhi Hsemi)).
Defined.

(** C7, as the code has it.  [LargerChild] is a function of the sequence,
    the root and the order; it returns the second child exactly when the
    first child's value is smaller, so that on a tie (neither value
    smaller than the other) it returns the first child. *)
Theorem LargerChild_tie_first {A} (comp : A -> A -> bool)
    (a : list A) (root size first : Z) (vf vs : A) :
  FirstChild root size = Some first ->
  deref a first = Some vf -> deref a (SecondChild root) = Some vs ->
  LargerChild comp a root size =
    Some (if comp vf vs then SecondChild root else first) /\
  (comp vf vs = false -> comp vs vf = false ->
   LargerChild comp a root size = Some first).
Proof.
  intros Hf Hvf Hvs. unfold LargerChild.
  rewrite Hf. cbn [mbind option_bind]. rewrite Hvf, Hvs.
  cbn [mbind option_bind]. split; [done|]. by intros -> _.
Qed.

Lemma LargerChild_tie_first_witness :
  FirstChild 2 2 = Some 0 /\
  deref [1; 1; 2] 0 = Some 1 /\ deref [1; 1; 2] (SecondChild 2) = Some 1 /\
  (LargerChild Z.ltb [1; 1; 2] 2 2 =
     Some (if Z.ltb 1 1 then SecondChild 2 else 0) /\
   (Z.ltb 1 1 = false -> Z.ltb 1 1 = false ->
    LargerChild Z.ltb [1; 1; 2] 2 2 = Some 0)).
Proof.
  assert (Hf : FirstChild 2 2 = Some 0) by reflexivity.
  assert (Hvf : deref [1; 1; 2] 0 = Some 1) by reflexivity.
  assert (Hvs : deref [1; 1; 2] (SecondChild 2) = Some 1) by reflexivity.
  split; [exact Hf|]. split; [exact Hvf|]. split; [exact Hvs|].
  exact (LargerChild_tie_first Z.ltb [1; 1; 2] 2 2 0 1 1 Hf Hvf Hvs).
Defined.

(** C7, as the claim states it, fails: in the order-2 tree [1; 1; 2] both
    children hold the value 1, and [LargerChild] returns the first child
    (position 0), not the second (position 1). *)
Lemma LargerChild_tie_not_second :
  FirstChild 2 2 = Some 0 /\
  deref [1; 1; 2] 0 = Some 1 /\ deref [1; 1; 2] (SecondChild 2) = Some 1 /\
  Z.ltb 1 1 = false /\
  LargerChild Z.ltb [1; 1; 2] 2 2 = Some 0 /\
  LargerChild Z.ltb [1; 1; 2] 2 2 <> Some (SecondChild 2).
Proof. by vm_compute. Qed.

(** C9, as the code has it.  The table starts 1, 1, every later entry is
    the sum of the two before it plus 1, and its 46 entries are exactly
    the Leonardo numbers that fit in 32 bits: the next one, 5942430145,
    does not.  So every tree of a forest over a sequence whose length
    fits in 32 bits has its order in the table. *)
Theorem kLeonardoNumbers_table :
  kLeonardoNumbers !! 0%nat = Some 1 /\
  kLeonardoNumbers !! 1%nat = Some 1 /\
  (forall k : nat, (k + 2 < 46)%nat ->
     exists x y z,
       kLeonardoNumbers !! k = Some x /\
       kLeonardoNumbers !! (k + 1)%nat = Some y /\
       kLeonardoNumbers !! (k + 2)%nat = Some z /\ z = y + x + 1) /\
  Z.of_nat (length kLeonardoNumbers) = kNumLeonardoNumbers /\
  (forall k : nat,
     L k < 2 ^ size_t_bits <-> leonardo_at (Z.of_nat k) = Some (L k)) /\
  L 46 = 5942430145 /\
  (forall os : list nat,
     forest_size os < 2 ^ size_t_bits ->
     forall k, k ∈ os -> leonardo_at (Z.of_nat k) = Some (L k)).
Proof.
  split_and!; [done|done| |done| |apply L_46|].
  - intros k Hk. exists (L k), (L (k + 1)), (L (k + 2)).
    rewrite !kLeonardoNumbers_lookup by lia.
    split_and!; [done..|].
    replace (k + 2)%nat with (S (S k)) by lia.
    replace (k + 1)%nat with (S k) by lia. apply L_SS.
  - intros k. split.
    + intros Hk. apply leonardo_at_L. by apply L_small_order.
    + intros Hk. apply leonardo_at_Some in Hk as [Hk _].
      apply L_lt_size. lia.
  - intros os Hsz k Hk. apply leonardo_at_L.
    apply (orders_ok_elem os); [|done]. by apply forest_orders_ok.
Qed.

(** C9, as the claim states it, fails: the length [2^32 - 1] fits the
    32-bit size type, and every entry of the table is smaller. *)
Lemma kLeonardoNumbers_below_max_size :
  0 <= 4294967295 < 2 ^ size_t_bits /\
  Forall (fun x => x < 4294967295) kLeonardoNumbers /\
  ~ exists x, x ∈ kLeonardoNumbers /\ 4294967295 <= x.
Proof.
  assert (Hall : Forall (fun x => x < 4294967295) kLeonardoNumbers).
  { unfold kLeonardoNumbers. repeat (constructor; [done|]). constructor. }
  split_and!; [done..|].
  intros (x & Hx & Hle).
  assert (x < 4294967295) by exact (proj1 (Forall_forall _ _) Hall x Hx).
  lia.
Qed.

(** C10.  For a signed type of [w >= 1] bits, [BinaryQuicksort] returns
    for every sequence of its values; the radix partitioning leaves the
    bit patterns in ascending order (so the negative values, whose sign
    bit is set, after the others), and the final rotation leaves a
    permutation of the input in ascending order of the values. *)
Theorem BinaryQuicksort_sorts_signed (w : Z) (l : list Z) :
  1 <= w -> Forall (in_range w) l ->
  exists l1 l',
    BinaryQuicksortAtBit w true l 0 (Z.of_nat (length l)) (w - 1) = Some l1 /\
    sorted_by_key w l1 0 (Z.of_nat (length l)) /\
    RotateNegativeValues w true l1 0 (Z.of_nat (length l)) = Some l' /\
    BinaryQuicksort w true l = Some l' /\
    l ≡ₚ l' /\ StronglySorted Z.le l'.
Proof.
  intros Hw Hall.
  destruct (BinaryQuicksortAtBit_spec w Hw l Hall) as (l1 & Hq & Hsw & Hs).
  destruct (BinaryQuicksort_spec w Hw l Hall) as (l' & Hb & Hp & Hsorted).
  exists l1, l'. split_and!; [done|done| |done..].
  unfold BinaryQuicksort in Hb. rewrite Hq in Hb. exact Hb.
Qed.

Lemma BinaryQuicksort_sorts_signed_witness :
  1 <= 8 /\ Forall (in_range 8) [3; -1; 4; -128; 127; 0; -5] /\
  exists l1 l',
    BinaryQuicksortAtBit 8 true [3; -1; 4; -128; 127; 0; -5] 0
      (Z.of_nat (length [3; -1; 4; -128; 127; 0; -5])) (8 - 1) = Some l1 /\
    sorted_by_key 8 l1 0 (Z.of_nat (length [3; -1; 4; -128; 127; 0; -5])) /\
    RotateNegativeValues 8 true l1 0
      (Z.of_nat (length [3; -1; 4; -128; 127; 0; -5])) = Some l' /\
    BinaryQuicksort 8 true [3; -1; 4; -128; 127; 0; -5] = Some l' /\
    [3; -1; 4; -128; 127; 0; -5] ≡ₚ l' /\ StronglySorted Z.le l'.
Proof.
  assert (Hw : 1 <= 8) by lia.
  assert (Hall : Forall (in_range 8) [3; -1; 4; -128; 127; 0; -5]).
  { repeat (constructor; [unfold in_range; simpl; lia|]). constructor. }
  split; [exact Hw|]. split; [exact Hall|].
  exact (BinaryQuicksort_sorts_signed 8 [3; -1; 4; -128; 127; 0; -5] Hw Hall).
Defined.

(** ** Final positions *)

Lemma forest_trees_app G os e :
  forest_trees (G ++ os) e
  = forest_trees G e ++ forest_trees os (e - forest_size G).
Proof.
  revert e. induction G as [|t G IH]; intros e; simpl.
  - by rewrite Z.sub_0_r.
  - rewrite IH. do 3 f_equal. lia.
Qed.

Lemma forest_trees_end os e k' e' : (k', e') ∈ forest_trees os e -> e' <= e.
Proof.
  revert e. induction os as [|k os IH]; intros e; simpl.
  - by intros ?%elem_of_nil.
  - intros [[= -> ->]|Hin%IH]%elem_of_cons; [lia|].
    pose proof (L_pos k). lia.
Qed.

Lemma straddled_not_end os e m k :
  straddled os e m -> (k, m) ∉ forest_trees os e.
Proof.
  revert e. induction os as [|k0 os IH]; intros e (k' & e' & Hin & Hm); simpl in *.
  - by apply elem_of_nil in Hin.
  - intros Hk. pose proof (L_pos k0).
    apply elem_of_cons in Hin as [Hin|Hin];
      apply elem_of_cons in Hk as [Hk|Hk]; simplify_eq;
      try (pose proof (forest_trees_end _ _ _ _ Hin));
      try (pose proof (forest_trees_end _ _ _ _ Hk)); try lia.
    by apply (IH (e - L k0)); [exists k', e'|].
Qed.

Lemma straddled_add_orders os e m :
  straddled os e m -> straddled (add_orders os) (e + 1) m.
Proof.
  intros (k' & e' & Hin & Hm).
  destruct (add_orders_cases os) as [(k & r & -> & ->)|(_ & k0 & Hk0 & ->)].
  - simpl in Hin. rewrite !elem_of_cons in Hin.
    pose proof (L_pos k). pose proof (L_pos (S k)).
    destruct Hin as [[= -> ->]|[[= -> ->]|Hin]].
    + exists (S (S k)), (e + 1). split; [simpl; left|rewrite L_SS; lia].
    + exists (S (S k)), (e + 1). split; [simpl; left|rewrite L_SS; lia].
    + exists k', e'. split; [|done]. simpl. right.
      by replace (e + 1 - L (S (S k))) with (e - L k - L (S k))
        by (rewrite L_SS; lia).
  - exists k', e'. split; [|done]. simpl. right.
    replace (e + 1 - L k0) with e; [done|].
    destruct Hk0 as [-> | ->]; rewrite ?L_0, ?L_1; lia.
Qed.

Lemma straddled_iter (j : nat) os e m :
  straddled os e m -> straddled (Nat.iter j add_orders os) (e + Z.of_nat j) m.
Proof.
  induction j as [|j IH]; intros Hs.
  - by rewrite Z.add_0_r.
  - rewrite Nat.iter_succ.
    replace (e + Z.of_nat (S j)) with (e + Z.of_nat j + 1) by lia.
    by apply straddled_add_orders, IH.
Qed.

Lemma add_orders_app G k rest :
  G <> [] -> (forall t, G = [t] -> k <> S t) ->
  add_orders (G ++ k :: rest) = add_orders G ++ k :: rest.
Proof.
  destruct G as [|t [|t' G]]; [done| |]; intros _ Ht; simpl.
  - rewrite decide_False by (by apply Ht). by case_decide.
  - by repeat case_decide.
Qed.

Lemma final_forest_S n : final_forest (S n) = add_orders (final_forest n).
Proof. done. Qed.

Lemma final_forest_size n : forest_size (final_forest n) = Z.of_nat n.
Proof.
  induction n as [|n IH]; [done|].
  rewrite final_forest_S, forest_size_add_orders. lia.
Qed.

Lemma final_forest_ok n : shape_ok (final_forest n).
Proof.
  induction n as [|n IH]; [done|].
  rewrite final_forest_S. by apply shape_ok_add_orders.
Qed.

Lemma final_forest_add (j m : nat) :
  final_forest (j + m) = Nat.iter j add_orders (final_forest m).
Proof. unfold final_forest. by rewrite Nat.iter_add. Qed.

(** New trees grow on top of a tree of order [k >= 2] as on the empty
    forest, as long as at most [L (k - 1)] elements are added. *)
Lemma iter_on_top k rest (j : nat) :
  ~ consecutive (S (S k) :: rest) -> Z.of_nat j <= L (S k) ->
  Nat.iter j add_orders (S (S k) :: rest)
  = final_forest j ++ S (S k) :: rest.
Proof.
  intros Hnc. induction j as [|j IH]; intros Hj; [done|].
  rewrite Nat.iter_succ, IH by lia. rewrite final_forest_S.
  destruct j as [|j].
  - simpl. destruct rest as [|k' rest]; [done|].
    rewrite decide_False; [done|]. intros ->. by apply Hnc.
  - apply add_orders_app.
    + intros Hnil. pose proof (final_forest_size (S j)) as Hs.
      rewrite Hnil in Hs. simpl in Hs. lia.
    + intros t Ht [= <-]. pose proof (final_forest_size (S j)) as Hs.
      rewrite Ht in Hs. simpl in Hs. lia.
Qed.

Lemma final_forest_L t :
  final_forest (Z.to_nat (L (S t))) = [S t] /\
  final_forest (Z.to_nat (L (S (S t)))) = [S (S t)].
Proof.
  induction t as [|t [IH1 IH2]]; [by vm_compute|].
  split; [done|].
  pose proof (L_pos (S t)). pose proof (L_pos (S (S t))).
  replace (Z.to_nat (L (S (S (S t)))))
    with (S (Z.to_nat (L (S t)) + Z.to_nat (L (S (S t)))))%nat
    by (rewrite (L_SS (S t)); lia).
  rewrite final_forest_S, final_forest_add, IH2.
  rewrite iter_on_top; [|by intros []|lia].
  rewrite IH1. simpl. by rewrite decide_True.
Qed.

Lemma consecutive_or_not os : consecutive os \/ ~ consecutive os.
Proof.
  destruct os as [|k [|k' os]]; [right; by intros []..|]. simpl.
  destruct (decide (k' = S k)); [by left|by right].
Qed.

(** The rightmost tree of the forest after [m] inserts is a tree of the
    forest after [n >= m] inserts exactly if it is settled and does not
    stand next to a tree of the next order, unless [n = m]. *)
Lemma final_position_settled (m n : nat) k rest :
  final_forest m = k :: rest -> (m <= n)%nat ->
  in_final_position n (k :: rest) (Z.of_nat m) <->
  settled (Z.of_nat n) k (Z.of_nat m) /\
  (consecutive (k :: rest) -> Z.of_nat n = Z.of_nat m).
Proof.
  intros Hos Hmn. pose proof (final_forest_ok m) as Hok. rewrite Hos in Hok.
  unfold in_final_position, settled.
  replace n with ((n - m) + m)%nat at 1 by lia.
  rewrite final_forest_add, Hos.
  destruct (decide (n = m)) as [->|Hne].
  { rewrite Nat.sub_diag. simpl. pose proof (thr_pos k).
    split; [intros _; split; [lia|done]|intros _; left]. }
  assert (Hgone : forall (c : nat) os',
            (c <= n - m)%nat -> Nat.iter c add_orders (k :: rest) = os' ->
            straddled os' (Z.of_nat m + Z.of_nat c) (Z.of_nat m) ->
            (k, Z.of_nat m)
              ∉ forest_trees (Nat.iter (n - m) add_orders (k :: rest))
                  (Z.of_nat n)).
  { intros c os' Hc <- Hs. apply straddled_not_end.
    replace (n - m)%nat with ((n - m - c) + c)%nat by lia.
    rewrite Nat.iter_add.
    replace (Z.of_nat n)
      with (Z.of_nat m + Z.of_nat c + Z.of_nat (n - m - c)) by lia.
    by apply straddled_iter. }
  destruct (consecutive_or_not (k :: rest)) as [Hc|Hnc].
  { split; [|intros [_ Hn]; specialize (Hn Hc); lia]. intros Hin. exfalso.
    destruct rest as [|k1 rest]; [done|]. simpl in Hc. subst k1.
    revert Hin. apply (Hgone 1%nat (S (S k) :: rest)); [lia| |].
    - simpl. by rewrite decide_True.
    - exists (S (S k)), (Z.of_nat m + 1). split; [left|].
      rewrite L_SS. pose proof (L_pos k). pose proof (L_pos (S k)). lia. }
  destruct k as [|[|k]].
  - exfalso. destruct rest as [|k1 rest]; [done|].
    destruct Hok as (_ & H0 & _). apply Hnc. simpl. by apply H0.
  - cbn [thr]. rewrite L_0.
    assert (Hadd1 : add_orders (1%nat :: rest) = O :: 1%nat :: rest).
    { destruct rest as [|k1 rest]; [done|]. simpl.
      rewrite decide_False; [done|]. intros ->. by apply Hnc. }
    destruct (decide (n - m = 1)%nat) as [H1|H1].
    + rewrite H1.
      change (Nat.iter 1 add_orders (1%nat :: rest))
        with (add_orders (1%nat :: rest)).
      rewrite Hadd1. simpl. rewrite L_0.
      replace (Z.of_nat n - 1) with (Z.of_nat m) by lia.
      split; [intros _; split; [lia|done]|intros _; right; left].
    + split; [|lia]. intros Hin. exfalso. revert Hin.
      apply (Hgone 2%nat (2%nat :: rest)); [lia| |].
      * change (Nat.iter 2 add_orders (1%nat :: rest))
          with (add_orders (add_orders (1%nat :: rest))).
        rewrite Hadd1. simpl. by rewrite ?decide_True.
      * exists 2%nat, (Z.of_nat m + 2). split; [left|].
        change (L 2) with 3. lia.
  - cbn [thr]. pose proof (L_pos (S k)) as HL.
    destruct (decide (Z.of_nat (n - m) <= L (S k))) as [Hle|Hgt].
    + rewrite iter_on_top by done. rewrite forest_trees_app, final_forest_size.
      replace (Z.of_nat n - Z.of_nat (n - m)) with (Z.of_nat m) by lia.
      split; [intros _; split; [lia|done]|intros _].
      apply elem_of_app. right. left.
    + split; [|lia]. intros Hin. exfalso. revert Hin.
      apply (Hgone (S (Z.to_nat (L (S k)))) (S (S (S k)) :: rest)); [lia| |].
      * rewrite Nat.iter_succ, iter_on_top by (done || lia).
        rewrite (proj1 (final_forest_L k)). simpl. by rewrite decide_True.
      * exists (S (S (S k))), (Z.of_nat m + Z.of_nat (S (Z.to_nat (L (S k))))).
        split; [left|]. rewrite (L_SS (S k)). pose proof (L_pos (S (S k))). lia.
Qed.

(** ** The states of a run *)

Section States.
Context {A : Type} (comp : A -> A -> bool).
Implicit Types (l a : list A).

Lemma Smoothsort_states l :
  (2 <= length l)%nat ->
  Smoothsort comp l = fst <$> extract_state comp l (length l).
Proof.
  intros Hl. unfold Smoothsort, extract_state, build_state.
  rewrite decide_False by lia.
  destruct (build_steps _ _ _ _ _ _ _) as [[a1 shape1]|]; [|done].
  cbn [mbind option_bind].
  by destruct (extract_steps _ _ _ _ _ _) as [[a2 shape2]|].
Qed.

Lemma build_state_inv l (j : nat) :
  Z.of_nat (length l) < 2 ^ 32 -> (j <= length l)%nat ->
  exists a shape os,
    build_state comp l j = Some (a, shape) /\
    shape_inv shape os (Z.of_nat j) /\ length a = length l /\ l ≡ₚ a /\
    (WeakOrder comp ->
     build_order_inv comp (Z.of_nat (length l)) a os (Z.of_nat j)).
Proof.
  intros Hn Hj. unfold build_state.
  destruct (build_steps_spec comp j l empty_shape [] 0 (Z.of_nat (length l)))
    as (a & shape & os & Hb & Hinv & Hsw & Hord);
    [apply shape_inv_empty|lia|lia|done|done|].
  exists a, shape, os. rewrite Z.add_0_l in *.
  split_and!; [done|done|by eapply swaps_within_length
              |by eapply swaps_within_perm|].
  intros HW. by apply Hord, build_order_inv_empty.
Qed.

(** After [j] inserts the forest is the [j]-fold shape update of the
    empty forest. *)
Lemma build_steps_orders steps : forall a shape os m n a' shape',
  shape_inv shape os m -> 0 <= m -> m + Z.of_nat steps <= n ->
  n = Z.of_nat (length a) -> n < 2 ^ 32 ->
  build_steps comp steps a 0 m n shape = Some (a', shape') ->
  shape_inv shape' (Nat.iter steps add_orders os) (m + Z.of_nat steps).
Proof.
  induction steps as [|steps IH];
    intros a shape os m n a' shape' Hinv Hm Hmn Hn Hn32.
  - cbn [build_steps]. intros [= _ <-]. by rewrite Z.add_0_r.
  - cbn [build_steps]. rewrite decide_False by lia.
    destruct (LeonardoHeapAdd_spec comp a shape os m n)
      as (a1 & Hadd & Hinv1 & Hsw1 & _); [done|lia|done|done|].
    rewrite Hadd. cbn [mbind option_bind]. intros Hb.
    rewrite Nat.iter_succ_r.
    replace (m + Z.of_nat (S steps)) with (m + 1 + Z.of_nat steps) by lia.
    apply (IH a1 (shape_add shape) (add_orders os) (m + 1) n a' shape');
      [done|lia|lia|by rewrite (swaps_within_length _ _ _ _ Hsw1)|done|done].
Qed.

Lemma build_state_orders l (j : nat) a shape :
  Z.of_nat (length l) < 2 ^ 32 -> (j <= length l)%nat ->
  build_state comp l j = Some (a, shape) ->
  shape_inv shape (final_forest j) (Z.of_nat j) /\
  shape_orders shape = final_forest j.
Proof.
  intros Hn Hj Hb.
  assert (Hinv : shape_inv shape (final_forest j) (Z.of_nat j)).
  { apply (build_steps_orders j l empty_shape [] 0 (Z.of_nat (length l))
             a shape); [apply shape_inv_empty|lia|lia|done|done|done]. }
  split; [done|]. apply (shape_inv_orders _ _ _ Hinv). lia.
Qed.

Lemma extract_state_inv l (r : nat) :
  Z.of_nat (length l) < 2 ^ 32 -> (r <= length l)%nat ->
  exists a shape os,
    extract_state comp l r = Some (a, shape) /\
    shape_inv shape os (Z.of_nat (length l) - Z.of_nat r) /\
    length a = length l /\ l ≡ₚ a /\
    (WeakOrder comp ->
     heaps comp a os (Z.of_nat (length l) - Z.of_nat r) /\
     roots_sorted comp a os (Z.of_nat (length l) - Z.of_nat r) /\
     final_inv comp (Z.of_nat (length l)) a
       (Z.of_nat (length l) - Z.of_nat r)).
Proof.
  intros Hn Hr. unfold extract_state.
  destruct (build_state_inv l (length l) Hn ltac:(lia))
    as (a1 & shape1 & os1 & Hb & Hinv1 & Hlen1 & Hperm1 & Hord1).
  rewrite Hb. cbn [mbind option_bind].
  destruct (extract_steps_spec comp r a1 shape1 os1 (Z.of_nat (length l))
              (Z.of_nat (length l)))
    as (a & shape & os & He & Hinv & Hsw & Hord);
    [done|lia|lia|lia|done|].
  exists a, shape, os.
  split_and!; [done|done|by rewrite (swaps_within_length _ _ _ _ Hsw)| |].
  - etrans; [done|]. by eapply swaps_within_perm.
  - intros HW. specialize (Hord1 HW). apply Hord; [done| | |].
    + by destruct Hord1.
    + by apply build_order_inv_done.
    + intros i j Hi. lia.
Qed.

End States.

(** C2, as the code has it.  After every completed insert and every
    completed remove of a [Smoothsort] run the trees of the forest cover
    the active prefix and each of them is a max-heap.  Read left to right
    the roots are in non-decreasing order after every remove, after the
    last insert and, more generally, after every insert whose new
    rightmost tree is in its final position: the tree is settled and,
    unless the insert is the last one, does not stand next to a tree of
    the next order.  After any insert the roots are in non-decreasing
    order from every settled tree leftwards. *)
Theorem forest_invariant {A} (comp : A -> A -> bool) (l : list A) :
  WeakOrder comp -> Z.of_nat (length l) < 2 ^ size_t_bits ->
  (forall j : nat, (j <= length l)%nat ->
     exists a shape,
       build_state comp l j = Some (a, shape) /\
       forest_size (shape_orders shape) = Z.of_nat j /\
       heaps comp a (shape_orders shape) (Z.of_nat j) /\
       (j = length l ->
        roots_sorted comp a (shape_orders shape) (Z.of_nat j)) /\
       (in_final_position (length l) (shape_orders shape) (Z.of_nat j) ->
        roots_sorted comp a (shape_orders shape) (Z.of_nat j)) /\
       (forall k rest, shape_orders shape = k :: rest ->
          (settled (Z.of_nat (length l)) k (Z.of_nat j) ->
           (consecutive (k :: rest) -> j = length l) ->
           roots_sorted comp a (k :: rest) (Z.of_nat j)) /\
          sorted_where comp (settled (Z.of_nat (length l))) a rest
            (Z.of_nat j - L k))) /\
  (forall r : nat, (r <= length l)%nat ->
     exists a shape,
       extract_state comp l r = Some (a, shape) /\
       forest_size (shape_orders shape) = Z.of_nat (length l - r) /\
       heaps comp a (shape_orders shape) (Z.of_nat (length l - r)) /\
       roots_sorted comp a (shape_orders shape) (Z.of_nat (length l - r))).
Proof.
  intros HW Hn. unfold size_t_bits in Hn. split.
  - intros j Hj.
    destruct (build_state_inv comp l j Hn Hj)
      as (a & shape & os & Hb & Hinv & _ & _ & Hord).
    destruct (build_state_orders comp l j a shape Hn Hj Hb) as [_ Hff].
    exists a, shape. rewrite (shape_inv_orders _ _ _ Hinv) in * by lia.
    specialize (Hord HW).
    assert (Hcl : forall k rest, os = k :: rest ->
              (settled (Z.of_nat (length l)) k (Z.of_nat j) ->
               (consecutive (k :: rest) -> j = length l) ->
               roots_sorted comp a (k :: rest) (Z.of_nat j)) /\
              sorted_where comp (settled (Z.of_nat (length l))) a rest
                (Z.of_nat j - L k)).
    { intros k rest ->. destruct Hord as [_ [Hs Hw]]. split; [|done].
      intros Hset Hc. apply Hs; [done|]. intros Hcons.
      by rewrite (Hc Hcons). }
    split_and!; [done|by destruct Hinv as (_ & _ & ?)| | | |done].
    + by destruct Hord.
    + intros ->. by apply build_order_inv_done.
    + destruct os as [|k rest]; [done|]. intros Hfin.
      apply (final_position_settled j (length l) k rest) in Hfin
        as [Hset Hc]; [|done|lia].
      apply (Hcl k rest); [done..|]. intros Hcons. specialize (Hc Hcons). lia.
  - intros r Hr.
    destruct (extract_state_inv comp l r Hn Hr)
      as (a & shape & os & He & Hinv & _ & _ & Hord).
    replace (Z.of_nat (length l - r)) with (Z.of_nat (length l) - Z.of_nat r)
      by lia.
    exists a, shape. rewrite (shape_inv_orders _ _ _ Hinv) by lia.
    destruct (Hord HW) as (Hh & Hs & _).
    split_and!; [done|by destruct Hinv as (_ & _ & ?)|done..].
Qed.

Lemma forest_invariant_witness :
  WeakOrder Z.ltb /\ Z.of_nat (length [5; 3; 4; 1; 2]) < 2 ^ size_t_bits /\
  exists a shape,
    build_state Z.ltb [5; 3; 4; 1; 2] 5 = Some (a, shape) /\
    forest_size (shape_orders shape) = Z.of_nat 5 /\
    heaps Z.ltb a (shape_orders shape) (Z.of_nat 5) /\
    (5%nat = length [5; 3; 4; 1; 2] ->
     roots_sorted Z.ltb a (shape_orders shape) (Z.of_nat 5)) /\
    (in_final_position (length [5; 3; 4; 1; 2]) (shape_orders shape)
       (Z.of_nat 5) ->
     roots_sorted Z.ltb a (shape_orders shape) (Z.of_nat 5)) /\
    (forall k rest, shape_orders shape = k :: rest ->
       (settled (Z.of_nat (length [5; 3; 4; 1; 2])) k (Z.of_nat 5) ->
        (consecutive (k :: rest) -> 5%nat = length [5; 3; 4; 1; 2]) ->
        roots_sorted Z.ltb a (k :: rest) (Z.of_nat 5)) /\
       sorted_where Z.ltb (settled (Z.of_nat (length [5; 3; 4; 1; 2]))) a rest
         (Z.of_nat 5 - L k)).
Proof.
  assert (HW : WeakOrder Z.ltb)
    by (split; intros *; rewrite ?Z.ltb_lt, ?Z.ltb_ge; lia).
  assert (Hlen : Z.of_nat (length [5; 3; 4; 1; 2]) < 2 ^ size_t_bits)
    by (vm_compute; reflexivity).
  split; [exact HW|]. split; [exact Hlen|].
  exact (proj1 (forest_invariant Z.ltb [5; 3; 4; 1; 2] HW Hlen) 5%nat
           (le_n 5)).
Defined.

(** C2, as the claim states it, fails.  On [1; 2] the build phase ends
    with the trees of orders 1 and 0 rooted at positions 0 and 1, holding
    1 and 2: read left to right the roots increase.  The same forest
    stands after the second remove on [1; 2; 3; 4].  And an insert whose
    new tree is not in its final position need not order the roots at
    all.  On [2; 1; 3] the second insert, which only rebalances the new
    tree, leaves the roots 2 and 1.  On the 24 elements below the 23rd
    insert builds a tree of order 2 that is settled but stands next to
    the tree of order 3; it runs the full rectify and still leaves the
    roots 114, 5 and 202. *)
Lemma roots_not_nonincreasing :
  (build_state Z.ltb [1; 2] 2 = Some ([1; 2], mkShape 3 0) /\
   shape_orders (mkShape 3 0) = [0; 1]%nat /\
   ~ roots_nonincreasing Z.ltb [1; 2] [0; 1]%nat 2) /\
  (extract_state Z.ltb [1; 2; 3; 4] 2 = Some ([1; 2; 3; 4], mkShape 3 0) /\
   ~ roots_nonincreasing Z.ltb [1; 2; 3; 4] [0; 1]%nat 2) /\
  (build_state Z.ltb [2; 1; 3] 2 = Some ([2; 1; 3], mkShape 3 0) /\
   ~ settled 3 0 2 /\
   ~ roots_sorted Z.ltb [2; 1; 3] [0; 1]%nat 2) /\
  (let l := [100; 101; 102; 103; 104; 105; 106; 107; 108; 109; 110; 111;
             112; 113; 114; 1; 2; 3; 4; 5; 200; 201; 202; 300] in
   build_state Z.ltb l 22 = Some (l, mkShape 43 0) /\
   add_isLast 22 24 (shape_add (mkShape 43 0)) = Some true /\
   build_state Z.ltb l 23 = Some (l, mkShape 11 2) /\
   shape_orders (mkShape 11 2) = [2; 3; 5]%nat /\
   settled 24 2 23 /\ consecutive [2; 3; 5]%nat /\
   ~ in_final_position 24 [2; 3; 5]%nat 23 /\
   ~ roots_sorted Z.ltb l [2; 3; 5]%nat 23).
Proof.
  cbv zeta. split_and!; try (vm_compute; reflexivity).
  - vm_compute. by intros [? _].
  - vm_compute. by intros [? _].
  - unfold settled. simpl. lia.
  - vm_compute. by intros [? _].
  - unfold in_final_position.
    replace (final_forest 24) with [4; 5]%nat by (vm_compute; reflexivity).
    cbn [forest_trees]. rewrite !elem_of_cons, elem_of_nil.
    intros [[=]|[[=]|[]]].
  - vm_compute. by intros [_ [? _]].
Qed.

(** C3.  Whenever the second phase of [Smoothsort] calls
    [LeonardoHeapRemove] on the active range of length [m > 0], the
    element at position [m - 1] is not smaller than any element of the
    range; the call returns, every swap it makes is confined to the
    positions below [m - 1], and position [m - 1] keeps its element. *)
Theorem remove_keeps_maximum {A} (comp : A -> A -> bool) (l : list A)
    (r : nat) (a : list A) (shape : HeapShape) :
  WeakOrder comp -> Z.of_nat (length l) < 2 ^ size_t_bits ->
  (r < length l)%nat ->
  extract_state comp l r = Some (a, shape) ->
  let m := Z.of_nat (length l) - Z.of_nat r in
  (forall i, 0 <= i < m -> ge_at comp a (m - 1) i) /\
  exists a' shape',
    LeonardoHeapRemove comp a 0 m shape = Some (a', shape') /\
    swaps_within 0 (m - 1) a a' /\
    deref a' (m - 1) = deref a (m - 1).
Proof.
  intros HW Hn Hr He m. unfold size_t_bits in Hn.
  destruct (extract_state_inv comp l r Hn ltac:(lia))
    as (a0 & shape0 & os & He' & Hinv & Hlen & _ & Hord).
  rewrite He in He'. simplify_eq. fold m in Hinv, Hord.
  destruct (Hord HW) as (Hh & Hs & _).
  split.
  - intros i Hi. apply (forest_max comp a0 os m); [done..|].
    destruct Hinv as (_ & _ & ->). lia.
  - destruct (LeonardoHeapRemove_spec comp a0 shape0 os m)
      as (a' & shape' & Hrem & _ & Hsw & _); [done|lia|lia|].
    exists a', shape'. split_and!; [done..|].
    apply (swaps_within_outside _ _ _ _ _ Hsw). lia.
Qed.

Lemma remove_keeps_maximum_witness :
  WeakOrder Z.ltb /\ Z.of_nat (length [5; 3; 4; 1; 2]) < 2 ^ size_t_bits /\
  (1 < length [5; 3; 4; 1; 2])%nat /\
  extract_state Z.ltb [5; 3; 4; 1; 2] 1 = Some ([2; 1; 3; 4; 5], mkShape 3 1) /\
  let m := Z.of_nat (length [5; 3; 4; 1; 2]) - Z.of_nat 1 in
  (forall i, 0 <= i < m -> ge_at Z.ltb [2; 1; 3; 4; 5] (m - 1) i) /\
  exists a' shape',
    LeonardoHeapRemove Z.ltb [2; 1; 3; 4; 5] 0 m (mkShape 3 1)
      = Some (a', shape') /\
    swaps_within 0 (m - 1) [2; 1; 3; 4; 5] a' /\
    deref a' (m - 1) = deref [2; 1; 3; 4; 5] (m - 1).
Proof.
  assert (HW : WeakOrder Z.ltb)
    by (split; intros *; rewrite ?Z.ltb_lt, ?Z.ltb_ge; lia).
  assert (Hlen : Z.of_nat (length [5; 3; 4; 1; 2]) < 2 ^ size_t_bits)
    by (vm_compute; reflexivity).
  assert (Hr : (1 < length [5; 3; 4; 1; 2])%nat) by (simpl; lia).
  assert (He : extract_state Z.ltb [5; 3; 4; 1; 2] 1
               = Some ([2; 1; 3; 4; 5], mkShape 3 1))
    by (vm_compute; reflexivity).
  split; [exact HW|]. split; [exact Hlen|]. split; [exact Hr|].
  split; [exact He|].
  exact (remove_keeps_maximum Z.ltb [5; 3; 4; 1; 2] 1 [2; 1; 3; 4; 5]
           (mkShape 3 1) HW Hlen Hr He).
Defined.

(** ** The rectify walk, in words *)

Section RectifyWalk.
Context {A : Type} (comp : A -> A -> bool).
Implicit Types (a : list A) (os : list nat).

Lemma comparison_value_toCompare a itr shape (k : nat) tc vt :
  smallestTreeSize shape = Z.of_nat k ->
  rectify_toCompare comp a itr shape = Some tc -> deref a tc = Some vt ->
  comparison_value comp a k itr = Some vt.
Proof.
  intros Hs. unfold rectify_toCompare, comparison_value. rewrite Hs.
  destruct (deref a itr) as [vr|] eqn:Hvr; cbn [mbind option_bind].
  - destruct (decide (Z.of_nat k > 1)) as [Hk|Hk].
    + rewrite decide_True by lia.
      destruct (LargerChild comp a itr (Z.of_nat k)) as [lc|];
        cbn [mbind option_bind]; [|done].
      destruct (deref a lc) as [vl|] eqn:Hvl; cbn [mbind option_bind]; [|done].
      intros ? Hvt. simplify_eq. destruct (comp vr vl); congruence.
    + rewrite decide_False by lia. intros ? Hvt. by simplify_eq.
  - destruct (decide (Z.of_nat k > 1)) as [Hk|Hk].
    + by destruct (LargerChild comp a itr (Z.of_nat k)).
    + intros ? Hvt. by simplify_eq.
Qed.

Lemma rectify_loop_walk os : forall fuel a k m shape,
  shape_rep shape (k :: os) -> increasing (k :: os) ->
  forest_size (k :: os) = m ->
  m <= Z.of_nat (length a) -> m < 2 ^ 32 ->
  (length (k :: os) <= fuel)%nat ->
  rectify_loop comp fuel a 0 (m - 1) shape =
  rectify_described comp a (k :: os) (m - 1).
Proof.
  induction os as [|k1 os IH]; intros fuel a k m shape Hrep Hinc Hsz Hlen Hm Hf.
  - simpl in Hsz. destruct fuel as [|fuel]; [simpl in Hf; lia|].
    pose proof (shape_rep_smallest _ _ _ Hrep) as Hs.
    assert (Hk : (k < 46)%nat) by (apply L_small_order; lia).
    rewrite (rectify_loop_leftmost _ _ _ _ _ _ (L k));
      [|rewrite Hs; by apply leonardo_at_L|f_equal; lia].
    by rewrite Hs.
  - change (forest_size (k :: k1 :: os))
      with (L k + forest_size (k1 :: os)) in Hsz.
    set (m' := m - L k) in *.
    assert (Hsz' : forest_size (k1 :: os) = m') by (subst m'; lia).
    assert (1 <= m').
    { rewrite <- Hsz'. simpl. pose proof (forest_size_nonneg os).
      pose proof (L_pos k1). lia. }
    pose proof (L_pos k) as HLk.
    destruct fuel as [|fuel]; [simpl in Hf; lia|].
    assert (Hord : orders_ok (k :: k1 :: os)).
    { apply forest_orders_ok.
      change (forest_size (k :: k1 :: os))
        with (L k + forest_size (k1 :: os)). lia. }
    pose proof (orders_ok_head _ _ Hord) as Hk.
    pose proof (shape_rep_smallest _ _ _ Hrep) as Hs.
    destruct (rectify_toCompare_spec comp a (m - 1) shape k)
      as (tc & vt & Htc & Hvt & Htcr & _); [done|done|lia|lia|].
    assert (is_Some (deref a (m - 1 - L k))) as [vp Hvp]
      by (apply deref_is_Some; lia).
    rewrite (rectify_loop_step _ _ _ _ _ _ (L k) tc vt vp);
      [|rewrite Hs; by apply leonardo_at_L
       |rewrite !to_size_t_small by lia; lia|done..].
    unfold rectify_described. cbn [rectify_walk].
    rewrite (comparison_value_toCompare _ _ _ _ _ _ Hs Htc Hvt).
    cbn [mbind option_bind]. rewrite Hvp. cbn [mbind option_bind].
    rewrite Hs. destruct (comp vt vp); cbn [negb]; [|done].
    destruct (iter_swap a (m - 1) (m - 1 - L k)) as [a1|] eqn:Ha1;
      cbn [mbind option_bind]; [|done].
    destruct (next_tree_shape_rep _ _ _ _ Hrep Hinc Hord)
      as (shape' & Hnt & Hrep').
    rewrite Hnt. cbn [mbind option_bind].
    replace (m - 1 - L k) with (m' - 1) by (subst m'; lia).
    apply IH; [done|by eapply increasing_tail|done
              |rewrite (iter_swap_length _ _ _ _ Ha1); lia|lia
              |simpl in Hf |- *; lia].
Qed.

End RectifyWalk.

(** C4, as the code has it.  On the forest [os] that [shape] encodes,
    [LeonardoHeapRectify] is the walk from the rightmost root leftwards
    that compares, at each tree, the comparison value (the root, or the
    larger of root and larger child when the order exceeds 1) with the
    root of the next tree to the left, stops when that root is not
    greater than the comparison value or when there is no tree to the
    left, otherwise swaps the two roots and goes on from the next tree,
    and finally rebalances the tree it stopped in. *)
Theorem LeonardoHeapRectify_walk {A} (comp : A -> A -> bool)
    (a : list A) (shape : HeapShape) (os : list nat) (m : Z) :
  shape_rep shape os -> increasing os -> forest_size os = m ->
  1 <= m -> m <= Z.of_nat (length a) -> m < 2 ^ size_t_bits ->
  LeonardoHeapRectify comp a 0 m shape = rectify_described comp a os (m - 1).
Proof.
  intros Hrep Hinc Hsz H1 Hlen Hm. unfold size_t_bits in Hm.
  destruct os as [|k os]; [simpl in Hsz; lia|].
  unfold LeonardoHeapRectify. apply rectify_loop_walk; try done.
  pose proof (forest_size_length (k :: os)). lia.
Qed.

Lemma LeonardoHeapRectify_walk_witness :
  shape_rep (mkShape 3 0) [0; 1]%nat /\ increasing [0; 1]%nat /\
  forest_size [0; 1]%nat = 2 /\ 1 <= 2 /\
  2 <= Z.of_nat (length [2; 1]) /\ 2 < 2 ^ size_t_bits /\
  LeonardoHeapRectify Z.ltb [2; 1] 0 2 (mkShape 3 0)
    = rectify_described Z.ltb [2; 1] [0; 1]%nat (2 - 1).
Proof.
  assert (Hrep : shape_rep (mkShape 3 0) [0; 1]%nat).
  { split; [|reflexivity]. intros i Hi. cbn [trees smallestTreeSize]. split.
    - intros Hbit. destruct (decide (i = 0)) as [->|].
      { exists O. split; [left|reflexivity]. }
      destruct (decide (i = 1)) as [->|].
      { exists 1%nat. split; [right; left|reflexivity]. }
      rewrite (Z.bits_above_log2 3 i) in Hbit; [discriminate|lia|].
      change (Z.log2 3) with 1. lia.
    - intros (k & Hk & Heq).
      apply elem_of_cons in Hk as [->|Hk]; [by replace i with 0 by lia|].
      apply list_elem_of_singleton in Hk as ->. by replace i with 1 by lia. }
  assert (Hinc : increasing [0; 1]%nat) by (simpl; lia).
  assert (Hsz : forest_size [0; 1]%nat = 2) by reflexivity.
  assert (H1 : 1 <= 2) by lia.
  assert (Hlen : 2 <= Z.of_nat (length [2; 1])) by (simpl; lia).
  assert (Hm : 2 < 2 ^ size_t_bits) by (vm_compute; reflexivity).
  split_and!; [done..|].
  exact (LeonardoHeapRectify_walk Z.ltb [2; 1] (mkShape 3 0) [0; 1]%nat 2
           Hrep Hinc Hsz H1 Hlen Hm).
Defined.

(** C4, as the claim states it, fails.  On [2; 1], a forest of two
    single-element trees, the root 2 to the left is not smaller than the
    new element 1: the claim's walk stops and leaves [2; 1], the code
    swaps and leaves [1; 2].  On [1; 2] the claim's walk swaps and the
    code stops. *)
Lemma rectify_not_as_claimed :
  shape_orders (mkShape 3 0) = [0; 1]%nat /\
  LeonardoHeapRectify Z.ltb [2; 1] 0 2 (mkShape 3 0) = Some [1; 2] /\
  rectify_claimed Z.ltb [2; 1] [0; 1]%nat 1 = Some [2; 1] /\
  LeonardoHeapRectify Z.ltb [1; 2] 0 2 (mkShape 3 0) = Some [1; 2] /\
  rectify_claimed Z.ltb [1; 2] [0; 1]%nat 1 = Some [2; 1].
Proof. by vm_compute. Qed.

(** ** The insert decision *)

(** C5, as the code has it.  On a heap shape of a run, [LeonardoHeapAdd]
    updates the shape by the first that applies of: no tree, a tree of
    order 1; the two smallest trees of orders [k] and [k+1], one tree of
    order [k+2] in their place; a smallest tree of order 1, a new tree of
    order 0; otherwise a new tree of order 1.  It then runs the full
    rectify exactly when, with [r] elements left to insert, the new
    rightmost tree has order 0 and [r = 0], or order 1 and [r = 0] or
    [r = 1] with no tree of order 2, or order [k >= 2] and
    [r < L(k-1) + 1]; otherwise it rebalances that tree alone.  So it
    runs the full rectify after the last insert ([r = 0]) and whenever
    the new tree is settled and does not stand next to a tree of the
    next order. *)
Theorem LeonardoHeapAdd_cases {A} (comp : A -> A -> bool)
    (a : list A) (shape : HeapShape) (os : list nat) (m n : Z) :
  shape_inv shape os m -> 0 <= m < n ->
  n = Z.of_nat (length a) -> n < 2 ^ size_t_bits ->
  shape_rep (shape_add shape) (add_orders os) /\
  (os = [] -> add_orders os = [1%nat]) /\
  (forall k rest, os = k :: S k :: rest -> add_orders os = S (S k) :: rest) /\
  (forall rest, os = 1%nat :: rest -> ~ consecutive os ->
     add_orders os = O :: os) /\
  (forall k rest, os = k :: rest -> ~ consecutive os -> k <> 1%nat ->
     add_orders os = 1%nat :: os) /\
  LeonardoHeapAdd comp a 0 m n shape =
    (a' ← (if needs_rectify (n - (m + 1)) (add_orders os)
           then LeonardoHeapRectify comp a 0 (m + 1) (shape_add shape)
           else RebalanceSingleHeap comp a m
                  (smallestTreeSize (shape_add shape)));
     Some (a', shape_add shape)) /\
  (m + 1 = n -> needs_rectify (n - (m + 1)) (add_orders os) = true) /\
  (forall k rest, add_orders os = k :: rest ->
     settled n k (m + 1) -> (consecutive (k :: rest) -> m + 1 = n) ->
     needs_rectify (n - (m + 1)) (add_orders os) = true).
Proof.
  intros (Hrep & Hok & Hsz) Hm Hn Hn32. unfold size_t_bits in Hn32.
  pose proof (forest_size_add_orders os) as Hsz'.
  pose proof (shape_ok_add_orders _ Hok) as Hok'.
  assert (Hord' : orders_ok (add_orders os)) by (apply forest_orders_ok; lia).
  assert (Hrep' : shape_rep (shape_add shape) (add_orders os)).
  { apply shape_add_rep; [done..| |done]. apply forest_orders_ok. lia. }
  split; [done|]. split; [by intros ->|]. split.
  { intros k rest ->. simpl. by rewrite decide_True. }
  split.
  { intros rest -> Hnc. destruct rest as [|k' rest]; [done|].
    simpl. rewrite decide_False; [done|]. intros ->. by apply Hnc. }
  split.
  { intros k rest -> Hnc Hk1. destruct rest as [|k' rest]; simpl.
    - by rewrite decide_False.
    - rewrite decide_False; [by rewrite decide_False|].
      intros ->. by apply Hnc. }
  pose proof (shape_ok_increasing _ Hok') as Hinc'.
  destruct (add_orders os) as [|k' rest'] eqn:Hadd; [simpl in Hsz'; lia|].
  split; [|split].
  - unfold LeonardoHeapAdd.
    rewrite (add_isLast_spec _ k' rest') by (done || lia).
    cbn [mbind option_bind].
    by destruct (needs_rectify (n - (m + 1)) (k' :: rest')).
  - intros <-. apply needs_rectify_settled; [lia| |intros; lia].
    unfold settled. pose proof (thr_pos k'). lia.
  - intros k rest [= <- <-] Hs Hc.
    apply needs_rectify_settled; [lia|done|]. intros Hcons. by rewrite Hc.
Qed.

Lemma LeonardoHeapAdd_cases_witness :
  shape_inv empty_shape [] 0 /\ 0 <= 0 < 2 /\
  2 = Z.of_nat (length [1; 2]) /\ 2 < 2 ^ size_t_bits /\
  shape_rep (shape_add empty_shape) (add_orders []) /\
  LeonardoHeapAdd Z.ltb [1; 2] 0 0 2 empty_shape =
    (a' ← (if needs_rectify (2 - (0 + 1)) (add_orders [])
           then LeonardoHeapRectify Z.ltb [1; 2] 0 (0 + 1)
                  (shape_add empty_shape)
           else RebalanceSingleHeap Z.ltb [1; 2] 0
                  (smallestTreeSize (shape_add empty_shape)));
     Some (a', shape_add empty_shape)).
Proof.
  assert (Hinv : shape_inv empty_shape [] 0).
  { split; [|split; [exact I|reflexivity]]. split; [|exact I].
    intros i Hi. cbn [trees empty_shape]. rewrite Z.bits_0. split.
    - discriminate.
    - intros (k & Hk & _). by apply elem_of_nil in Hk. }
  assert (Hm : 0 <= 0 < 2) by lia.
  assert (Hn : 2 = Z.of_nat (length [1; 2])) by reflexivity.
  assert (Hn32 : 2 < 2 ^ size_t_bits) by (vm_compute; reflexivity).
  pose proof (LeonardoHeapAdd_cases Z.ltb [1; 2] empty_shape [] 0 2
                Hinv Hm Hn Hn32) as H.
  split_and!; [done..|apply H|apply H].
Defined.

(** The rule of the code against the final position: with [m + 1] of
    [n] elements inserted, the rule asks for the full rectify exactly
    if the new rightmost tree is in its final position, or has an order
    [k >= 2], stands next to a tree of order [k + 1] and between 1 and
    [L (k - 1)] elements remain. *)
Lemma needs_rectify_final (m n : nat) :
  (m < n)%nat ->
  needs_rectify (Z.of_nat n - (Z.of_nat m + 1)) (final_forest (S m)) = true <->
  in_final_position n (final_forest (S m)) (Z.of_nat m + 1) \/
  exists k rest,
    final_forest (S m) = S (S k) :: S (S (S k)) :: rest /\
    1 <= Z.of_nat n - (Z.of_nat m + 1) <= L (S k).
Proof.
  intros Hmn.
  destruct (final_forest (S m)) as [|k rest] eqn:Hos.
  { pose proof (final_forest_size (S m)) as Hs. rewrite Hos in Hs.
    simpl in Hs. lia. }
  replace (Z.of_nat m + 1) with (Z.of_nat (S m)) by lia.
  rewrite (final_position_settled (S m) n k rest Hos) by lia.
  unfold settled.
  destruct k as [|[|k]]; cbn [needs_rectify thr].
  - rewrite bool_decide_eq_true. split.
    + intros Hr. left. split; [lia|intros _; lia].
    + intros [[Hr _]|(k & rest' & [=] & _)]. lia.
  - rewrite L_0, orb_true_iff, andb_true_iff, negb_true_iff,
      !bool_decide_eq_true, bool_decide_eq_false. split.
    + intros [Hr|[Hr Hh]]; left; (split; [lia|]); [intros _; lia|].
      intros Hc. destruct rest as [|k1 rest]; [done|]. simpl in Hc.
      subst k1. by destruct Hh.
    + intros [[Hr Hc]|(k & rest' & [=] & _)].
      destruct (decide (Z.of_nat n - Z.of_nat (S m) = 0)) as [|Hne];
        [by left|right]. split; [lia|]. intros Hh.
      destruct rest as [|k1 rest]; simplify_eq/=. specialize (Hc eq_refl). lia.
  - rewrite bool_decide_eq_true. pose proof (L_pos (S k)). split.
    + intros Hr. destruct (consecutive_or_not (S (S k) :: rest)) as [Hc|Hnc].
      * destruct (decide (Z.of_nat n - Z.of_nat (S m) = 0)) as [|Hne].
        -- left. split; [lia|intros _; lia].
        -- right. destruct rest as [|k1 rest]; [done|]. simpl in Hc.
           subst k1. exists k, rest. split; [done|lia].
      * left. split; [lia|done].
    + intros [[Hr _]|(k' & rest' & [= -> ->] & Hr)]; lia.
Qed.

(** In the second case the tree is not in its final position: the next
    insert merges it with its neighbour. *)
Lemma early_rectify_not_final (m n : nat) k rest :
  final_forest (S m) = S (S k) :: S (S (S k)) :: rest ->
  (S m < n)%nat ->
  ~ in_final_position n (final_forest (S m)) (Z.of_nat m + 1) /\
  final_forest (S (S m)) = S (S (S (S k))) :: rest.
Proof.
  intros Hos Hmn. split.
  - rewrite Hos. replace (Z.of_nat m + 1) with (Z.of_nat (S m)) by lia.
    rewrite (final_position_settled (S m) n _ _ Hos) by lia.
    intros [_ Hc]. specialize (Hc eq_refl). lia.
  - rewrite (final_forest_S (S m)), Hos. simpl. by rewrite decide_True.
Qed.

(** C5, on the states of a run.  The insert that follows the first [j]
    inserts of a run on [l] updates the shape to the forest of [j + 1]
    elements and runs the full rectify exactly if the new rightmost tree
    is in its final position, or if that tree has an order [k >= 2],
    stands next to a tree of order [k + 1] and between 1 and [L (k - 1)]
    elements remain.  In the second case the next insert merges the
    tree: the code tests the neighbour for a tree of order 1 only. *)
Lemma LeonardoHeapAdd_rule {A} (comp : A -> A -> bool) (l a : list A)
    (j : nat) (shape : HeapShape) :
  Z.of_nat (length l) < 2 ^ size_t_bits -> (j < length l)%nat ->
  build_state comp l j = Some (a, shape) ->
  let n := length l in
  let r := Z.of_nat n - (Z.of_nat j + 1) in
  shape_orders (shape_add shape) = final_forest (S j) /\
  LeonardoHeapAdd comp a 0 (Z.of_nat j) (Z.of_nat n) shape =
    (a' ← (if needs_rectify r (final_forest (S j))
           then LeonardoHeapRectify comp a 0 (Z.of_nat j + 1)
                  (shape_add shape)
           else RebalanceSingleHeap comp a (Z.of_nat j)
                  (smallestTreeSize (shape_add shape)));
     Some (a', shape_add shape)) /\
  (needs_rectify r (final_forest (S j)) = true <->
   in_final_position n (final_forest (S j)) (Z.of_nat j + 1) \/
   exists k rest,
     final_forest (S j) = S (S k) :: S (S (S k)) :: rest /\
     1 <= r <= L (S k)).
Proof.
  intros Hn Hj Hb n r. unfold size_t_bits in Hn.
  destruct (build_state_inv comp l j Hn ltac:(lia))
    as (a0 & shape0 & os & Hb' & _ & Hlen & _).
  rewrite Hb in Hb'. simplify_eq.
  destruct (build_state_orders comp l j a0 shape0 Hn ltac:(lia) Hb)
    as [Hinv _].
  destruct (LeonardoHeapAdd_spec comp a0 shape0 (final_forest j) (Z.of_nat j)
              (Z.of_nat n))
    as (_ & _ & Hinv1 & _); [done|lia|by rewrite Hlen|done|].
  destruct (LeonardoHeapAdd_cases comp a0 shape0 (final_forest j)
              (Z.of_nat j) (Z.of_nat n))
    as (_ & _ & _ & _ & _ & Hadd & _); [done|lia|by rewrite Hlen|done|].
  split_and!.
  - apply (shape_inv_orders _ _ _ Hinv1). lia.
  - exact Hadd.
  - by apply needs_rectify_final.
Qed.

(** C5: where the code leaves the rule it documents.  Of the nine
    elements [5; 6; 7; 8; 9; 1; 2; 3; 4] the eighth insert merges two
    trees into a tree of order 2 next to the tree of order 3.  One
    element remains, which is what the next merge needs: the ninth
    insert merges both trees into the one tree of order 4 the build
    phase ends with, so the tree of order 2 is not in its final
    position.  The eighth insert still runs the full rectify, which
    moves the 9 out of the tree of order 3; the rebalance alone would
    have left the sequence as it was. *)
Lemma rectify_before_final :
  build_state Z.ltb [5; 6; 7; 8; 9; 1; 2; 3; 4] 7
    = Some ([5; 6; 7; 8; 9; 1; 2; 3; 4], mkShape 11 0) /\
  shape_orders (shape_add (mkShape 11 0)) = [2; 3]%nat /\
  add_orders [2; 3]%nat = [4%nat] /\
  final_forest 9 = [4%nat] /\
  ~ in_final_position 9 [2; 3]%nat 8 /\
  add_isLast 7 9 (shape_add (mkShape 11 0)) = Some true /\
  LeonardoHeapAdd Z.ltb [5; 6; 7; 8; 9; 1; 2; 3; 4] 0 7 9 (mkShape 11 0)
    = Some ([5; 6; 7; 3; 8; 1; 2; 9; 4], mkShape 3 2) /\
  RebalanceSingleHeap Z.ltb [5; 6; 7; 8; 9; 1; 2; 3; 4] 7 2
    = Some [5; 6; 7; 8; 9; 1; 2; 3; 4].
Proof.
  split_and!; try (vm_compute; reflexivity).
  unfold in_final_position.
  change (final_forest 9) with [4%nat]. cbn [forest_trees].
  intros [Heq|Hin%elem_of_nil]%elem_of_cons; [congruence|done].
Qed.

(** ** Runs on ascending input *)

Lemma StronglySorted_lookup_2 {A} (R : A -> A -> Prop) (l : list A) :
  StronglySorted R l ->
  forall i j x y, (i < j)%nat -> l !! i = Some x -> l !! j = Some y -> R x y.
Proof.
  induction 1 as [|z l Hs IH Hall]; intros i j x y Hij Hx Hy; [done|].
  destruct j as [|j]; [lia|]. destruct i as [|i]; simpl in *.
  - simplify_eq. by apply (proj1 (Forall_lookup _ _) Hall j).
  - apply (IH i j); [lia|done..].
Qed.

Section Ascending.
Context {A : Type} (comp : A -> A -> bool).
Implicit Types (a : list A) (shape : HeapShape).

Lemma leonardo_at_pos k l : leonardo_at k = Some l -> 1 <= l.
Proof. intros [_ ->]%leonardo_at_Some. apply L_pos. Qed.

Lemma FirstChild_below root size first :
  FirstChild root size = Some first -> first < root - 1.
Proof.
  unfold FirstChild, SecondChild.
  destruct (leonardo_at _) as [l|] eqn:Hl;
    cbn [mbind option_bind]; [|done].
  intros [= <-]. apply leonardo_at_pos in Hl. lia.
Qed.

Lemma LargerChild_between a root size l c :
  size > 1 -> leonardo_at size = Some l ->
  LargerChild comp a root size = Some c -> root - l < c < root.
Proof.
  intros Hsize [Hs ->]%leonardo_at_Some. unfold LargerChild, FirstChild.
  rewrite to_size_t_small by (unfold size_t_bits; lia).
  destruct (leonardo_at (size - 2)) as [l2|] eqn:Hl2;
    cbn [mbind option_bind]; [|done].
  apply leonardo_at_Some in Hl2 as [_ ->]. cbn [mbind option_bind].
  destruct (deref a (SecondChild root - _)) as [vf|];
    cbn [mbind option_bind]; [|done].
  destruct (deref a (SecondChild root)) as [vs|];
    cbn [mbind option_bind]; [|done].
  replace (Z.to_nat size) with (S (S (Z.to_nat (size - 2)))) by lia.
  rewrite L_SS. pose proof (L_pos (Z.to_nat (size - 2))).
  pose proof (L_pos (S (Z.to_nat (size - 2)))). unfold SecondChild.
  destruct (comp vf vs); intros [= <-]; lia.
Qed.

Lemma rebalance_loop_asc fuel a root size a' :
  ascending comp a -> rebalance_loop comp fuel a root size = Some a' -> a' = a.
Proof.
  intros Hasc. destruct fuel as [|fuel]; cbn [rebalance_loop];
    case_decide; try congruence.
  destruct (FirstChild root size) as [first|] eqn:Hf;
    cbn [mbind option_bind]; [|done].
  cbn [mbind option_bind]. apply FirstChild_below in Hf.
  destruct (deref a first) as [vf|] eqn:Hvf;
    cbn [mbind option_bind]; [|done]. cbn [mbind option_bind].
  destruct (deref a (SecondChild root)) as [vs|] eqn:Hvs;
    cbn [mbind option_bind]; [|done].
  cbn [mbind option_bind]. unfold SecondChild in *.
  destruct (deref a root) as [vr|] eqn:Hvr;
    [|by destruct (comp vf vs)].
  destruct (comp vf vs); cbn [mbind option_bind].
  - rewrite Hvs. cbn [mbind option_bind].
    rewrite (Hasc (root - 1) root vs vr) by (done || lia). cbn. congruence.
  - rewrite Hvf. cbn [mbind option_bind].
    rewrite (Hasc first root vf vr) by (done || lia). cbn. congruence.
Qed.

Lemma RebalanceSingleHeap_asc a root size a' :
  ascending comp a -> RebalanceSingleHeap comp a root size = Some a' -> a' = a.
Proof. apply rebalance_loop_asc. Qed.

Lemma rectify_toCompare_between a itr shape l tc :
  leonardo_at (smallestTreeSize shape) = Some l ->
  rectify_toCompare comp a itr shape = Some tc -> itr - l < tc <= itr.
Proof.
  intros Hl. unfold rectify_toCompare. pose proof (leonardo_at_pos _ _ Hl).
  case_decide as Hs; [|intros [= <-]; lia].
  destruct (LargerChild _ _ _ _) as [lc|] eqn:Hlc;
    cbn [mbind option_bind]; [|done].
  pose proof (LargerChild_between _ _ _ _ _ Hs Hl Hlc).
  cbn [mbind option_bind].
  destruct (deref a itr) as [vt|];
    cbn [mbind option_bind]; [|done]. cbn [mbind option_bind].
  destruct (deref a lc) as [vl|];
    cbn [mbind option_bind]; [|done]. cbn [mbind option_bind].
  destruct (comp vt vl); intros [= <-]; lia.
Qed.

Lemma rectify_loop_asc fuel a begin itr shape a' :
  ascending comp a ->
  rectify_loop comp fuel a begin itr shape = Some a' -> a' = a.
Proof.
  intros Hasc. destruct fuel as [|fuel]; cbn [rectify_loop]; [done|].
  destruct (leonardo_at _) as [l|] eqn:Hl;
    cbn [mbind option_bind]; [|done]. cbn [mbind option_bind].
  case_decide; [by apply RebalanceSingleHeap_asc|].
  destruct (rectify_toCompare _ _ _ _) as [tc|] eqn:Htc;
    cbn [mbind option_bind]; [|done].
  cbn [mbind option_bind].
  pose proof (rectify_toCompare_between _ _ _ _ _ Hl Htc).
  destruct (deref a tc) as [vt|] eqn:Hvt;
    cbn [mbind option_bind]; [|done]. cbn [mbind option_bind].
  destruct (deref a (itr - l)) as [vp|] eqn:Hvp;
    cbn [mbind option_bind]; [|done].
  cbn [mbind option_bind].
  rewrite (Hasc (itr - l) tc vp vt) by (done || lia). cbn [negb].
  by apply RebalanceSingleHeap_asc.
Qed.

Lemma LeonardoHeapRectify_asc a begin end_ shape a' :
  ascending comp a ->
  LeonardoHeapRectify comp a begin end_ shape = Some a' -> a' = a.
Proof. apply rectify_loop_asc. Qed.

Lemma LeonardoHeapAdd_asc a begin end_ heapEnd shape a' shape' :
  ascending comp a ->
  LeonardoHeapAdd comp a begin end_ heapEnd shape = Some (a', shape') ->
  a' = a.
Proof.
  intros Hasc. unfold LeonardoHeapAdd.
  destruct (add_isLast _ _ _) as [isLast|];
    cbn [mbind option_bind]; [|done]. cbn [mbind option_bind].
  destruct isLast; cbn [negb].
  - destruct (LeonardoHeapRectify _ _ _ _ _) as [a1|] eqn:Hr;
    cbn [mbind option_bind]; [|done].
    intros [= <- _]. by eapply LeonardoHeapRectify_asc.
  - destruct (RebalanceSingleHeap _ _ _ _) as [a1|] eqn:Hr;
    cbn [mbind option_bind]; [|done].
    intros [= <- _]. by eapply RebalanceSingleHeap_asc.
Qed.

Lemma LeonardoHeapRemove_asc a begin end_ shape a' shape' :
  ascending comp a ->
  LeonardoHeapRemove comp a begin end_ shape = Some (a', shape') -> a' = a.
Proof.
  intros Hasc. unfold LeonardoHeapRemove. case_decide.
  - destruct (remove_scan _ _); [|done]. by intros [= <- _].
  - destruct (FirstChild _ _) as [leftHeap|];
    cbn [mbind option_bind]; [|done].
    cbn [mbind option_bind].
    destruct (LeonardoHeapRectify _ a _ _ _) as [a1|] eqn:H1;
    cbn [mbind option_bind]; [|done].
    cbn [mbind option_bind].
    apply LeonardoHeapRectify_asc in H1 as ->; [|done].
    destruct (LeonardoHeapRectify _ a _ _ _) as [a2|] eqn:H2;
    cbn [mbind option_bind]; [|done].
    intros [= <- _]. by eapply LeonardoHeapRectify_asc.
Qed.

Lemma build_steps_asc steps : forall a begin itr end_ shape a' shape',
  ascending comp a ->
  build_steps comp steps a begin itr end_ shape = Some (a', shape') -> a' = a.
Proof.
  induction steps as [|steps IH]; intros a begin itr end_ shape a' shape' Hasc;
    cbn [build_steps]; [by intros [= <- _]|].
  case_decide; [by intros [= <- _]|].
  destruct (LeonardoHeapAdd _ _ _ _ _ _) as [[a1 shape1]|] eqn:Hadd; [|done].
  cbn [mbind option_bind].
  apply LeonardoHeapAdd_asc in Hadd as ->; [|done]. by apply IH.
Qed.

Lemma extract_steps_asc steps : forall a begin itr shape a' shape',
  ascending comp a ->
  extract_steps comp steps a begin itr shape = Some (a', shape') -> a' = a.
Proof.
  induction steps as [|steps IH]; intros a begin itr shape a' shape' Hasc;
    cbn [extract_steps]; [by intros [= <- _]|].
  case_decide; [by intros [= <- _]|].
  destruct (LeonardoHeapRemove _ _ _ _ _) as [[a1 shape1]|] eqn:Hrem; [|done].
  cbn [mbind option_bind].
  apply LeonardoHeapRemove_asc in Hrem as ->; [|done]. by apply IH.
Qed.

Lemma Smoothsort_asc a a' :
  StronglySorted (fun x y => comp y x = false) a ->
  Smoothsort comp a = Some a' -> a' = a.
Proof.
  intros Hs.
  assert (Hasc : ascending comp a).
  { intros i j x y Hij Hx Hy.
    pose proof (deref_Some_range _ _ _ Hx).
    pose proof (deref_Some_range _ _ _ Hy).
    rewrite deref_lookup in Hx, Hy by lia.
    apply (StronglySorted_lookup_2 _ _ Hs (Z.to_nat i) (Z.to_nat j));
      [lia|done..]. }
  unfold Smoothsort. case_decide; [congruence|].
  destruct (build_steps _ _ _ _ _ _ _) as [[a1 shape1]|] eqn:Hb; [|done].
  cbn [mbind option_bind]. apply build_steps_asc in Hb as ->; [|done].
  destruct (extract_steps _ _ _ _ _ _) as [[a2 shape2]|] eqn:He; [|done].
  cbn [mbind option_bind]. apply extract_steps_asc in He as ->; [|done].
  congruence.
Qed.

End Ascending.

(** ** Further results on smoothsort *)

(** X1.  [Smoothsort] needs no total order: for every strict weak order
    (asymmetric, with a transitive "not smaller"), so also when distinct
    elements compare equivalent, it returns a permutation of the input
    in which no element is smaller than an earlier one. *)
Theorem Smoothsort_weak_order {A} (comp : A -> A -> bool) (l : list A) :
  WeakOrder comp -> Z.of_nat (length l) < 2 ^ size_t_bits ->
  exists l',
    Smoothsort comp l = Some l' /\ l ≡ₚ l' /\
    StronglySorted (fun x y => comp y x = false) l'.
Proof.
  intros HW Hlen.
  destruct (Smoothsort_spec comp l Hlen) as (l' & Hs & Hp & Hsorted).
  exists l'. split_and!; [done..|]. by apply Hsorted.
Qed.

Lemma Smoothsort_weak_order_witness :
  WeakOrder (fun x y : Z * Z => Z.ltb (fst x) (fst y)) /\
  Z.of_nat (length [(2, 0); (1, 7); (2, 5); (1, 3)]) < 2 ^ size_t_bits /\
  exists l',
    Smoothsort (fun x y : Z * Z => Z.ltb (fst x) (fst y))
      [(2, 0); (1, 7); (2, 5); (1, 3)] = Some l' /\
    [(2, 0); (1, 7); (2, 5); (1, 3)] ≡ₚ l' /\
    StronglySorted (fun x y : Z * Z => Z.ltb (fst y) (fst x) = false) l'.
Proof.
  assert (HW : WeakOrder (fun x y : Z * Z => Z.ltb (fst x) (fst y))).
  { split.
    - intros [x1 x2] [y1 y2]. cbn [fst]. rewrite Z.ltb_lt, Z.ltb_ge. lia.
    - intros [x1 x2] [y1 y2] [z1 z2]. cbn [fst]. rewrite !Z.ltb_ge. lia. }
  assert (Hlen : Z.of_nat (length [(2, 0); (1, 7); (2, 5); (1, 3)])
                 < 2 ^ size_t_bits) by (vm_compute; reflexivity).
  split; [exact HW|]. split; [exact Hlen|].
  exact (Smoothsort_weak_order _ [(2, 0); (1, 7); (2, 5); (1, 3)] HW Hlen).
Defined.

(** X2.  [Smoothsort] moves nothing in a sequence that is already in
    order: whatever the comparator, if no element of the input is
    smaller than an earlier one, every comparison that guards a swap
    fails and the sequence is returned as it was. *)
Theorem Smoothsort_sorted_input {A} (comp : A -> A -> bool) (l : list A) :
  Z.of_nat (length l) < 2 ^ size_t_bits ->
  StronglySorted (fun x y => comp y x = false) l ->
  Smoothsort comp l = Some l.
Proof.
  intros Hlen Hs.
  destruct (Smoothsort_spec comp l Hlen) as (l' & Hl' & _).
  by rewrite Hl', (Smoothsort_asc comp l l' Hs Hl').
Qed.

Lemma Smoothsort_sorted_input_witness :
  Z.of_nat (length [(1, 7); (1, 3); (2, 0); (2, 5); (4, 1)])
    < 2 ^ size_t_bits /\
  StronglySorted (fun x y : Z * Z => Z.ltb (fst y) (fst x) = false)
    [(1, 7); (1, 3); (2, 0); (2, 5); (4, 1)] /\
  Smoothsort (fun x y : Z * Z => Z.ltb (fst x) (fst y))
    [(1, 7); (1, 3); (2, 0); (2, 5); (4, 1)]
  = Some [(1, 7); (1, 3); (2, 0); (2, 5); (4, 1)].
Proof.
  assert (Hlen : Z.of_nat (length [(1, 7); (1, 3); (2, 0); (2, 5); (4, 1)])
                 < 2 ^ size_t_bits) by (vm_compute; reflexivity).
  assert (Hs : StronglySorted
                 (fun x y : Z * Z => Z.ltb (fst y) (fst x) = false)
                 [(1, 7); (1, 3); (2, 0); (2, 5); (4, 1)]).
  { repeat (constructor; [|by repeat constructor]). constructor. }
  split; [exact Hlen|]. split; [exact Hs|].
  exact (Smoothsort_sorted_input _ _ Hlen Hs).
Defined.

(** X3.  Sorting twice is sorting once: for a strict weak order a second
    run of [Smoothsort] on the result of a first run returns that result
    unchanged, equivalent elements included. *)
Theorem Smoothsort_idempotent {A} (comp : A -> A -> bool) (l l' : list A) :
  WeakOrder comp -> Z.of_nat (length l) < 2 ^ size_t_bits ->
  Smoothsort comp l = Some l' -> Smoothsort comp l' = Some l'.
Proof.
  intros HW Hlen Hl'.
  destruct (Smoothsort_spec comp l Hlen) as (l0 & Hl0 & Hp & Hsorted).
  assert (l0 = l') as -> by congruence.
  assert (Hlen' : Z.of_nat (length l') < 2 ^ 32).
  { rewrite <- (Permutation_length Hp). exact Hlen. }
  destruct (Smoothsort_spec comp l' Hlen') as (l2 & Hl2 & _).
  rewrite Hl2. f_equal. eapply Smoothsort_asc; [|done]. by apply Hsorted.
Qed.

Lemma Smoothsort_idempotent_witness :
  WeakOrder (fun x y : Z * Z => Z.ltb (fst x) (fst y)) /\
  Z.of_nat (length [(2, 0); (1, 7); (2, 5); (1, 3)]) < 2 ^ size_t_bits /\
  Smoothsort (fun x y : Z * Z => Z.ltb (fst x) (fst y))
    [(2, 0); (1, 7); (2, 5); (1, 3)]
  = Some [(1, 3); (1, 7); (2, 0); (2, 5)] /\
  Smoothsort (fun x y : Z * Z => Z.ltb (fst x) (fst y))
    [(1, 3); (1, 7); (2, 0); (2, 5)]
  = Some [(1, 3); (1, 7); (2, 0); (2, 5)].
Proof.
  assert (HW : WeakOrder (fun x y : Z * Z => Z.ltb (fst x) (fst y))).
  { split.
    - intros [x1 x2] [y1 y2]. cbn [fst]. rewrite Z.ltb_lt, Z.ltb_ge. lia.
    - intros [x1 x2] [y1 y2] [z1 z2]. cbn [fst]. rewrite !Z.ltb_ge. lia. }
  assert (Hlen : Z.of_nat (length [(2, 0); (1, 7); (2, 5); (1, 3)])
                 < 2 ^ size_t_bits) by (vm_compute; reflexivity).
  assert (Hrun : Smoothsort (fun x y : Z * Z => Z.ltb (fst x) (fst y))
                   [(2, 0); (1, 7); (2, 5); (1, 3)]
                 = Some [(1, 3); (1, 7); (2, 0); (2, 5)])
    by (vm_compute; reflexivity).
  split; [exact HW|]. split; [exact Hlen|]. split; [exact Hrun|].
  exact (Smoothsort_idempotent _ _ _ HW Hlen Hrun).
Defined.

(** ** Positions outside the swaps *)

Lemma drop_deref_eq {A} (a a' : list A) (j : nat) :
  length a' = length a ->
  (forall k, Z.of_nat j <= k -> deref a' k = deref a k) ->
  drop j a' = drop j a.
Proof.
  intros Hlen Hout. apply list_eq. intros i. rewrite !lookup_drop.
  specialize (Hout (Z.of_nat (j + i)) ltac:(lia)).
  by rewrite !deref_lookup, !Nat2Z.id in Hout by lia.
Qed.

Lemma swaps_within_drop {A} (a a' : list A) (j : nat) :
  swaps_within 0 (Z.of_nat j) a a' -> drop j a' = drop j a.
Proof.
  intros Hsw. apply drop_deref_eq; [by eapply swaps_within_length|].
  intros k Hk. apply (swaps_within_outside _ _ _ _ _ Hsw). lia.
Qed.

Lemma swaps_within_take {A} (a a' : list A) (j : nat) :
  swaps_within 0 (Z.of_nat j) a a' -> take j a ≡ₚ take j a'.
Proof.
  intros Hsw. pose proof (swaps_within_perm _ _ _ _ Hsw) as Hp.
  rewrite <- (take_drop j a), <- (take_drop j a') in Hp.
  rewrite (swaps_within_drop _ _ _ Hsw) in Hp.
  by apply Permutation_app_inv_r in Hp.
Qed.

(** ** Shapes *)

(** A forest with at least one tree has one encoding only. *)
Lemma shape_rep_inj shape1 shape2 k os :
  shape_rep shape1 (k :: os) -> shape_rep shape2 (k :: os) -> shape1 = shape2.
Proof.
  intros [Hb1 Hs1] [Hb2 Hs2]. destruct shape1 as [t1 s1], shape2 as [t2 s2].
  cbn [trees smallestTreeSize] in *. assert (s1 = s2) as -> by lia.
  f_equal. apply Z.bits_inj'. intros i Hi.
  apply eq_true_iff_eq. by rewrite (Hb1 i Hi), (Hb2 i Hi).
Qed.

Lemma remove_add_orders os : remove_orders (add_orders os) = os.
Proof.
  destruct os as [|k [|k' os]]; cbn [add_orders]; [done| |].
  - by case_decide.
  - case_decide as Hk; [by subst|]. by case_decide.
Qed.

(** The forest of one tree of order 1, after the first insert. *)
Lemma shape_inv_first : shape_inv (mkShape 1 1) [1%nat] 1.
Proof.
  split; [|split; [cbn; lia|reflexivity]].
  split; [|reflexivity]. intros i Hi. cbn [trees smallestTreeSize]. split.
  - intros Hbit. exists 1%nat. split; [left|].
    destruct (decide (i = 0)) as [->|]; [reflexivity|].
    rewrite (Z.bits_above_log2 1 i) in Hbit; [discriminate|lia|].
    change (Z.log2 1) with 0. lia.
  - intros (k & Hk & Heq). apply list_elem_of_singleton in Hk as ->.
    by replace i with 0 by lia.
Qed.

(** The forest of the trees of orders 1 and 0, after the second insert. *)
Lemma shape_inv_second : shape_inv (mkShape 3 0) [0; 1]%nat 2.
Proof.
  split; [|split; [cbn; lia|reflexivity]].
  split; [|reflexivity]. intros i Hi. cbn [trees smallestTreeSize]. split.
  - intros Hbit. destruct (decide (i = 0)) as [->|].
    { exists O. split; [left|reflexivity]. }
    destruct (decide (i = 1)) as [->|].
    { exists 1%nat. split; [right; left|reflexivity]. }
    rewrite (Z.bits_above_log2 3 i) in Hbit; [discriminate|lia|].
    change (Z.log2 3) with 1. lia.
  - intros (k & Hk & Heq).
    apply elem_of_cons in Hk as [->|Hk]; [by replace i with 0 by lia|].
    apply list_elem_of_singleton in Hk as ->. by replace i with 1 by lia.
Qed.

(** X4.  The contract of [LeonardoHeapRectify].  On a forest whose trees
    are max-heaps with ascending roots, except that the root of the
    rightmost tree may be out of place, it returns a sequence in which
    every tree is a max-heap and the roots ascend from left to right; it
    permutes the elements of the forest among themselves and leaves
    everything behind the forest where it was. *)
Theorem LeonardoHeapRectify_restores_forest {A} (comp : A -> A -> bool)
    (a : list A) (shape : HeapShape) (k : nat) (os : list nat) (m : Z) :
  WeakOrder comp ->
  shape_rep shape (k :: os) -> increasing (k :: os) ->
  forest_size (k :: os) = m ->
  m <= Z.of_nat (length a) -> m < 2 ^ size_t_bits ->
  semi_heap comp a k (m - 1) ->
  heaps comp a os (m - L k) -> roots_sorted comp a os (m - L k) ->
  exists a',
    LeonardoHeapRectify comp a 0 m shape = Some a' /\
    a ≡ₚ a' /\ (forall i, m <= i -> deref a' i = deref a i) /\
    heaps comp a' (k :: os) m /\ roots_sorted comp a' (k :: os) m.
Proof.
  intros HW Hrep Hinc Hsz Hlen Hm Hsemi Hheaps Hroots.
  destruct (LeonardoHeapRectify_spec comp a k os m shape)
    as (a' & Hr & Hsw & Hpost); [done..|].
  destruct (Hpost HW Hsemi Hheaps) as (Hh & Hs & _).
  exists a'. split_and!; [done|by eapply swaps_within_perm| |done|by apply Hs].
  intros i Hi. apply (swaps_within_outside _ _ _ _ _ Hsw). lia.
Qed.

Lemma LeonardoHeapRectify_restores_forest_witness :
  WeakOrder Z.ltb /\
  shape_rep (mkShape 3 0) [0; 1]%nat /\ increasing [0; 1]%nat /\
  forest_size [0; 1]%nat = 2 /\
  2 <= Z.of_nat (length [5; 3; 9]) /\ 2 < 2 ^ size_t_bits /\
  semi_heap Z.ltb [5; 3; 9] 0 (2 - 1) /\
  heaps Z.ltb [5; 3; 9] [1%nat] (2 - L 0) /\
  roots_sorted Z.ltb [5; 3; 9] [1%nat] (2 - L 0) /\
  exists a',
    LeonardoHeapRectify Z.ltb [5; 3; 9] 0 2 (mkShape 3 0) = Some a' /\
    [5; 3; 9] ≡ₚ a' /\
    (forall i, 2 <= i -> deref a' i = deref [5; 3; 9] i) /\
    heaps Z.ltb a' [0; 1]%nat 2 /\ roots_sorted Z.ltb a' [0; 1]%nat 2.
Proof.
  assert (HW : WeakOrder Z.ltb)
    by (split; intros *; rewrite ?Z.ltb_lt, ?Z.ltb_ge; lia).
  assert (Hrep : shape_rep (mkShape 3 0) [0; 1]%nat)
    by exact (proj1 shape_inv_second).
  assert (Hinc : increasing [0; 1]%nat) by (simpl; lia).
  assert (Hsz : forest_size [0; 1]%nat = 2) by reflexivity.
  assert (Hlen : 2 <= Z.of_nat (length [5; 3; 9])) by (simpl; lia).
  assert (Hm : 2 < 2 ^ size_t_bits) by (vm_compute; reflexivity).
  assert (Hsemi : semi_heap Z.ltb [5; 3; 9] 0 (2 - 1))
    by (vm_compute; eexists; reflexivity).
  assert (Hheaps : heaps Z.ltb [5; 3; 9] [1%nat] (2 - L 0))
    by (vm_compute; split; [eexists; reflexivity|exact I]).
  assert (Hroots : roots_sorted Z.ltb [5; 3; 9] [1%nat] (2 - L 0))
    by exact I.
  split_and!; [done..|].
  exact (LeonardoHeapRectify_restores_forest Z.ltb [5; 3; 9] (mkShape 3 0)
           0 [1%nat] 2 HW Hrep Hinc Hsz Hlen Hm Hsemi Hheaps Hroots).
Defined.

(** X5.  Insert and remove are inverse on the forest.  On a heap shape
    of a run, [LeonardoHeapAdd] followed by [LeonardoHeapRemove] of the
    element just inserted gives back the forest the shape stood for, and
    the very same bitset and offset when that forest has a tree; the
    inserted element is where the insert left it and the sequence is a
    permutation of the one before. *)
Theorem LeonardoHeapAdd_Remove_round_trip {A} (comp : A -> A -> bool)
    (a : list A) (shape : HeapShape) (os : list nat) (m n : Z) :
  shape_inv shape os m -> 0 <= m < n ->
  n = Z.of_nat (length a) -> n < 2 ^ size_t_bits ->
  exists a1 a2 shape2,
    LeonardoHeapAdd comp a 0 m n shape = Some (a1, shape_add shape) /\
    LeonardoHeapRemove comp a1 0 (m + 1) (shape_add shape)
      = Some (a2, shape2) /\
    shape_orders shape2 = shape_orders shape /\
    (os <> [] -> shape2 = shape) /\
    deref a2 m = deref a1 m /\ a ≡ₚ a2.
Proof.
  intros Hinv Hm Hn Hn32. unfold size_t_bits in Hn32.
  destruct (LeonardoHeapAdd_spec comp a shape os m n Hinv Hm Hn Hn32)
    as (a1 & Hadd & Hinv1 & Hsw1 & _).
  pose proof (swaps_within_length _ _ _ _ Hsw1) as Hlen1.
  destruct (LeonardoHeapRemove_spec comp a1 (shape_add shape)
              (add_orders os) (m + 1) Hinv1)
    as (a2 & shape2 & Hrem & Hinv2 & Hsw2 & _); [lia|lia|].
  rewrite remove_add_orders in Hinv2.
  replace (m + 1 - 1) with m in Hinv2, Hsw2 by lia.
  exists a1, a2, shape2. split_and!; [done|done| | | |].
  - rewrite (shape_inv_orders _ _ _ Hinv2), (shape_inv_orders _ _ _ Hinv);
      [done|lia..].
  - intros Hos. destruct os as [|k rest]; [done|].
    eapply shape_rep_inj; [apply Hinv2|apply Hinv].
  - apply (swaps_within_outside _ _ _ _ _ Hsw2). lia.
  - etrans; by eapply swaps_within_perm.
Qed.

Lemma LeonardoHeapAdd_Remove_round_trip_witness :
  shape_inv (mkShape 3 0) [0; 1]%nat 2 /\ 0 <= 2 < 4 /\
  4 = Z.of_nat (length [3; 8; 5; 1]) /\ 4 < 2 ^ size_t_bits /\
  exists a1 a2 shape2,
    LeonardoHeapAdd Z.ltb [3; 8; 5; 1] 0 2 4 (mkShape 3 0)
      = Some (a1, shape_add (mkShape 3 0)) /\
    LeonardoHeapRemove Z.ltb a1 0 (2 + 1) (shape_add (mkShape 3 0))
      = Some (a2, shape2) /\
    shape_orders shape2 = shape_orders (mkShape 3 0) /\
    ([0; 1]%nat <> [] -> shape2 = mkShape 3 0) /\
    deref a2 2 = deref a1 2 /\ [3; 8; 5; 1] ≡ₚ a2.
Proof.
  assert (Hm : 0 <= 2 < 4) by lia.
  assert (Hn : 4 = Z.of_nat (length [3; 8; 5; 1])) by reflexivity.
  assert (Hn32 : 4 < 2 ^ size_t_bits) by (vm_compute; reflexivity).
  split; [exact shape_inv_second|]. split_and!; [done..|].
  exact (LeonardoHeapAdd_Remove_round_trip Z.ltb [3; 8; 5; 1] (mkShape 3 0)
           [0; 1]%nat 2 4 shape_inv_second Hm Hn Hn32).
Defined.

(** ** The shape of a run does not depend on the elements *)

Lemma LeonardoHeapAdd_shape {A} (comp : A -> A -> bool) a b e h shape a' s' :
  LeonardoHeapAdd comp a b e h shape = Some (a', s') -> s' = shape_add shape.
Proof.
  unfold LeonardoHeapAdd.
  destruct (add_isLast _ _ _) as [isLast|]; cbn [mbind option_bind]; [|done].
  destruct (if negb isLast then _ else _); cbn [mbind option_bind]; [|done].
  by intros [= _ <-].
Qed.

Lemma LeonardoHeapRemove_shape {A B} (comp1 : A -> A -> bool)
    (comp2 : B -> B -> bool) a1 a2 b1 e1 b2 e2 shape a1' a2' s1 s2 :
  LeonardoHeapRemove comp1 a1 b1 e1 shape = Some (a1', s1) ->
  LeonardoHeapRemove comp2 a2 b2 e2 shape = Some (a2', s2) -> s2 = s1.
Proof.
  unfold LeonardoHeapRemove. case_decide.
  - destruct (remove_scan _ _); cbn [mbind option_bind]; [|done]. congruence.
  - destruct (FirstChild (e1 - 1) _); cbn [mbind option_bind]; [|done].
    destruct (LeonardoHeapRectify comp1 _ _ _ _);
      cbn [mbind option_bind]; [|done].
    destruct (LeonardoHeapRectify comp1 _ _ _ _);
      cbn [mbind option_bind]; [|done].
    intros [= _ <-].
    destruct (FirstChild (e2 - 1) _); cbn [mbind option_bind]; [|done].
    destruct (LeonardoHeapRectify comp2 _ _ _ _);
      cbn [mbind option_bind]; [|done].
    destruct (LeonardoHeapRectify comp2 _ _ _ _);
      cbn [mbind option_bind]; [|done].
    by intros [= _ <-].
Qed.

Lemma build_steps_shape {A} (comp : A -> A -> bool) steps :
  forall a m n shape a' s',
  m + Z.of_nat steps <= n ->
  build_steps comp steps a 0 m n shape = Some (a', s') ->
  s' = Nat.iter steps shape_add shape.
Proof.
  induction steps as [|steps IH]; intros a m n shape a' s' Hmn;
    cbn [build_steps]; [by intros [= _ <-]|].
  rewrite decide_False by lia.
  destruct (LeonardoHeapAdd _ _ _ _ _ _) as [[a1 s1]|] eqn:Hadd;
    cbn [mbind option_bind]; [|done].
  apply LeonardoHeapAdd_shape in Hadd as ->.
  intros Hb%IH; [|lia]. by rewrite Nat.iter_succ_r.
Qed.

Lemma extract_steps_shape {A B} (comp1 : A -> A -> bool)
    (comp2 : B -> B -> bool) steps :
  forall a1 a2 m shape a1' a2' s1 s2,
  extract_steps comp1 steps a1 0 m shape = Some (a1', s1) ->
  extract_steps comp2 steps a2 0 m shape = Some (a2', s2) -> s2 = s1.
Proof.
  induction steps as [|steps IH]; intros a1 a2 m shape a1' a2' s1 s2;
    cbn [extract_steps]; [congruence|].
  case_decide; [congruence|].
  destruct (LeonardoHeapRemove comp1 _ _ _ _) as [[b1 t1]|] eqn:H1;
    cbn [mbind option_bind]; [|done].
  destruct (LeonardoHeapRemove comp2 _ _ _ _) as [[b2 t2]|] eqn:H2;
    cbn [mbind option_bind]; [|done].
  rewrite (LeonardoHeapRemove_shape _ _ _ _ _ _ _ _ _ _ _ _ _ H1 H2).
  apply IH.
Qed.

(** X6.  The heap shape of a run depends on the number of elements
    only.  Two runs of [Smoothsort] on sequences of the same length, of
    whatever element types and with whatever comparators, go through the
    same shapes: after [j] inserts the shape is the [j]-fold shape
    update of the empty shape, and after [r] removes the shapes agree as
    well. *)
Theorem heap_shape_independent_of_data {A B} (comp1 : A -> A -> bool)
    (comp2 : B -> B -> bool) (l1 : list A) (l2 : list B) :
  length l1 = length l2 ->
  (forall (j : nat) a1 s1 a2 s2, (j <= length l1)%nat ->
     build_state comp1 l1 j = Some (a1, s1) ->
     build_state comp2 l2 j = Some (a2, s2) ->
     s1 = Nat.iter j shape_add empty_shape /\ s2 = s1) /\
  (forall (r : nat) a1 s1 a2 s2,
     extract_state comp1 l1 r = Some (a1, s1) ->
     extract_state comp2 l2 r = Some (a2, s2) -> s2 = s1).
Proof.
  intros Hlen. split.
  - intros j a1 s1 a2 s2 Hj H1 H2. unfold build_state in *.
    apply build_steps_shape in H1; [|lia].
    apply build_steps_shape in H2; [|lia]. by subst.
  - intros r a1 s1 a2 s2. unfold extract_state, build_state.
    destruct (build_steps comp1 _ _ _ _ _ _) as [[b1 t1]|] eqn:H1;
      cbn [mbind option_bind]; [|done].
    destruct (build_steps comp2 _ _ _ _ _ _) as [[b2 t2]|] eqn:H2;
      cbn [mbind option_bind]; [|done].
    apply build_steps_shape in H1; [|lia].
    apply build_steps_shape in H2; [|lia].
    rewrite <- Hlen in *. subst t1 t2. apply extract_steps_shape.
Qed.

Lemma heap_shape_independent_of_data_witness :
  length [5; 3; 4; 1; 2] = length [true; true; false; true; false] /\
  (forall a1 s1 a2 s2, (4 <= length [5; 3; 4; 1; 2])%nat ->
     build_state Z.ltb [5; 3; 4; 1; 2] 4 = Some (a1, s1) ->
     build_state (fun _ _ : bool => true)
       [true; true; false; true; false] 4 = Some (a2, s2) ->
     s1 = Nat.iter 4 shape_add empty_shape /\ s2 = s1).
Proof.
  assert (Hlen : length [5; 3; 4; 1; 2]
                 = length [true; true; false; true; false]) by reflexivity.
  split; [exact Hlen|].
  exact (proj1 (heap_shape_independent_of_data Z.ltb (fun _ _ : bool => true)
                  [5; 3; 4; 1; 2] [true; true; false; true; false] Hlen)
           4%nat).
Defined.

(** ** What the two phases leave alone *)

(** X7.  The build phase does not touch what it has not inserted yet:
    after the first [j] inserts of a [Smoothsort] run the elements from
    position [j] on are where the input had them, and the first [j]
    positions hold a permutation of the first [j] elements of the
    input. *)
Theorem build_phase_frame {A} (comp : A -> A -> bool) (l : list A)
    (j : nat) (a : list A) (shape : HeapShape) :
  Z.of_nat (length l) < 2 ^ size_t_bits -> (j <= length l)%nat ->
  build_state comp l j = Some (a, shape) ->
  drop j a = drop j l /\ take j l ≡ₚ take j a.
Proof.
  intros Hn Hj Hb. unfold size_t_bits in Hn. unfold build_state in Hb.
  destruct (build_steps_spec comp j l empty_shape [] 0 (Z.of_nat (length l)))
    as (a' & shape' & os & Hb' & _ & Hsw & _);
    [apply shape_inv_empty|lia|lia|done|done|].
  rewrite Hb in Hb'. simplify_eq. rewrite Z.add_0_l in Hsw.
  split; [by apply swaps_within_drop|by apply swaps_within_take].
Qed.

Lemma build_phase_frame_witness :
  Z.of_nat (length [5; 3; 4; 1; 2]) < 2 ^ size_t_bits /\
  (3 <= length [5; 3; 4; 1; 2])%nat /\
  build_state Z.ltb [5; 3; 4; 1; 2] 3 = Some ([4; 3; 5; 1; 2], mkShape 1 2) /\
  drop 3 [4; 3; 5; 1; 2] = drop 3 [5; 3; 4; 1; 2] /\
  take 3 [5; 3; 4; 1; 2] ≡ₚ take 3 [4; 3; 5; 1; 2].
Proof.
  assert (Hn : Z.of_nat (length [5; 3; 4; 1; 2]) < 2 ^ size_t_bits)
    by (vm_compute; reflexivity).
  assert (Hj : (3 <= length [5; 3; 4; 1; 2])%nat) by (simpl; lia).
  assert (Hb : build_state Z.ltb [5; 3; 4; 1; 2] 3
               = Some ([4; 3; 5; 1; 2], mkShape 1 2))
    by (vm_compute; reflexivity).
  split; [exact Hn|]. split; [exact Hj|]. split; [exact Hb|].
  exact (build_phase_frame Z.ltb [5; 3; 4; 1; 2] 3 [4; 3; 5; 1; 2]
           (mkShape 1 2) Hn Hj Hb).
Defined.

(** Removes compose: [r + s] removes are [r] removes and then [s]. *)
Lemma extract_steps_app {A} (comp : A -> A -> bool) (r s : nat) :
  forall a m shape,
  Z.of_nat r <= m ->
  extract_steps comp (r + s) a 0 m shape =
    '(a', shape') ← extract_steps comp r a 0 m shape;
    extract_steps comp s a' 0 (m - Z.of_nat r) shape'.
Proof.
  induction r as [|r IH]; intros a m shape Hr.
  - cbn [extract_steps Nat.add mbind option_bind]. by rewrite Z.sub_0_r.
  - cbn [extract_steps Nat.add]. destruct (decide (m = 0)) as [|_]; [lia|].
    destruct (LeonardoHeapRemove _ _ _ _ _) as [[a1 s1]|];
      cbn [mbind option_bind]; [|done].
    rewrite IH by lia.
    by replace (m - 1 - Z.of_nat r) with (m - Z.of_nat (S r)) by lia.
Qed.

(** X8.  The remove phase finishes the output from the right: after [r]
    removes of a [Smoothsort] run the last [r] positions already hold
    what the finished run returns there, and the remaining removes only
    permute the elements before them. *)
Theorem extract_phase_suffix_final {A} (comp : A -> A -> bool) (l : list A)
    (r : nat) (a : list A) (shape : HeapShape) :
  Z.of_nat (length l) < 2 ^ size_t_bits -> (r <= length l)%nat ->
  extract_state comp l r = Some (a, shape) ->
  exists l',
    Smoothsort comp l = Some l' /\
    drop (length l - r) l' = drop (length l - r) a /\
    take (length l - r) a ≡ₚ take (length l - r) l'.
Proof.
  intros Hn Hr He. unfold size_t_bits in Hn.
  destruct (extract_state_inv comp l r Hn Hr)
    as (a0 & shape0 & os & He' & Hinv & Hlen & Hperm & _).
  rewrite He in He'. simplify_eq.
  destruct (decide (2 <= length l)%nat) as [Hl|Hl].
  - rewrite (Smoothsort_states comp l Hl).
    unfold extract_state in *.
    destruct (build_state comp l (length l)) as [[a1 shape1]|];
      cbn [mbind option_bind] in *; [|done].
    replace (extract_steps comp (length l) a1 0 (Z.of_nat (length l)) shape1)
      with (extract_steps comp (r + (length l - r)) a1 0
              (Z.of_nat (length l)) shape1) by (f_equal; lia).
    rewrite extract_steps_app, He by lia. cbn [mbind option_bind].
    destruct (extract_steps_spec comp (length l - r) a0 shape0 os
                (Z.of_nat (length l) - Z.of_nat r) (Z.of_nat (length l)))
      as (a' & shape' & os' & Hrest & _ & Hsw & _); [done|lia..|].
    rewrite Hrest. exists a'. cbn [fmap option_fmap option_map fst].
    replace (Z.of_nat (length l) - Z.of_nat r)
      with (Z.of_nat (length l - r)) in Hsw by lia.
    split_and!; [done|by apply swaps_within_drop|by apply swaps_within_take].
  - exists l. assert (a0 = l) as ->.
    { destruct l as [|x [|y l]]; [|..|simpl in Hl; lia].
      - symmetry. by apply Permutation_nil_l.
      - symmetry. by apply Permutation_singleton_l. }
    split; [|done]. unfold Smoothsort. rewrite decide_True; [done|].
    destruct l as [|x [|y l]]; simpl in *; lia.
Qed.

Lemma extract_phase_suffix_final_witness :
  Z.of_nat (length [5; 3; 4; 1; 2]) < 2 ^ size_t_bits /\
  (2 <= length [5; 3; 4; 1; 2])%nat /\
  extract_state Z.ltb [5; 3; 4; 1; 2] 2 = Some ([2; 1; 3; 4; 5], mkShape 1 2) /\
  exists l',
    Smoothsort Z.ltb [5; 3; 4; 1; 2] = Some l' /\
    drop (length [5; 3; 4; 1; 2] - 2) l'
      = drop (length [5; 3; 4; 1; 2] - 2) [2; 1; 3; 4; 5] /\
    take (length [5; 3; 4; 1; 2] - 2) [2; 1; 3; 4; 5]
      ≡ₚ take (length [5; 3; 4; 1; 2] - 2) l'.
Proof.
  assert (Hn : Z.of_nat (length [5; 3; 4; 1; 2]) < 2 ^ size_t_bits)
    by (vm_compute; reflexivity).
  assert (Hr : (2 <= length [5; 3; 4; 1; 2])%nat) by (simpl; lia).
  assert (He : extract_state Z.ltb [5; 3; 4; 1; 2] 2
               = Some ([2; 1; 3; 4; 5], mkShape 1 2))
    by (vm_compute; reflexivity).
  split; [exact Hn|]. split; [exact Hr|]. split; [exact He|].
  exact (extract_phase_suffix_final Z.ltb [5; 3; 4; 1; 2] 2 [2; 1; 3; 4; 5]
           (mkShape 1 2) Hn Hr He).
Defined.

(** ** Further results on binary quicksort *)

Lemma swaps_within_frame {A} lo hi (a a' : list A) :
  swaps_within lo hi a a' ->
  a ≡ₚ a' /\ forall k, ~ (lo <= k < hi) -> deref a' k = deref a k.
Proof.
  intros Hsw. split; [by eapply swaps_within_perm|].
  intros k Hk. by apply (swaps_within_outside _ _ _ _ _ Hsw).
Qed.

(** X9.  The contract of [PartitionAtBit] on values of a signed type of
    [w] bits: it returns, with an iterator [p] into the range, the range
    rearranged so that the elements before [p] have bit [bit] of their
    two's complement pattern clear and the elements from [p] on have it
    set; the sequence is permuted, and nothing outside the range is
    moved. *)
Theorem PartitionAtBit_partitions (w : Z) (a : list Z) (b e bit : Z) :
  1 <= w -> 0 <= bit < w ->
  0 <= b <= e -> e <= Z.of_nat (length a) ->
  (forall i x, b <= i < e -> deref a i = Some x -> in_range w x) ->
  exists a' p,
    PartitionAtBit w true a b e bit = Some (a', p) /\ b <= p <= e /\
    a ≡ₚ a' /\ (forall k, ~ (b <= k < e) -> deref a' k = deref a k) /\
    (forall i x, b <= i < p -> deref a' i = Some x ->
       Z.testbit x bit = false) /\
    (forall i x, p <= i < e -> deref a' i = Some x ->
       Z.testbit x bit = true).
Proof.
  intros Hw Hbit Hb He Hall.
  destruct (PartitionAtBit_spec w a b e bit Hb He)
    as (a' & p & Hp & Hrange & Hsw & Hlo & Hhi).
  destruct (swaps_within_frame _ _ _ _ Hsw) as [Hperm Hout].
  pose proof (swaps_within_Forall (in_range w) _ _ _ _ Hsw Hall) as Hall'.
  exists a', p. split_and!; [done|lia|lia|done|done| |].
  - intros i x Hi Hx. rewrite <- (masked_testbit w Hw); [by eapply Hlo| |done].
    apply (Hall' i); [lia|done].
  - intros i x Hi Hx. rewrite <- (masked_testbit w Hw); [by eapply Hhi| |done].
    apply (Hall' i); [lia|done].
Qed.

Lemma PartitionAtBit_partitions_witness :
  1 <= 8 /\ 0 <= 0 < 8 /\ 0 <= 1 <= 5 /\
  5 <= Z.of_nat (length [9; 3; -2; 7; 4; 1]) /\
  (forall i x, 1 <= i < 5 -> deref [9; 3; -2; 7; 4; 1] i = Some x ->
     in_range 8 x) /\
  exists a' p,
    PartitionAtBit 8 true [9; 3; -2; 7; 4; 1] 1 5 0 = Some (a', p) /\
    1 <= p <= 5 /\ [9; 3; -2; 7; 4; 1] ≡ₚ a' /\
    (forall k, ~ (1 <= k < 5) -> deref a' k = deref [9; 3; -2; 7; 4; 1] k) /\
    (forall i x, 1 <= i < p -> deref a' i = Some x ->
       Z.testbit x 0 = false) /\
    (forall i x, p <= i < 5 -> deref a' i = Some x ->
       Z.testbit x 0 = true).
Proof.
  assert (Hw : 1 <= 8) by lia.
  assert (Hbit : 0 <= 0 < 8) by lia.
  assert (Hb : 0 <= 1 <= 5) by lia.
  assert (He : 5 <= Z.of_nat (length [9; 3; -2; 7; 4; 1])) by (simpl; lia).
  assert (Hall : forall i x, 1 <= i < 5 ->
            deref [9; 3; -2; 7; 4; 1] i = Some x -> in_range 8 x).
  { intros i x Hi Hx.
    assert (Hin : x ∈ [9; 3; -2; 7; 4; 1]).
    { rewrite deref_lookup in Hx by lia. by eapply list_elem_of_lookup_2. }
    unfold in_range. change (2 ^ (8 - 1)) with 128.
    repeat (apply elem_of_cons in Hin as [->|Hin]; [lia|]).
    by apply elem_of_nil in Hin. }
  split_and!; [done..|].
  exact (PartitionAtBit_partitions 8 [9; 3; -2; 7; 4; 1] 1 5 0
           Hw Hbit Hb He Hall).
Defined.

(** ** Unsigned elements *)

Lemma bitmask_unsigned w bit : 0 <= bit < w -> bitmask w false bit = 2 ^ bit.
Proof.
  intros Hbit. unfold bitmask, to_T. rewrite Z.shiftl_1_l.
  apply Z.mod_small. split; [apply Z.pow_nonneg; lia|].
  apply Z.pow_lt_mono_r; lia.
Qed.

(** On the bits of an unsigned type of [w] bits the code tests what it
    tests for the signed type of [w + 1] bits. *)
Lemma PartitionAtBit_unsigned w a b e bit :
  0 <= bit < w ->
  PartitionAtBit w false a b e bit = PartitionAtBit (w + 1) true a b e bit.
Proof.
  intros Hbit. unfold PartitionAtBit.
  by rewrite bitmask_unsigned, (bitmask_low (w + 1)) by lia.
Qed.

Lemma quicksort_loop_unsigned w fuel : forall a lo hi bit,
  bit < w ->
  quicksort_loop w false fuel a lo hi bit =
  quicksort_loop (w + 1) true fuel a lo hi bit.
Proof.
  induction fuel as [|fuel IH]; intros a lo hi bit Hbit;
    cbn [quicksort_loop]; [done|].
  case_decide as Hc; [|done].
  rewrite PartitionAtBit_unsigned by lia.
  destruct (PartitionAtBit _ _ _ _ _ _) as [[a1 pivot]|];
    cbn [mbind option_bind]; [|done].
  case_decide.
  - rewrite IH by lia.
    destruct (quicksort_loop _ _ _ _ _ _ _); cbn [mbind option_bind]; [|done].
    apply IH. lia.
  - rewrite IH by lia.
    destruct (quicksort_loop _ _ _ _ _ _ _); cbn [mbind option_bind]; [|done].
    apply IH. lia.
Qed.

Lemma ukey_small w x : 0 <= x < 2 ^ w -> ukey w x = x.
Proof. intros. unfold ukey. by apply Z.mod_small. Qed.

Lemma sorted_by_key_sorted w (a : list Z) :
  (forall x, x ∈ a -> ukey w x = x) ->
  sorted_by_key w a 0 (Z.of_nat (length a)) -> StronglySorted Z.le a.
Proof.
  intros Hk Hs. apply StronglySorted_lookup. intros i j x y Hij Hx Hy.
  rewrite <- (Hk x), <- (Hk y) by (by eapply list_elem_of_lookup_2).
  pose proof (lookup_lt_Some _ _ _ Hy).
  apply (Hs (Z.of_nat i) (Z.of_nat j)); [lia|..];
    by rewrite deref_lookup, Nat2Z.id by lia.
Qed.

(** X10.  On an unsigned type [BinaryQuicksort] skips the final rotation
    and still sorts: for every sequence of values of an unsigned type of
    [w >= 1] bits it returns a permutation of the input in ascending
    order, which is what the partitioning over the bits [w - 1] down to
    0 leaves. *)
Theorem BinaryQuicksort_sorts_unsigned (w : Z) (l : list Z) :
  1 <= w -> Forall (in_urange w) l ->
  exists l',
    BinaryQuicksort w false l = Some l' /\
    BinaryQuicksortAtBit w false l 0 (Z.of_nat (length l)) (w - 1) = Some l' /\
    l ≡ₚ l' /\ StronglySorted Z.le l'.
Proof.
  intros Hw Hall. unfold BinaryQuicksort, BinaryQuicksortAtBit.
  rewrite quicksort_loop_unsigned by lia.
  assert (Hw1 : 1 <= w + 1) by lia.
  assert (Hpow : 2 ^ (w + 1 - 1) = 2 ^ w) by (f_equal; lia).
  assert (Hpow' : 2 ^ (w + 1) = 2 * 2 ^ w) by (apply Z.pow_succ_r; lia).
  destruct (quicksort_loop_spec (w + 1) Hw1 (Z.to_nat (w - 1 + 1)) l 0
              (Z.of_nat (length l)) (w - 1) 0)
    as (l' & Hq & Hsw & Hs); [lia|lia|lia|lia| |].
  { intros i x Hi Hx. rewrite deref_lookup in Hx by lia.
    apply list_elem_of_lookup_2 in Hx.
    pose proof (proj1 (Forall_forall _ _) Hall x Hx) as Hr.
    unfold in_urange in Hr. split; [unfold in_range; lia|].
    unfold prefix, ukey. replace (w - 1 + 1) with w by lia.
    rewrite Z.mod_small by lia. apply Z.div_small. lia. }
  rewrite Hq. cbn [mbind option_bind].
  pose proof (swaps_within_perm _ _ _ _ Hsw) as Hperm.
  exists l'. split_and!; [done..|].
  rewrite <- (swaps_within_length _ _ _ _ Hsw) in Hs.
  apply (sorted_by_key_sorted (w + 1)); [|done].
  intros x Hx. rewrite <- Hperm in Hx.
  pose proof (proj1 (Forall_forall _ _) Hall x Hx) as Hr.
  unfold in_urange in Hr. apply ukey_small. lia.
Qed.

Lemma BinaryQuicksort_sorts_unsigned_witness :
  1 <= 8 /\ Forall (in_urange 8) [200; 3; 255; 0; 128; 127; 3] /\
  exists l',
    BinaryQuicksort 8 false [200; 3; 255; 0; 128; 127; 3] = Some l' /\
    BinaryQuicksortAtBit 8 false [200; 3; 255; 0; 128; 127; 3] 0
      (Z.of_nat (length [200; 3; 255; 0; 128; 127; 3])) (8 - 1) = Some l' /\
    [200; 3; 255; 0; 128; 127; 3] ≡ₚ l' /\ StronglySorted Z.le l'.
Proof.
  assert (Hw : 1 <= 8) by lia.
  assert (Hall : Forall (in_urange 8) [200; 3; 255; 0; 128; 127; 3]).
  { repeat (constructor; [unfold in_urange; simpl; lia|]). constructor. }
  split; [exact Hw|]. split; [exact Hall|].
  exact (BinaryQuicksort_sorts_unsigned 8 [200; 3; 255; 0; 128; 127; 3]
           Hw Hall).
Defined.

(** ** The rotation and the recursion on their own *)

(** X11.  What [RotateNegativeValues] does to an arbitrary sequence of a
    signed type: it looks for the first negative value and rotates the
    sequence so that this value comes first, keeping the order inside
    the two blocks it exchanges; a sequence without a negative value is
    returned as it is.  It does not sort: it relies on the negative
    values standing at the end, in order. *)
Theorem RotateNegativeValues_first_negative (w : Z) (a : list Z) :
  1 <= w ->
  exists a',
    RotateNegativeValues w true a 0 (Z.of_nat (length a)) = Some a' /\
    ((a' = a /\ Forall (fun x => 0 <= x) a) \/
     exists (p : nat) x,
       a !! p = Some x /\ x < 0 /\ Forall (fun y => 0 <= y) (take p a) /\
       a' = drop p a ++ take p a).
Proof.
  intros Hw. unfold RotateNegativeValues. rewrite Z.sub_0_r.
  destruct (rotate_loop_spec w Hw (Z.to_nat (Z.of_nat (length a))) a 0)
    as (a' & Hr & Hcases); [lia|lia|intros; lia|].
  exists a'. split; [done|].
  destruct Hcases as [[-> Hnn]|(p & x & -> & Hx & Hneg & Hnn)].
  - left. split; [done|]. apply Forall_lookup. intros i x Hx.
    apply (Hnn (Z.of_nat i)). by rewrite deref_lookup, Nat2Z.id by lia.
  - right. pose proof (deref_Some_range _ _ _ Hx).
    exists (Z.to_nat p), x. rewrite deref_lookup in Hx by lia.
    split_and!; [done..| |done].
    apply Forall_lookup. intros i y Hy.
    apply lookup_take_Some in Hy as [Hy Hi].
    apply (Hnn (Z.of_nat i)); [lia|].
    by rewrite deref_lookup, Nat2Z.id by lia.
Qed.

Lemma RotateNegativeValues_first_negative_witness :
  1 <= 8 /\
  exists a',
    RotateNegativeValues 8 true [4; 0; -3; 7; -1]
      0 (Z.of_nat (length [4; 0; -3; 7; -1])) = Some a' /\
    ((a' = [4; 0; -3; 7; -1] /\ Forall (fun x => 0 <= x) [4; 0; -3; 7; -1]) \/
     exists (p : nat) x,
       [4; 0; -3; 7; -1] !! p = Some x /\ x < 0 /\
       Forall (fun y => 0 <= y) (take p [4; 0; -3; 7; -1]) /\
       a' = drop p [4; 0; -3; 7; -1] ++ take p [4; 0; -3; 7; -1]).
Proof.
  assert (Hw : 1 <= 8) by lia.
  split; [exact Hw|].
  exact (RotateNegativeValues_first_negative 8 [4; 0; -3; 7; -1] Hw).
Defined.

(** X12.  The contract of the recursion.  Called on a range whose
    elements, values of a signed type of [w] bits, agree in all bits
    above [bit], [BinaryQuicksortAtBit] returns the range in ascending
    order of the bit patterns; the sequence is permuted and nothing
    outside the range is moved. *)
Theorem BinaryQuicksortAtBit_range (w : Z) (a : list Z) (lo hi bit c : Z) :
  1 <= w -> -1 <= bit < w ->
  0 <= lo <= hi -> hi <= Z.of_nat (length a) ->
  all_prefix w a lo hi (bit + 1) c ->
  exists a',
    BinaryQuicksortAtBit w true a lo hi bit = Some a' /\
    a ≡ₚ a' /\ (forall k, ~ (lo <= k < hi) -> deref a' k = deref a k) /\
    sorted_by_key w a' lo hi.
Proof.
  intros Hw Hbit Hlo Hhi Hall. unfold BinaryQuicksortAtBit.
  destruct (quicksort_loop_spec w Hw (Z.to_nat (bit + 1)) a lo hi bit c)
    as (a' & Hq & Hsw & Hs); [lia|lia|lia|lia|done|].
  destruct (swaps_within_frame _ _ _ _ Hsw) as [Hperm Hout].
  by exists a'.
Qed.

Lemma BinaryQuicksortAtBit_range_witness :
  1 <= 8 /\ -1 <= 1 < 8 /\ 0 <= 1 <= 5 /\
  5 <= Z.of_nat (length [100; 6; 5; 4; 7; -100]) /\
  all_prefix 8 [100; 6; 5; 4; 7; -100] 1 5 (1 + 1) 1 /\
  exists a',
    BinaryQuicksortAtBit 8 true [100; 6; 5; 4; 7; -100] 1 5 1 = Some a' /\
    [100; 6; 5; 4; 7; -100] ≡ₚ a' /\
    (forall k, ~ (1 <= k < 5) ->
       deref a' k = deref [100; 6; 5; 4; 7; -100] k) /\
    sorted_by_key 8 a' 1 5.
Proof.
  assert (Hw : 1 <= 8) by lia.
  assert (Hbit : -1 <= 1 < 8) by lia.
  assert (Hlo : 0 <= 1 <= 5) by lia.
  assert (Hhi : 5 <= Z.of_nat (length [100; 6; 5; 4; 7; -100]))
    by (simpl; lia).
  assert (Hall : all_prefix 8 [100; 6; 5; 4; 7; -100] 1 5 (1 + 1) 1).
  { intros i x Hi Hx.
    assert (Hcases : i = 1 \/ i = 2 \/ i = 3 \/ i = 4) by lia.
    destruct Hcases as [-> | [-> | [-> | ->]]]; vm_compute in Hx; simplify_eq;
      (split; [unfold in_range; simpl; lia|reflexivity]). }
  split_and!; [done..|].
  exact (BinaryQuicksortAtBit_range 8 [100; 6; 5; 4; 7; -100] 1 5 1 1
           Hw Hbit Hlo Hhi Hall).
Defined.

(** ** The two sorts agree *)

Lemma sorted_ltb_le (l : list Z) :
  StronglySorted (fun x y => Z.ltb y x = false) l -> StronglySorted Z.le l.
Proof.
  induction 1 as [|x l _ IH Hall]; constructor; [done|].
  eapply Forall_impl; [done|]. intros y. cbv beta. rewrite Z.ltb_ge. lia.
Qed.

(** X13.  The overload [Smoothsort(begin, end)] sorts integers in
    ascending order, and on every sequence of values of a signed type of
    [w] bits it returns exactly the sequence [BinaryQuicksort] returns:
    the comparison sort and the radix sort agree. *)
Theorem Smoothsort_less_agrees_with_BinaryQuicksort (w : Z) (l : list Z) :
  1 <= w -> Forall (in_range w) l ->
  Z.of_nat (length l) < 2 ^ size_t_bits ->
  exists l',
    Smoothsort_less l = Some l' /\ BinaryQuicksort w true l = Some l' /\
    l ≡ₚ l' /\ StronglySorted Z.le l'.
Proof.
  intros Hw Hall Hlen. unfold Smoothsort_less.
  destruct (Smoothsort_spec Z.ltb l Hlen) as (l1 & Hs & Hp1 & Hsorted1).
  destruct (BinaryQuicksort_spec w Hw l Hall) as (l2 & Hb & Hp2 & Hsorted2).
  assert (HW : WeakOrder Z.ltb)
    by (split; intros *; rewrite ?Z.ltb_lt, ?Z.ltb_ge; lia).
  pose proof (sorted_ltb_le _ (Hsorted1 HW)) as Hsorted1'.
  assert (l2 = l1) as ->.
  { apply (StronglySorted_unique Z.le); [done..|]. by rewrite <- Hp1, <- Hp2. }
  by exists l1.
Qed.

Lemma Smoothsort_less_agrees_with_BinaryQuicksort_witness :
  1 <= 8 /\ Forall (in_range 8) [3; -1; 4; -128; 127; 0; -5] /\
  Z.of_nat (length [3; -1; 4; -128; 127; 0; -5]) < 2 ^ size_t_bits /\
  exists l',
    Smoothsort_less [3; -1; 4; -128; 127; 0; -5] = Some l' /\
    BinaryQuicksort 8 true [3; -1; 4; -128; 127; 0; -5] = Some l' /\
    [3; -1; 4; -128; 127; 0; -5] ≡ₚ l' /\ StronglySorted Z.le l'.
Proof.
  assert (Hw : 1 <= 8) by lia.
  assert (Hall : Forall (in_range 8) [3; -1; 4; -128; 127; 0; -5]).
  { repeat (constructor; [unfold in_range; simpl; lia|]). constructor. }
  assert (Hlen : Z.of_nat (length [3; -1; 4; -128; 127; 0; -5])
                 < 2 ^ size_t_bits) by (vm_compute; reflexivity).
  split_and!; [done..|].
  exact (Smoothsort_less_agrees_with_BinaryQuicksort 8
           [3; -1; 4; -128; 127; 0; -5] Hw Hall Hlen).
Defined.

(** ** Cartesian trees *)

Section CartesianFacts.
Context {A : Type} (comp : A -> A -> bool).
Implicit Types (s : list (Node.t A)) (spine : list nat).

Lemma subtree_at_le s p lo hi : subtree_at s p lo hi -> (lo <= hi)%nat.
Proof. induction 1; lia. Qed.

Lemma subtree_at_length s p lo hi :
  subtree_at s p lo hi -> lo = hi \/ (hi <= length s)%nat.
Proof.
  induction 1 as [|p n lo hi Hp Hr _ _ _ [IH|IH]]; [by left|right..].
  - apply lookup_lt_Some in Hp. lia.
  - done.
Qed.

(** A tree only depends on the nodes of its range. *)
Lemma subtree_at_ext s s' p lo hi :
  subtree_at s p lo hi ->
  (forall i, (lo <= i < hi)%nat -> s' !! i = s !! i) ->
  subtree_at s' p lo hi.
Proof.
  induction 1 as [|p n lo hi Hp Hr Hl IHl Hrt IHr]; intros Hext;
    [constructor|].
  apply (subtree_node s' p n); [by rewrite Hext|done|..].
  - apply IHl. intros i Hi. apply Hext. lia.
  - apply IHr. intros i Hi. apply Hext. lia.
Qed.

Lemma take_drop_middle_range (vs : list A) (lo p hi : nat) x :
  vs !! p = Some x -> (lo <= p < hi)%nat ->
  take (p - lo) (drop lo vs) ++ x :: take (hi - S p) (drop (S p) vs)
  = take (hi - lo) (drop lo vs).
Proof.
  intros Hx Hr. pose proof (lookup_lt_Some _ _ _ Hx) as Hlt.
  rewrite <- (take_drop (p - lo) (drop lo vs)) at 2.
  rewrite drop_drop. replace (lo + (p - lo))%nat with p by lia.
  rewrite (drop_S _ _ _ Hx).
  rewrite take_app_ge; rewrite length_take, length_drop; [|lia].
  f_equal. replace (hi - lo - (p - lo) `min` (length vs - lo))%nat
    with (S (hi - S p)) by lia.
  done.
Qed.

Lemma inorder_subtree s p lo hi :
  subtree_at s p lo hi ->
  forall fuel, (hi - lo <= fuel)%nat ->
  inorder fuel s p = Some (take (hi - lo) (drop lo (Node.value <$> s))).
Proof.
  induction 1 as [|p n lo hi Hp Hr Hl IHl Hrt IHr]; intros fuel Hf.
  - destruct fuel; cbn [inorder]; by rewrite Nat.sub_diag.
  - destruct fuel as [|fuel]; [lia|]. cbn [inorder].
    rewrite Hp. cbn [mbind option_bind].
    rewrite IHl by lia. cbn [mbind option_bind].
    rewrite IHr by lia. cbn [mbind option_bind]. f_equal.
    apply take_drop_middle_range; [|done].
    by rewrite list_lookup_fmap, Hp.
Qed.

(** *** The right spine *)

Lemma spine_ok_app spine1 spine2 s :
  spine_ok s (spine1 ++ spine2) -> spine_ok s spine2.
Proof.
  induction spine1 as [|c spine1 IH]; [done|]. intros (_ & _ & H). by apply IH.
Qed.

Lemma spine_ok_lt s c p rest : spine_ok s (c :: p :: rest) -> (p < c)%nat.
Proof.
  intros ((n & _ & Hsub) & _). apply subtree_at_le in Hsub. simpl in Hsub. lia.
Qed.

(** The nodes of a spine below [c] are smaller than [c]. *)
Lemma spine_ok_below s c rest :
  spine_ok s (c :: rest) -> Forall (fun p => (p < c)%nat) rest.
Proof.
  revert c. induction rest as [|p rest IH]; intros c Hok; [done|].
  pose proof (spine_ok_lt _ _ _ _ Hok).
  constructor; [done|]. destruct Hok as (_ & _ & Hok).
  eapply Forall_impl; [by apply IH|]. intros q Hq. cbv beta in *. lia.
Qed.

(** A spine only depends on the nodes up to its first node. *)
Lemma spine_ok_ext s s' spine :
  spine_ok s spine ->
  (forall i, (i < spine_lo spine)%nat -> s' !! i = s !! i) ->
  spine_ok s' spine.
Proof.
  induction spine as [|c rest IH]; [done|]. intros Hok Hext.
  pose proof (spine_ok_below _ _ _ Hok) as Hbelow.
  destruct Hok as ((n & Hn & Hsub) & Hlink & Hok).
  pose proof (subtree_at_le _ _ _ _ Hsub).
  cbn [spine_lo] in Hext. split_and!.
  - exists n. split; [rewrite Hext; [done|lia]|].
    apply (subtree_at_ext s); [done|]. intros i Hi. apply Hext. lia.
  - destruct rest as [|p rest]; [done|]. destruct Hlink as (np & Hnp & Hr).
    exists np. split; [|done]. rewrite Hext; [done|].
    apply Forall_cons in Hbelow as [? _]. lia.
  - apply IH; [done|]. intros i Hi. apply Hext.
    destruct rest as [|p rest]; simpl in *; lia.
Qed.

(** Every node of the spine carries the tree of all the nodes after its
    parent. *)
Lemma spine_subtree s pre c rest :
  spine_ok s (pre ++ c :: rest) -> spine_top s (pre ++ c :: rest) ->
  subtree_at s (Some c) (spine_lo rest) (length s).
Proof.
  revert c rest. induction pre as [|d pre IH] using rev_ind;
    intros c rest Hok Htop.
  - destruct Hok as ((n & Hn & Hsub) & _ & _).
    destruct Htop as (Hlen & n' & Hn' & Hr). simplify_eq/=.
    pose proof (subtree_at_le _ _ _ _ Hsub).
    apply (subtree_node s c n); [done|lia|done|].
    rewrite Hr, <- Hlen. constructor.
  - rewrite <- app_assoc in Hok, Htop. cbn [app] in Hok, Htop.
    pose proof (IH d (c :: rest) Hok Htop) as Hd. cbn [spine_lo] in Hd.
    apply spine_ok_app in Hok.
    destruct Hok as (_ & (nc & Hnc & Hr) & (n & Hn & Hsub) & _ & _).
    simplify_eq. pose proof (subtree_at_le _ _ _ _ Hsub).
    pose proof (subtree_at_le _ _ _ _ Hd).
    apply (subtree_node s c nc); [done|lia|done|by rewrite Hr].
Qed.

Lemma spine_ok_valid s spine :
  spine_ok s spine -> Forall (fun c => is_Some (s !! c)) spine.
Proof.
  induction spine as [|c rest IH]; [done|].
  intros ((n & Hn & _) & _ & Hok). constructor; [by exists n|by apply IH].
Qed.

(** *** The walk up the spine *)

Lemma find_parent_spec s node nn spine :
  s !! node = Some nn ->
  Forall (fun c => is_Some (s !! c)) spine ->
  exists popped kept,
    spine = popped ++ kept /\
    find_parent comp s node ((Some <$> spine) ++ [None])
      = Some (head kept, (Some <$> kept) ++ [None]) /\
    Forall (fun p => exists np, s !! p = Some np /\
                comp (Node.value np) (Node.value nn) = false) popped /\
    match kept with
    | [] => True
    | c :: _ => exists nc, s !! c = Some nc /\
                  comp (Node.value nc) (Node.value nn) = true
    end.
Proof.
  intros Hnode. induction spine as [|c rest IH]; intros Hvalid.
  - by exists [], [].
  - apply Forall_cons in Hvalid as [[nc Hnc] Hvalid].
    cbn [fmap list_fmap app find_parent]. rewrite Hnc, Hnode.
    cbn [mbind option_bind].
    destruct (comp (Node.value nc) (Node.value nn)) eqn:Hc.
    + exists [], (c :: rest). split_and!; [done..|]. by exists nc.
    + destruct (IH Hvalid) as (popped & kept & -> & Hf & Hpop & Hkept).
      exists (c :: popped), kept. split_and!; [done..| |done].
      constructor; [by exists nc|done].
Qed.

(** *** One insertion *)

Lemma heap_edges_snoc s x (l : option nat) :
  heap_edges comp s ->
  match l with
  | None => True
  | Some i => exists nl, s !! i = Some nl /\ comp (Node.value nl) x = false
  end ->
  heap_edges comp (s ++ [Node.mk x l None]).
Proof.
  intros Hedges Hl p n Hp.
  apply lookup_app_Some in Hp as [Hp|[Hge Hp]].
  - destruct (Hedges p n Hp) as [Hleft Hright]. split.
    + intros i Hi. destruct (Hleft i Hi) as (nl & Hnl & Hc).
      exists nl. split; [|done]. by apply lookup_app_l_Some.
    + intros i Hi. destruct (Hright i Hi) as (nr & Hnr & Hc).
      exists nr. split; [|done]. by apply lookup_app_l_Some.
  - apply list_lookup_singleton_Some in Hp as [_ <-].
    cbn [Node.left Node.right Node.value]. split; [|done].
    intros i ->. destruct Hl as (nl & Hnl & Hc).
    exists nl. split; [|done]. by apply lookup_app_l_Some.
Qed.

(** Redirecting the right pointer of [c] to a greater node keeps the
    edges in order. *)
Lemma heap_edges_set_right s c nc j nj :
  heap_edges comp s -> s !! c = Some nc -> s !! j = Some nj ->
  comp (Node.value nc) (Node.value nj) = true ->
  heap_edges comp
    (<[c := Node.mk (Node.value nc) (Node.left nc) (Some j)]> s).
Proof.
  intros Hedges Hc Hj Hcomp.
  assert (Hval : forall i ni, s !! i = Some ni ->
            exists ni',
              <[c := Node.mk (Node.value nc) (Node.left nc) (Some j)]> s !! i
                = Some ni' /\ Node.value ni' = Node.value ni).
  { intros i ni Hi. destruct (decide (i = c)) as [->|Hne].
    - eexists. rewrite list_lookup_insert_eq by (by eapply lookup_lt_Some).
      split; [done|]. cbn. congruence.
    - exists ni. by rewrite list_lookup_insert_ne. }
  intros p n Hp. destruct (decide (p = c)) as [->|Hne].
  - rewrite list_lookup_insert_eq in Hp by (by eapply lookup_lt_Some).
    simplify_eq. cbn [Node.left Node.right Node.value].
    destruct (Hedges c nc Hc) as [Hleft _]. split.
    + intros i Hi. destruct (Hleft i Hi) as (nl & Hnl & Hcl).
      destruct (Hval i nl Hnl) as (nl' & Hnl' & Hv).
      exists nl'. by rewrite Hv.
    + intros i [= <-]. destruct (Hval j nj Hj) as (nj' & Hnj' & Hv).
      exists nj'. by rewrite Hv.
  - rewrite list_lookup_insert_ne in Hp by done.
    destruct (Hedges p n Hp) as [Hleft Hright]. split.
    + intros i Hi. destruct (Hleft i Hi) as (nl & Hnl & Hcl).
      destruct (Hval i nl Hnl) as (nl' & Hnl' & Hv).
      exists nl'. by rewrite Hv.
    + intros i Hi. destruct (Hright i Hi) as (nr & Hnr & Hcr).
      destruct (Hval i nr Hnr) as (nr' & Hnr' & Hv).
      exists nr'. by rewrite Hv.
Qed.

Lemma set_left_new s x l :
  set_left (s ++ [Node.mk x None None]) (length s) l
  = Some (s ++ [Node.mk x l None]).
Proof.
  unfold set_left. rewrite list_lookup_middle by done.
  cbn [mbind option_bind Node.value Node.right]. f_equal.
  replace (length s) with (length s + 0)%nat at 1 by lia.
  by rewrite insert_app_r.
Qed.

Lemma last_app_cons (pre : list nat) c rest :
  last (pre ++ c :: rest) = last (c :: rest).
Proof. induction pre as [|d [|e pre] IH]; [done| |]; by cbn in *. Qed.

Lemma insert_node_inv xs st x :
  make_inv comp xs st ->
  exists st', insert_node comp st x = Some st' /\
              make_inv comp (xs ++ [x]) st'.
Proof.
  destruct st as [[s root] rightSpine].
  intros (Hval & Hedges & spine & -> & -> & Hok & Htop).
  cbn [insert_node new_node]. set (j := length s).
  set (s1 := s ++ [Node.mk x None None]).
  assert (Hj : s1 !! j = Some (Node.mk x None None))
    by (by apply list_lookup_middle).
  assert (Hold : forall i n, s !! i = Some n -> s1 !! i = Some n)
    by (intros i n Hi; by apply lookup_app_l_Some).
  assert (Hvalid : Forall (fun c => is_Some (s1 !! c)) spine).
  { eapply Forall_impl; [by apply spine_ok_valid|].
    intros c [n Hn]. exists n. by apply Hold. }
  destruct (find_parent_spec s1 j _ spine Hj Hvalid)
    as (popped & kept & -> & -> & Hpop & Hkept).
  cbn [mbind option_bind Node.value] in *.
  assert (Hpop' : Forall (fun p => exists np, s !! p = Some np /\
                            comp (Node.value np) x = false) popped).
  { apply Forall_forall. intros p Hp.
    destruct (proj1 (Forall_forall _ _) Hpop p Hp) as (np & Hnp & Hc).
    assert (is_Some (s !! p)) as [np' Hnp'].
    { apply (proj1 (Forall_forall _ _) (spine_ok_valid _ _ Hok)).
      apply elem_of_app. by left. }
    rewrite (Hold _ _ Hnp') in Hnp. simplify_eq. by exists np. }
  destruct kept as [|c rest]; cbn [head].
  - (* the new node is the new root *)
    rewrite app_nil_r in *. subst s1 j. rewrite set_left_new.
    cbn [mbind option_bind]. eexists. split; [done|].
    assert (Hsub : subtree_at s (last popped) 0 (length s)).
    { destruct popped as [|d pre _] using rev_ind.
      - simpl in Htop. rewrite Htop. constructor.
      - rewrite last_snoc.
        by apply (spine_subtree s pre d []). }
    split_and!.
    + by rewrite fmap_app, Hval.
    + apply heap_edges_snoc; [done|].
      destruct popped as [|d pre _] using rev_ind; [done|].
      rewrite last_snoc. apply Forall_app in Hpop' as [_ Hd].
      exact (proj1 (Forall_singleton _ _) Hd).
    + exists [length s]. split_and!; [done|done| |].
      * split_and!; [|done..]. eexists. split; [by apply list_lookup_middle|].
        cbn [Node.left spine_lo]. apply (subtree_at_ext s); [done|].
        intros i Hi. by rewrite lookup_app_l by lia.
      * split; [rewrite length_app; simpl; lia|].
        eexists. split; [by apply list_lookup_middle|done].
  - (* the new node becomes the right child of [c] *)
    destruct Hkept as (nc & Hnc & Hcomp).
    pose proof (spine_ok_app _ _ _ Hok) as Hokc.
    assert (is_Some (s !! c)) as [nc' Hnc'].
    { apply (proj1 (Forall_forall _ _) (spine_ok_valid _ _ Hok)).
      apply elem_of_app. right. left. }
    rewrite (Hold _ _ Hnc') in Hnc. simplify_eq.
    pose proof (lookup_lt_Some _ _ _ Hnc') as Hcj.
    rewrite (Hold _ _ Hnc'). cbn [mbind option_bind].
    subst s1 j. rewrite set_left_new. cbn [mbind option_bind].
    set (s2 := s ++ [Node.mk x (Node.right nc) None]).
    assert (Hc2 : s2 !! c = Some nc) by (by apply lookup_app_l_Some).
    unfold set_right. rewrite Hc2. cbn [mbind option_bind].
    set (s3 := <[c := Node.mk (Node.value nc) (Node.left nc)
                         (Some (length s))]> s2).
    eexists. split; [done|].
    assert (Hj3 : s3 !! length s = Some (Node.mk x (Node.right nc) None)).
    { subst s3. rewrite list_lookup_insert_ne by lia.
      by apply list_lookup_middle. }
    assert (Hc3 : s3 !! c = Some (Node.mk (Node.value nc) (Node.left nc)
                                    (Some (length s)))).
    { subst s3. apply list_lookup_insert_eq.
      subst s2. rewrite length_app. simpl. lia. }
    assert (Hsame : forall i, (i < length s)%nat -> i <> c ->
              s3 !! i = s !! i).
    { intros i Hi Hne. subst s3 s2.
      rewrite list_lookup_insert_ne by done. by rewrite lookup_app_l. }
    (* the right child of [c] so far: the last node popped *)
    assert (Hright : subtree_at s (Node.right nc) (S c) (length s) /\
              match Node.right nc with
              | None => True
              | Some i => exists nl, s !! i = Some nl /\
                            comp (Node.value nl) x = false
              end).
    { destruct popped as [|d pre _] using rev_ind.
      - destruct Htop as [Hlen (n & Hn & Hr)]. simplify_eq/=.
        rewrite Hr, <- Hlen. split; [constructor|done].
      - rewrite <- app_assoc in Hok, Htop. cbn [app] in Hok, Htop.
        pose proof (spine_subtree s pre d (c :: rest) Hok Htop) as Hd.
        apply spine_ok_app in Hok.
        destruct Hok as (_ & (np & Hnp & Hr) & _). simplify_eq.
        rewrite Hr. split; [done|].
        apply Forall_app in Hpop' as [_ Hd'].
        exact (proj1 (Forall_singleton _ _) Hd'). }
    destruct Hright as [Hrsub Hrcomp].
    split_and!.
    + subst s3 s2. rewrite list_fmap_insert, fmap_app.
      cbn [fmap list_fmap Node.value]. apply list_insert_id.
      rewrite lookup_app_l by (rewrite length_fmap; lia).
      by rewrite list_lookup_fmap, Hnc'.
    + apply (heap_edges_set_right s2 c nc (length s)
               (Node.mk x (Node.right nc) None)); [|done| |done].
      * by apply heap_edges_snoc.
      * by apply list_lookup_middle.
    + exists (length s :: c :: rest). split_and!.
      * done.
      * rewrite last_app_cons. done.
      * destruct Hokc as ((n & Hn & Hsub) & Hlink & Hokr). simplify_eq.
        pose proof (subtree_at_le _ _ _ _ Hsub) as Hle.
        pose proof (spine_ok_below s c rest) as Hbelow.
        cbn [spine_ok spine_lo]. split_and!.
        -- eexists. split; [done|]. cbn [Node.left].
           apply (subtree_at_ext s); [done|].
           intros i Hi. apply Hsame; lia.
        -- eexists. by split.
        -- eexists. split; [done|]. cbn [Node.left].
           apply (subtree_at_ext s); [done|].
           intros i Hi. apply Hsame; lia.
        -- destruct rest as [|p rest]; [done|].
           destruct Hlink as (np & Hnp & Hr). exists np. split; [|done].
           pose proof (lookup_lt_Some _ _ _ Hnp). simpl in Hle.
           rewrite Hsame; [done|lia|lia].
        -- apply (spine_ok_ext s); [done|]. intros i Hi.
           apply Hsame; [|destruct rest; simpl in *; lia].
           destruct rest; simpl in *; lia.
      * split; [subst s3 s2; rewrite length_insert, length_app; simpl; lia|].
        eexists. by split.
Qed.

Lemma make_loop_inv xs : forall xs0 st,
  make_inv comp xs0 st ->
  exists st', make_loop comp xs st = Some st' /\
              make_inv comp (xs0 ++ xs) st'.
Proof.
  induction xs as [|x xs IH]; intros xs0 st Hinv.
  - exists st. by rewrite app_nil_r.
  - destruct (insert_node_inv xs0 st x Hinv) as (st1 & Hins & Hinv1).
    destruct (IH _ _ Hinv1) as (st' & Hloop & Hinv').
    exists st'. cbn [make_loop]. rewrite Hins. cbn [mbind option_bind].
    by rewrite <- app_assoc in Hinv'.
Qed.

Lemma make_inv_init : make_inv comp [] ([], None, [None]).
Proof.
  split_and!; [done|by intros p n Hp|]. by exists [].
Qed.

(** [MakeCartesianTree] returns, and what it returns is a tree over all
    the nodes, which hold the elements in their order, with its edges
    in order. *)
Lemma MakeCartesianTree_spec xs :
  exists s root,
    MakeCartesianTree comp xs = Some (s, root) /\
    Node.value <$> s = xs /\ heap_edges comp s /\
    subtree_at s root 0 (length s).
Proof.
  destruct (make_loop_inv xs [] _ make_inv_init)
    as ([[s root] rightSpine] & Hloop & Hval & Hedges & spine & _ & -> &
        Hok & Htop).
  exists s, (last spine). unfold MakeCartesianTree. rewrite Hloop.
  cbn [mbind option_bind]. split_and!; [done..|].
  destruct spine as [|d pre _] using rev_ind.
  - simpl in Htop. rewrite Htop. constructor.
  - rewrite last_snoc. by apply (spine_subtree s pre d []).
Qed.

End CartesianFacts.

(** ** The loop of Cartesian tree sort *)

Section CartesianSort.
Context {A : Type} (comp : A -> A -> bool).
Implicit Types (s : list (Node.t A)) (pq : list nat).

Lemma weak_irrefl `{!WeakOrder comp} x : comp x x = false.
Proof.
  destruct (comp x x) eqn:Hx; [|done]. by rewrite (comp_asym _ _ _ Hx) in Hx.
Qed.

(** Among finitely many elements one is not greater than any. *)
Lemma exists_minimum `{!WeakOrder comp} {B} (f : B -> option A) (l : list B) :
  l <> [] -> (forall y, y ∈ l -> is_Some (f y)) ->
  exists t vt, t ∈ l /\ f t = Some vt /\
    forall y vy, y ∈ l -> f y = Some vy -> comp vy vt = false.
Proof.
  induction l as [|x l IH]; [done|]. intros _ Hvalid.
  destruct (Hvalid x) as [vx Hvx]; [left|].
  destruct l as [|x' l].
  - exists x, vx. split_and!; [left|done|].
    intros y vy ->%list_elem_of_singleton Hvy. simplify_eq.
    apply weak_irrefl.
  - destruct IH as (t & vt & Ht & Hvt & Hmin);
      [done|intros y Hy; apply Hvalid; by right|].
    destruct (comp vx vt) eqn:Hxt.
    + exists x, vx. split_and!; [left|done|].
      intros y vy [->|Hy]%elem_of_cons Hvy.
      * simplify_eq. apply weak_irrefl.
      * apply (comp_ntrans _ _ vt); [by eapply Hmin|].
        by apply comp_asym.
    + exists t, vt. split_and!; [by right|done|].
      intros y vy [->|Hy]%elem_of_cons Hvy; [by simplify_eq|].
      by eapply Hmin.
Qed.

Lemma segment_elem s lo hi x :
  x ∈ segment s lo hi ->
  exists i n, (lo <= i < hi)%nat /\ s !! i = Some n /\ Node.value n = x.
Proof.
  unfold segment. intros (i & Hi)%list_elem_of_lookup_1.
  apply lookup_take_Some in Hi as [Hi Hlt]. rewrite lookup_drop in Hi.
  rewrite list_lookup_fmap in Hi.
  destruct (s !! (lo + i)%nat) as [n|] eqn:Hn; [|done].
  exists (lo + i)%nat, n. split_and!; [lia..|done|by simplify_eq/=].
Qed.

Lemma segment_split s lo p hi n :
  s !! p = Some n -> (lo <= p < hi)%nat ->
  segment s lo hi = segment s lo p ++ Node.value n :: segment s (S p) hi.
Proof.
  intros Hn Hr. unfold segment. symmetry.
  apply take_drop_middle_range; [|done]. by rewrite list_lookup_fmap, Hn.
Qed.

Lemma segment_empty s lo : segment s lo lo = [].
Proof. unfold segment. by rewrite Nat.sub_diag. Qed.

(** The root of a tree holds a minimum of the tree. *)
Lemma subtree_root_minimum `{!WeakOrder comp} s p lo hi :
  heap_edges comp s -> subtree_at s p lo hi ->
  forall r nr, p = Some r -> s !! r = Some nr ->
  forall x, x ∈ segment s lo hi -> comp x (Node.value nr) = false.
Proof.
  intros Hedges. induction 1 as [|p n lo hi Hp Hr Hl IHl Hrt IHr];
    intros r nr [= <-] Hnr x Hx.
  assert (nr = n) as -> by congruence.
  rewrite (segment_split s lo p hi n Hp Hr) in Hx.
  destruct (Hedges p n Hp) as [Hleft Hright].
  apply elem_of_app in Hx as [Hx|[->|Hx]%elem_of_cons].
  - destruct (Node.left n) as [l|] eqn:Hleq.
    + destruct (Hleft l eq_refl) as (nl & Hnl & Hcl).
      apply (comp_ntrans _ _ (Node.value nl)); [|done].
      by apply (IHl l nl).
    + inversion Hl; subst. rewrite segment_empty in Hx.
      by apply elem_of_nil in Hx.
  - apply weak_irrefl.
  - destruct (Node.right n) as [r'|] eqn:Hreq.
    + destruct (Hright r' eq_refl) as (nr' & Hnr' & Hcr).
      apply (comp_ntrans _ _ (Node.value nr')); [|by apply comp_asym].
      by apply (IHr r' nr').
    + inversion Hrt; subst. rewrite segment_empty in Hx.
      by apply elem_of_nil in Hx.
Qed.

(** *** The queue *)

Lemma queue_inv_push s pq rem child lo hi :
  subtree_at s child lo hi -> queue_inv s pq rem ->
  queue_inv s (push_child child pq) (segment s lo hi ++ rem).
Proof.
  intros Hsub (ranges & Hall & Hrem). destruct child as [c|]; cbn.
  - exists ((lo, hi) :: ranges). split; [by constructor|].
    cbn. by rewrite Hrem.
  - inversion Hsub; subst. rewrite segment_empty. by exists ranges.
Qed.

Lemma queue_inv_delete s pq rem i t :
  pq !! i = Some t -> queue_inv s pq rem ->
  exists lo hi rem',
    subtree_at s (Some t) lo hi /\
    rem ≡ₚ segment s lo hi ++ rem' /\ queue_inv s (delete i pq) rem'.
Proof.
  intros Ht (ranges & Hall & Hrem).
  destruct (Forall2_lookup_l _ _ _ _ _ Hall Ht) as ([lo hi] & Hr & Hsub).
  exists lo, hi, (mjoin ((fun r => segment s r.1 r.2) <$> delete i ranges)).
  split_and!; [done| |].
  - rewrite Hrem. rewrite (delete_Permutation ranges i (lo, hi)) at 1 by done.
    done.
  - exists (delete i ranges). split; [by apply Forall2_delete|done].
Qed.

Lemma queue_inv_nil s rem : queue_inv s [] rem -> rem = [].
Proof.
  intros (ranges & Hall & Hrem). apply Forall2_nil_inv_l in Hall as ->.
  by apply Permutation_nil_r in Hrem.
Qed.

(** Every value the queue stands for is not smaller than the value of
    a node that may be on top. *)
Lemma queue_top_minimum `{!WeakOrder comp} s pq rem i t nt :
  heap_edges comp s -> queue_inv s pq rem ->
  pq !! i = Some t -> s !! t = Some nt ->
  forallb (ranks_top comp s t) pq = true ->
  forall x, x ∈ rem -> comp x (Node.value nt) = false.
Proof.
  intros Hedges (ranges & Hall & Hrem) Ht Hnt Htop x Hx.
  rewrite Hrem in Hx. apply list_elem_of_join in Hx as (seg & Hx & Hseg).
  apply list_elem_of_fmap in Hseg as ([lo hi] & -> & Hr).
  apply list_elem_of_lookup_1 in Hr as [k Hk].
  destruct (Forall2_lookup_r _ _ _ _ _ Hall Hk) as (y & Hy & Hsub).
  cbn [fst snd] in *.
  inversion Hsub as [|? ny ? ? Hny _ _ _]; subst.
  pose proof (subtree_root_minimum s _ _ _ Hedges Hsub y ny eq_refl Hny x Hx)
    as Hxy.
  apply (comp_ntrans _ _ (Node.value ny)); [done|].
  rewrite forallb_forall in Htop.
  assert (Hin : In y pq).
  { apply list_elem_of_In. by eapply list_elem_of_lookup_2. }
  specialize (Htop y Hin). unfold ranks_top, NodeComparator in Htop.
  rewrite Hny, Hnt in Htop. cbn [mbind option_bind] in Htop.
  apply orb_true_iff in Htop as [Hyt|Hty].
  - by apply negb_true_iff in Hyt.
  - rewrite negb_involutive in Hty. by apply comp_asym.
Qed.

Lemma pq_tops_elem s pq i :
  i ∈ pq_tops comp s pq <->
  exists t, pq !! i = Some t /\ forallb (ranks_top comp s t) pq = true.
Proof.
  unfold pq_tops. rewrite list_elem_of_In, filter_In, <- list_elem_of_In.
  rewrite elem_of_seq. split.
  - intros [_ Hi]. destruct (pq !! i) as [t|]; [by exists t|done].
  - intros (t & Ht & Htop). rewrite Ht. split; [|done].
    apply lookup_lt_Some in Ht. lia.
Qed.

Lemma pq_tops_nonempty `{!WeakOrder comp} s pq rem :
  queue_inv s pq rem -> pq <> [] -> pq_tops comp s pq <> [].
Proof.
  intros (ranges & Hall & _) Hpq.
  assert (Hvalid : forall y, y ∈ pq -> is_Some (Node.value <$> s !! y)).
  { intros y (k & Hk)%list_elem_of_lookup_1.
    destruct (Forall2_lookup_l _ _ _ _ _ Hall Hk) as (r & _ & Hsub).
    inversion Hsub as [|? n ? ? Hn _ _ _]; subst. rewrite Hn. by eexists. }
  destruct (exists_minimum (fun y => Node.value <$> s !! y) pq Hpq Hvalid)
    as (t & vt & Ht & Hvt & Hmin).
  apply list_elem_of_lookup_1 in Ht as [i Hi].
  assert (Hin : i ∈ pq_tops comp s pq); [|by intros Heq; rewrite Heq in Hin;
                                          apply elem_of_nil in Hin].
  apply pq_tops_elem. exists t. split; [done|].
  apply forallb_forall. intros y Hy%list_elem_of_In.
  destruct (Hvalid y Hy) as [vy Hvy].
  specialize (Hmin y vy Hy Hvy). unfold ranks_top, NodeComparator.
  destruct (s !! y) as [ny|]; [|done]. destruct (s !! t) as [nt|]; [|done].
  simplify_eq/=. by rewrite Hmin.
Qed.

(** *** The loop *)

Lemma sort_loop_spec `{!WeakOrder comp} s :
  heap_edges comp s ->
  forall n pq rem,
  queue_inv s pq rem -> length rem = n ->
  sort_loop comp n s pq <> [] /\
  forall r, r ∈ sort_loop comp n s pq ->
    exists out, r = Some out /\ rem ≡ₚ out /\
      StronglySorted (fun x y => comp y x = false) out.
Proof.
  intros Hedges. induction n as [|n IH]; intros pq rem Hq Hlen.
  - apply nil_length_inv in Hlen as ->. cbn [sort_loop]. split; [done|].
    intros r ->%list_elem_of_singleton. exists []. split_and!; [done..|].
    constructor.
  - cbn [sort_loop]. destruct pq as [|p0 pq0] eqn:Hpq.
    { apply queue_inv_nil in Hq. by subst. }
    rewrite <- Hpq in *. assert (Hne : pq <> []) by (by subst).
    clear Hpq p0 pq0.
    assert (Hstep : forall i, i ∈ pq_tops comp s pq ->
              exists t nt rem',
                pq !! i = Some t /\ s !! t = Some nt /\
                rem ≡ₚ Node.value nt :: rem' /\
                Forall (fun x => comp x (Node.value nt) = false) rem' /\
                queue_inv s
                  (push_child (Node.right nt)
                     (push_child (Node.left nt) (delete i pq))) rem').
    { intros i (t & Ht & Htop)%pq_tops_elem.
      destruct (queue_inv_delete s pq rem i t Ht Hq)
        as (lo & hi & rem1 & Hsub & Hrem & Hq1).
      inversion Hsub as [|? nt ? ? Hnt Hr Hl Hrt]; subst.
      exists t, nt, (segment s (S t) hi ++ segment s lo t ++ rem1).
      rewrite (segment_split s lo t hi nt Hnt Hr) in Hrem.
      split_and!; [done|done| | |].
      - rewrite Hrem. rewrite <- !app_assoc. cbn [app].
        rewrite <- Permutation_middle.
        by rewrite (Permutation_app_swap_app (segment s (S t) hi)).
      - apply Forall_forall. intros x Hx.
        apply (queue_top_minimum s pq rem i t nt); [done..|].
        rewrite Hrem. rewrite !elem_of_app in Hx.
        rewrite !elem_of_app, elem_of_cons. tauto.
      - apply queue_inv_push; [done|]. by apply queue_inv_push. }
    split.
    + destruct (pq_tops comp s pq) as [|i tops] eqn:Htops.
      { by eapply pq_tops_nonempty in Htops. }
      destruct (Hstep i) as (t & nt & rem' & Ht & Hnt & Hrem & Hmin & Hq');
        [left|].
      cbn [mbind list_bind]. rewrite Ht. cbn [mbind option_bind].
      rewrite Hnt.
      assert (Hlen' : length rem' = n).
      { apply Permutation_length in Hrem. simpl in Hrem. lia. }
      destruct (IH _ _ Hq' Hlen') as [Hnonempty _].
      destruct (sort_loop comp n s _); [done|]. done.
    + intros r Hr. apply list_elem_of_bind in Hr as (i & Hr & Hi).
      destruct (Hstep i Hi)
        as (t & nt & rem' & Ht & Hnt & Hrem & Hmin & Hq').
      rewrite Ht in Hr. cbn [mbind option_bind] in Hr. rewrite Hnt in Hr.
      assert (Hlen' : length rem' = n).
      { apply Permutation_length in Hrem. simpl in Hrem. lia. }
      destruct (IH _ _ Hq' Hlen') as [_ Hall].
      apply list_elem_of_fmap in Hr as (r' & -> & Hr').
      destruct (Hall r' Hr') as (out & -> & Hperm & Hsorted).
      exists (Node.value nt :: out). split_and!; [done| |].
      * by rewrite Hrem, Hperm.
      * constructor; [done|]. by rewrite <- Hperm.
Qed.

End CartesianSort.

(** ** Results on Cartesian tree sort *)

Lemma subtree_at_null_empty {A} (s : list (Node.t A)) lo hi :
  subtree_at s None lo hi -> lo = hi.
Proof. by inversion 1. Qed.

Lemma segment_all {A} (s : list (Node.t A)) :
  segment s 0 (length s) = Node.value <$> s.
Proof.
  unfold segment. rewrite Nat.sub_0_r, drop_0.
  apply take_ge. by rewrite length_fmap.
Qed.

(** X14.  [MakeCartesianTree] returns for every sequence and every
    comparator: the stack of the right spine never runs empty and no
    pointer it follows is [NULL].  It allocates one node per element,
    and the in-order walk of the tree it returns gives back the
    sequence, element by element; the tree is empty exactly for the
    empty sequence. *)
Theorem MakeCartesianTree_inorder {A} (comp : A -> A -> bool) (xs : list A) :
  exists s root,
    MakeCartesianTree comp xs = Some (s, root) /\
    length s = length xs /\
    inorder (length s) s root = Some xs /\
    (root = None <-> xs = []).
Proof.
  destruct (MakeCartesianTree_spec comp xs)
    as (s & root & Hmake & Hval & _ & Hsub).
  assert (Hlen : length s = length xs) by (by rewrite <- Hval, length_fmap).
  exists s, root. split_and!; [done..| |].
  - rewrite (inorder_subtree _ _ _ _ Hsub) by lia.
    fold (segment s 0 (length s)). by rewrite segment_all, Hval.
  - split.
    + intros ->. apply subtree_at_null_empty in Hsub.
      apply nil_length_inv. lia.
    + intros ->. destruct s; [|done].
      inversion Hsub as [|p n ? ? Hp]; [done|]. by destruct p.
Qed.

(** X15.  The tree [MakeCartesianTree] returns has its edges in order,
    whatever the comparator: every pointer of a node leads to a node;
    the value of a left child is not smaller than the value of its
    parent, and the value of a right child is greater than the value of
    its parent. *)
Theorem MakeCartesianTree_edges {A} (comp : A -> A -> bool) (xs : list A) :
  exists s root,
    MakeCartesianTree comp xs = Some (s, root) /\
    forall p n, s !! p = Some n ->
      (forall l, Node.left n = Some l ->
         exists nl, s !! l = Some nl /\
                    comp (Node.value nl) (Node.value n) = false) /\
      (forall r, Node.right n = Some r ->
         exists nr, s !! r = Some nr /\
                    comp (Node.value n) (Node.value nr) = true).
Proof.
  destruct (MakeCartesianTree_spec comp xs)
    as (s & root & Hmake & _ & Hedges & _).
  by exists s, root.
Qed.

Lemma segment_elem_of {A} (s : list (Node.t A)) lo hi i n :
  (lo <= i < hi)%nat -> s !! i = Some n -> Node.value n ∈ segment s lo hi.
Proof.
  intros Hi Hn. unfold segment. apply list_elem_of_lookup.
  exists (i - lo)%nat. apply lookup_take_Some. split; [|lia].
  rewrite lookup_drop, list_lookup_fmap.
  replace (lo + (i - lo))%nat with i by lia. by rewrite Hn.
Qed.

(** The root of a tree is smaller than all that follows it in the
    tree. *)
Lemma subtree_root_before_greater {A} (comp : A -> A -> bool)
    `{!WeakOrder comp} (s : list (Node.t A)) r nr lo hi :
  heap_edges comp s -> subtree_at s (Some r) lo hi -> s !! r = Some nr ->
  forall i ni, (r < i < hi)%nat -> s !! i = Some ni ->
  comp (Node.value nr) (Node.value ni) = true.
Proof.
  intros Hedges Hsub Hnr i ni Hi Hni.
  inversion Hsub as [|? n ? ? Hn Hr Hl Hrt]; subst.
  assert (n = nr) as -> by congruence.
  destruct (Node.right nr) as [c|] eqn:Hc.
  - destruct (Hedges r nr Hnr) as [_ Hright].
    destruct (Hright c Hc) as (nc & Hnc & Hlt).
    pose proof (subtree_root_minimum comp s _ _ _ Hedges Hrt c nc eq_refl Hnc
                  (Node.value ni) (segment_elem_of s _ _ i ni Hi Hni))
      as Hge.
    destruct (comp (Node.value nr) (Node.value ni)) eqn:Hcomp; [done|].
    by rewrite (comp_ntrans _ _ _ _ Hcomp Hge) in Hlt.
  - inversion Hrt; subst. lia.
Qed.

(** X16.  For a strict weak order the tree [MakeCartesianTree] returns
    is a min-heap whose root is the last minimum of the sequence: no
    element is smaller than the root, and every element after the root
    is greater. *)
Theorem MakeCartesianTree_root_minimum {A} (comp : A -> A -> bool)
    (xs : list A) :
  WeakOrder comp -> xs <> [] ->
  exists s r nr,
    MakeCartesianTree comp xs = Some (s, Some r) /\ s !! r = Some nr /\
    xs !! r = Some (Node.value nr) /\
    forall i x, xs !! i = Some x ->
      comp x (Node.value nr) = false /\
      ((r < i)%nat -> comp (Node.value nr) x = true).
Proof.
  intros HW Hxs.
  destruct (MakeCartesianTree_spec comp xs)
    as (s & root & Hmake & Hval & Hedges & Hsub).
  destruct root as [r|].
  - inversion Hsub as [|? nr ? ? Hnr _ _ _]; subst.
    exists s, r, nr. split_and!; [done..| |].
    + by rewrite list_lookup_fmap, Hnr.
    + intros i x Hx. rewrite list_lookup_fmap in Hx.
      destruct (s !! i) as [ni|] eqn:Hni; [|done]. simplify_eq/=.
      pose proof (lookup_lt_Some _ _ _ Hni). split.
      * apply (subtree_root_minimum comp s _ _ _ Hedges Hsub r nr);
          [done..|].
        apply (segment_elem_of s _ _ i); [lia|done].
      * intros Hi.
        apply (subtree_root_before_greater comp s r nr _ _ Hedges Hsub Hnr i);
          [lia|done].
  - apply subtree_at_null_empty in Hsub. destruct s; [|done]. by subst.
Qed.

Lemma MakeCartesianTree_root_minimum_witness :
  WeakOrder Z.ltb /\ [3; 1; 2; 1; 4] <> [] /\
  exists s r nr,
    MakeCartesianTree Z.ltb [3; 1; 2; 1; 4] = Some (s, Some r) /\
    s !! r = Some nr /\ [3; 1; 2; 1; 4] !! r = Some (Node.value nr) /\
    forall i x, [3; 1; 2; 1; 4] !! i = Some x ->
      Z.ltb x (Node.value nr) = false /\
      ((r < i)%nat -> Z.ltb (Node.value nr) x = true).
Proof.
  assert (HW : WeakOrder Z.ltb)
    by (split; intros *; rewrite ?Z.ltb_lt, ?Z.ltb_ge; lia).
  assert (Hxs : [3; 1; 2; 1; 4] <> []) by discriminate.
  split; [exact HW|]. split; [exact Hxs|].
  exact (MakeCartesianTree_root_minimum Z.ltb [3; 1; 2; 1; 4] HW Hxs).
Defined.

(** The outcomes of [CartesianTreeSort]. *)
Lemma CartesianTreeSort_spec {A} (comp : A -> A -> bool) (xs : list A) :
  WeakOrder comp ->
  CartesianTreeSort comp xs <> [] /\
  forall r, r ∈ CartesianTreeSort comp xs ->
    exists out, r = Some out /\ xs ≡ₚ out /\
      StronglySorted (fun x y => comp y x = false) out.
Proof.
  intros HW. unfold CartesianTreeSort. destruct xs as [|x xs'].
  { split; [done|]. intros r ->%list_elem_of_singleton.
    exists []. split_and!; [done..|constructor]. }
  set (xs := x :: xs').
  destruct (MakeCartesianTree_spec comp xs)
    as (s & root & Hmake & Hval & Hedges & Hsub).
  rewrite Hmake. destruct root as [r|].
  - assert (Hq : queue_inv s [r] xs).
    { exists [(0%nat, length s)]. split; [by repeat constructor|].
      change (xs ≡ₚ segment s 0 (length s) ++ []).
      by rewrite app_nil_r, segment_all, Hval. }
    apply (sort_loop_spec comp s Hedges (length xs) [r] xs Hq eq_refl).
  - apply subtree_at_null_empty in Hsub. destruct s; [|done]. by subst.
Qed.

(** X17.  [CartesianTreeSort] sorts, whichever node of top rank the
    priority queue hands back at each step.  For a strict weak order
    every outcome of the model is defined (the queue is never found
    empty and no pointer leads nowhere), there is an outcome, and each
    one is a permutation of the input in which no element is smaller
    than an earlier one.  The empty sequence is returned at once. *)
Theorem CartesianTreeSort_sorts {A} (comp : A -> A -> bool) (xs : list A) :
  WeakOrder comp ->
  CartesianTreeSort comp xs <> [] /\
  forall r, r ∈ CartesianTreeSort comp xs ->
    exists out, r = Some out /\ xs ≡ₚ out /\
      StronglySorted (fun x y => comp y x = false) out.
Proof. apply CartesianTreeSort_spec. Qed.

Lemma CartesianTreeSort_sorts_witness :
  WeakOrder (fun x y : Z * Z => Z.ltb (fst x) (fst y)) /\
  CartesianTreeSort (fun x y : Z * Z => Z.ltb (fst x) (fst y))
    [(2, 0); (1, 7); (2, 5); (1, 3)] <> [] /\
  forall r,
    r ∈ CartesianTreeSort (fun x y : Z * Z => Z.ltb (fst x) (fst y))
          [(2, 0); (1, 7); (2, 5); (1, 3)] ->
    exists out, r = Some out /\ [(2, 0); (1, 7); (2, 5); (1, 3)] ≡ₚ out /\
      StronglySorted (fun x y : Z * Z => Z.ltb (fst y) (fst x) = false) out.
Proof.
  assert (HW : WeakOrder (fun x y : Z * Z => Z.ltb (fst x) (fst y))).
  { split.
    - intros [x1 x2] [y1 y2]. cbn [fst]. rewrite Z.ltb_lt, Z.ltb_ge. lia.
    - intros [x1 x2] [y1 y2] [z1 z2]. cbn [fst]. rewrite !Z.ltb_ge. lia. }
  split; [exact HW|].
  exact (CartesianTreeSort_sorts _ [(2, 0); (1, 7); (2, 5); (1, 3)] HW).
Defined.

(** X18.  For a strict total order the freedom of the queue does not
    show: every outcome of [CartesianTreeSort] is the sequence that
    [Smoothsort] returns for the same input. *)
Theorem CartesianTreeSort_agrees_with_Smoothsort {A}
    (comp : A -> A -> bool) (xs : list A) :
  StrictTotalOrder comp -> Z.of_nat (length xs) < 2 ^ size_t_bits ->
  exists l',
    Smoothsort comp xs = Some l' /\
    CartesianTreeSort comp xs <> [] /\
    forall r, r ∈ CartesianTreeSort comp xs -> r = Some l'.
Proof.
  intros Hsto Hlen. pose proof (strict_total_weak comp Hsto) as HW.
  destruct (Smoothsort_spec comp xs Hlen) as (l' & Hs & Hp & Hsorted).
  destruct (CartesianTreeSort_spec comp xs HW) as [Hne Hall].
  exists l'. split_and!; [done..|].
  intros r Hr. destruct (Hall r Hr) as (out & -> & Hp' & Hsorted').
  f_equal.
  assert (Hanti : AntiSymm (=) (fun x y : A => comp y x = false)).
  { intros x y Hxy Hyx. by apply (sto_total comp). }
  apply (StronglySorted_unique (fun x y : A => comp y x = false));
    [done|by apply Hsorted|by rewrite <- Hp, Hp'].
Qed.

Lemma CartesianTreeSort_agrees_with_Smoothsort_witness :
  StrictTotalOrder Z.ltb /\
  Z.of_nat (length [3; 1; 2; 5; 4; 1]) < 2 ^ size_t_bits /\
  exists l',
    Smoothsort Z.ltb [3; 1; 2; 5; 4; 1] = Some l' /\
    CartesianTreeSort Z.ltb [3; 1; 2; 5; 4; 1] <> [] /\
    forall r, r ∈ CartesianTreeSort Z.ltb [3; 1; 2; 5; 4; 1] -> r = Some l'.
Proof.
  assert (Hsto : StrictTotalOrder Z.ltb)
    by (split; intros *; rewrite ?Z.ltb_lt, ?Z.ltb_ge; lia).
  assert (Hlen : Z.of_nat (length [3; 1; 2; 5; 4; 1]) < 2 ^ size_t_bits)
    by (vm_compute; reflexivity).
  split; [exact Hsto|]. split; [exact Hlen|].
  exact (CartesianTreeSort_agrees_with_Smoothsort Z.ltb [3; 1; 2; 5; 4; 1]
           Hsto Hlen).
Defined.

(** X19.  The comparator that [CartesianTreeSort] hands to the priority
    queue is not a strict order.  For a strict weak order [comp],
    [NodeComparator] holds of every node and itself; on the nodes of a
    store it is total and transitive: it is the order "not smaller
    than", with ties. *)
Theorem NodeComparator_reflexive_total {A} (comp : A -> A -> bool)
    (s : list (Node.t A)) :
  WeakOrder comp ->
  (forall p, is_Some (s !! p) -> NodeComparator comp s p p = Some true) /\
  (forall p q, is_Some (s !! p) -> is_Some (s !! q) ->
     NodeComparator comp s p q = Some true \/
     NodeComparator comp s q p = Some true) /\
  (forall p q r,
     NodeComparator comp s p q = Some true ->
     NodeComparator comp s q r = Some true ->
     NodeComparator comp s p r = Some true).
Proof.
  intros HW. unfold NodeComparator. split_and!.
  - intros p [np ->]. cbn [mbind option_bind].
    by rewrite (weak_irrefl comp).
  - intros p q [np ->] [nq ->]. cbn [mbind option_bind].
    destruct (comp (Node.value np) (Node.value nq)) eqn:Hpq; [|by left].
    right. by rewrite (comp_asym _ _ _ Hpq).
  - intros p q r.
    destruct (s !! p) as [np|]; [|done]. destruct (s !! q) as [nq|]; [|done].
    destruct (s !! r) as [nr|]; [|done]. cbn [mbind option_bind].
    intros [= Hpq%negb_true_iff] [= Hqr%negb_true_iff].
    by rewrite (comp_ntrans _ _ _ _ Hpq Hqr).
Qed.

Lemma NodeComparator_reflexive_total_witness :
  WeakOrder Z.ltb /\
  (forall p, is_Some ([Node.mk 7 None None; Node.mk 7 None None] !! p) ->
     NodeComparator Z.ltb [Node.mk 7 None None; Node.mk 7 None None] p p
     = Some true) /\
  (forall p q,
     is_Some ([Node.mk 7 None None; Node.mk 7 None None] !! p) ->
     is_Some ([Node.mk 7 None None; Node.mk 7 None None] !! q) ->
     NodeComparator Z.ltb [Node.mk 7 None None; Node.mk 7 None None] p q
     = Some true \/
     NodeComparator Z.ltb [Node.mk 7 None None; Node.mk 7 None None] q p
     = Some true) /\
  (forall p q r,
     NodeComparator Z.ltb [Node.mk 7 None None; Node.mk 7 None None] p q
     = Some true ->
     NodeComparator Z.ltb [Node.mk 7 None None; Node.mk 7 None None] q r
     = Some true ->
     NodeComparator Z.ltb [Node.mk 7 None None; Node.mk 7 None None] p r
     = Some true).
Proof.
  assert (HW : WeakOrder Z.ltb)
    by (split; intros *; rewrite ?Z.ltb_lt, ?Z.ltb_ge; lia).
  split; [exact HW|].
  exact (NodeComparator_reflexive_total Z.ltb
           [Node.mk 7 None None; Node.mk 7 None None] HW).
Defined.

(** ** The Leonardo heap as a priority queue *)

Section PriorityQueue.
Context {A : Type} (comp : A -> A -> bool).
Implicit Types (a : list A) (os : list nat).

Lemma roots_sorted_where Q a os : forall m,
  roots_sorted comp a os m -> sorted_where comp Q a os m.
Proof.
  induction os as [|k os IH]; intros m Hs; [done|].
  split; [done|]. apply IH. by eapply roots_sorted_tail.
Qed.

Lemma roots_sorted_build_order_inv n a os m :
  heaps comp a os m -> roots_sorted comp a os m ->
  build_order_inv comp n a os m.
Proof.
  intros Hh Hs. split; [done|]. destruct os as [|k os]; [done|].
  split; [done|]. apply roots_sorted_where. by eapply roots_sorted_tail.
Qed.

(** A heap in order is left alone. *)
Lemma RebalanceSingleHeap_heap (k : nat) a root :
  (k < 46)%nat -> is_heap comp a k root ->
  RebalanceSingleHeap comp a root (Z.of_nat k) = Some a.
Proof.
  intros Hk Hh. unfold RebalanceSingleHeap. rewrite Nat2Z.id.
  destruct k as [|[|k]]; [by apply rebalance_loop_leaf..|].
  destruct Hh as (_ & _ & Hf & Hs).
  destruct (ge_at_is_Some _ _ _ _ Hf) as [[vr Hvr] [vf Hvf]].
  destruct (ge_at_is_Some _ _ _ _ Hs) as [_ [vs Hvs]].
  pose proof (ge_at_Some _ _ _ _ _ _ Hvr Hvf Hf) as Hrf.
  pose proof (ge_at_Some _ _ _ _ _ _ Hvr Hvs Hs) as Hrs.
  unfold ge in *.
  rewrite (rebalance_loop_step comp _ a root _ (root - 1 - L k) vf vs vr
             (if comp vf vs then vs else vf));
    [|lia|by apply FirstChild_spec; lia|done|done|done
     |by destruct (comp vf vs)].
  by destruct (comp vf vs); rewrite ?Hrf, ?Hrs.
Qed.

End PriorityQueue.

(** X20.  [LeonardoHeapRemove] is the remove-max of a priority queue.
    On every Leonardo heap in order (a shape of a run, every tree a
    max-heap, roots ascending), for a strict weak order, the last
    element is a maximum; the call returns a heap in order over the
    elements before it, shaped by the shape it returns, and moves
    nothing from the last position on. *)
Theorem LeonardoHeapRemove_remove_max {A} (comp : A -> A -> bool)
    (a : list A) (shape : HeapShape) (os : list nat) (m : Z) :
  WeakOrder comp ->
  shape_inv shape os m -> 1 <= m <= Z.of_nat (length a) ->
  m < 2 ^ size_t_bits ->
  heaps comp a os m -> roots_sorted comp a os m ->
  (forall i, 0 <= i < m -> ge_at comp a (m - 1) i) /\
  exists a' shape',
    LeonardoHeapRemove comp a 0 m shape = Some (a', shape') /\
    shape_inv shape' (remove_orders os) (m - 1) /\
    a ≡ₚ a' /\ (forall i, m - 1 <= i -> deref a' i = deref a i) /\
    heaps comp a' (remove_orders os) (m - 1) /\
    roots_sorted comp a' (remove_orders os) (m - 1).
Proof.
  intros HW Hinv Hm Hm32 Hh Hs. unfold size_t_bits in Hm32. split.
  - intros i Hi. apply (forest_max comp a os m); [done..|].
    destruct Hinv as (_ & _ & ->). lia.
  - destruct (LeonardoHeapRemove_spec comp a shape os m Hinv Hm Hm32)
      as (a' & shape' & Hrem & Hinv' & Hsw & Hpost).
    destruct (Hpost HW Hh Hs) as [Hh' Hs'].
    exists a', shape'. split_and!; [done|done| | |done|done].
    + by eapply swaps_within_perm.
    + intros i Hi. apply (swaps_within_outside _ _ _ _ _ Hsw). lia.
Qed.

Lemma LeonardoHeapRemove_remove_max_witness :
  WeakOrder Z.ltb /\
  shape_inv (mkShape 3 0) [0; 1]%nat 2 /\
  1 <= 2 <= Z.of_nat (length [4; 6; 1]) /\ 2 < 2 ^ size_t_bits /\
  heaps Z.ltb [4; 6; 1] [0; 1]%nat 2 /\
  roots_sorted Z.ltb [4; 6; 1] [0; 1]%nat 2 /\
  (forall i, 0 <= i < 2 -> ge_at Z.ltb [4; 6; 1] (2 - 1) i) /\
  exists a' shape',
    LeonardoHeapRemove Z.ltb [4; 6; 1] 0 2 (mkShape 3 0)
      = Some (a', shape') /\
    shape_inv shape' (remove_orders [0; 1]%nat) (2 - 1) /\
    [4; 6; 1] ≡ₚ a' /\
    (forall i, 2 - 1 <= i -> deref a' i = deref [4; 6; 1] i) /\
    heaps Z.ltb a' (remove_orders [0; 1]%nat) (2 - 1) /\
    roots_sorted Z.ltb a' (remove_orders [0; 1]%nat) (2 - 1).
Proof.
  assert (HW : WeakOrder Z.ltb)
    by (split; intros *; rewrite ?Z.ltb_lt, ?Z.ltb_ge; lia).
  assert (Hm : 1 <= 2 <= Z.of_nat (length [4; 6; 1])) by (simpl; lia).
  assert (Hm32 : 2 < 2 ^ size_t_bits) by (vm_compute; reflexivity).
  assert (Hh : heaps Z.ltb [4; 6; 1] [0; 1]%nat 2).
  { vm_compute. split_and!; [by eexists|by eexists|exact I]. }
  assert (Hs : roots_sorted Z.ltb [4; 6; 1] [0; 1]%nat 2).
  { vm_compute. by split. }
  split; [exact HW|]. split; [exact shape_inv_second|].
  split; [exact Hm|]. split; [exact Hm32|]. split; [exact Hh|].
  split; [exact Hs|].
  exact (LeonardoHeapRemove_remove_max Z.ltb [4; 6; 1] (mkShape 3 0)
           [0; 1]%nat 2 HW shape_inv_second Hm Hm32 Hh Hs).
Defined.

(** X21.  [LeonardoHeapAdd] is the insert of a priority queue when the
    heap takes the whole range ([heapEnd] just behind the new element).
    On every Leonardo heap in order, for a strict weak order, it returns
    a heap in order over one element more, shaped by the updated shape,
    and a permutation of the sequence. *)
Theorem LeonardoHeapAdd_insert {A} (comp : A -> A -> bool)
    (a : list A) (shape : HeapShape) (os : list nat) (m : Z) :
  WeakOrder comp ->
  shape_inv shape os m -> 0 <= m -> m + 1 = Z.of_nat (length a) ->
  m + 1 < 2 ^ size_t_bits ->
  heaps comp a os m -> roots_sorted comp a os m ->
  exists a',
    LeonardoHeapAdd comp a 0 m (m + 1) shape = Some (a', shape_add shape) /\
    shape_inv (shape_add shape) (add_orders os) (m + 1) /\
    a ≡ₚ a' /\
    heaps comp a' (add_orders os) (m + 1) /\
    roots_sorted comp a' (add_orders os) (m + 1).
Proof.
  intros HW Hinv Hm Hlen Hm32 Hh Hs. unfold size_t_bits in Hm32.
  destruct (LeonardoHeapAdd_spec comp a shape os m (m + 1) Hinv)
    as (a' & Hadd & Hinv' & Hsw & Hpost); [lia|done|done|].
  pose proof (Hpost HW (roots_sorted_build_order_inv comp _ _ _ _ Hh Hs))
    as Hb.
  exists a'. split_and!; [done|done|by eapply swaps_within_perm| |].
  - by destruct Hb.
  - by apply build_order_inv_done.
Qed.

Lemma LeonardoHeapAdd_insert_witness :
  WeakOrder Z.ltb /\
  shape_inv (mkShape 3 0) [0; 1]%nat 2 /\ 0 <= 2 /\
  2 + 1 = Z.of_nat (length [4; 6; 9]) /\ 2 + 1 < 2 ^ size_t_bits /\
  heaps Z.ltb [4; 6; 9] [0; 1]%nat 2 /\
  roots_sorted Z.ltb [4; 6; 9] [0; 1]%nat 2 /\
  exists a',
    LeonardoHeapAdd Z.ltb [4; 6; 9] 0 2 (2 + 1) (mkShape 3 0)
      = Some (a', shape_add (mkShape 3 0)) /\
    shape_inv (shape_add (mkShape 3 0)) (add_orders [0; 1]%nat) (2 + 1) /\
    [4; 6; 9] ≡ₚ a' /\
    heaps Z.ltb a' (add_orders [0; 1]%nat) (2 + 1) /\
    roots_sorted Z.ltb a' (add_orders [0; 1]%nat) (2 + 1).
Proof.
  assert (HW : WeakOrder Z.ltb)
    by (split; intros *; rewrite ?Z.ltb_lt, ?Z.ltb_ge; lia).
  assert (Hm : 0 <= 2) by lia.
  assert (Hlen : 2 + 1 = Z.of_nat (length [4; 6; 9])) by reflexivity.
  assert (Hm32 : 2 + 1 < 2 ^ size_t_bits) by (vm_compute; reflexivity).
  assert (Hh : heaps Z.ltb [4; 6; 9] [0; 1]%nat 2).
  { vm_compute. split_and!; [by eexists|by eexists|exact I]. }
  assert (Hs : roots_sorted Z.ltb [4; 6; 9] [0; 1]%nat 2).
  { vm_compute. by split. }
  split; [exact HW|]. split; [exact shape_inv_second|].
  split; [exact Hm|]. split; [exact Hlen|]. split; [exact Hm32|].
  split; [exact Hh|]. split; [exact Hs|].
  exact (LeonardoHeapAdd_insert Z.ltb [4; 6; 9] (mkShape 3 0) [0; 1]%nat 2
           HW shape_inv_second Hm Hlen Hm32 Hh Hs).
Defined.

(** X22.  [RebalanceSingleHeap] is idempotent: for a strict weak order,
    on the tree it has just put in order a second call finds the root
    not smaller than its larger child at once and changes nothing. *)
Theorem RebalanceSingleHeap_idempotent {A} (comp : A -> A -> bool)
    (a a' : list A) (k : nat) (root : Z) :
  WeakOrder comp ->
  (k < 46)%nat -> L k <= root + 1 -> root < Z.of_nat (length a) ->
  semi_heap comp a k root ->
  RebalanceSingleHeap comp a root (Z.of_nat k) = Some a' ->
  RebalanceSingleHeap comp a' root (Z.of_nat k) = Some a'.
Proof.
  intros HW Hk Hlo Hhi Hsemi Hr.
  destruct (RebalanceSingleHeap_spec comp k a root Hk Hlo Hhi)
    as (a1 & Hr1 & _ & Hh).
  assert (a1 = a') as -> by congruence.
  apply RebalanceSingleHeap_heap; [done|]. by apply Hh.
Qed.

Lemma RebalanceSingleHeap_idempotent_witness :
  WeakOrder Z.ltb /\ (2 < 46)%nat /\ L 2 <= 2 + 1 /\
  2 < Z.of_nat (length [7; 9; 1]) /\ semi_heap Z.ltb [7; 9; 1] 2 2 /\
  RebalanceSingleHeap Z.ltb [7; 9; 1] 2 (Z.of_nat 2) = Some [7; 1; 9] /\
  RebalanceSingleHeap Z.ltb [7; 1; 9] 2 (Z.of_nat 2) = Some [7; 1; 9].
Proof.
  assert (HW : WeakOrder Z.ltb)
    by (split; intros *; rewrite ?Z.ltb_lt, ?Z.ltb_ge; lia).
  assert (Hk : (2 < 46)%nat) by lia.
  assert (Hlo : L 2 <= 2 + 1) by (vm_compute; discriminate).
  assert (Hhi : 2 < Z.of_nat (length [7; 9; 1])) by (vm_compute; reflexivity).
  assert (Hsemi : semi_heap Z.ltb [7; 9; 1] 2 2)
    by (vm_compute; repeat split; eexists; reflexivity).
  assert (Hr : RebalanceSingleHeap Z.ltb [7; 9; 1] 2 (Z.of_nat 2)
               = Some [7; 1; 9]) by (vm_compute; reflexivity).
  split_and!; [done..|].
  exact (RebalanceSingleHeap_idempotent Z.ltb [7; 9; 1] [7; 1; 9] 2 2
           HW Hk Hlo Hhi Hsemi Hr).
Defined.
